(** * aiorussound: the RIO session engine ([src/aiorussound/rio.py])

    A shallow embedding of the [Russound] connection object: the variable
    cache with its callback fan-out, the response parser, the session loop
    ([_ioloop]) and the client calls built on [send_cmd].

    Conventions of the embedding.
    - Text is decoded text over code points below 256 ([string]); the
      decoding of the bytes read is not modelled.
    - A Python dict whose iteration order is observable ([_callbacks],
      [_watched_devices], [_controllers], [zones]) is an association list in
      insertion order; the cache [_state] and [sources], which are only
      looked up and written by key, are [gmap]s.
    - Callbacks are opaque: a callback is an identifier and calling it is
      recorded in the [trace]; it returns normally and leaves the object
      alone.
    - A result slot (an asyncio future) is a number, fresh for every
      [send_cmd]; only the session loop resolves it.
    - Every observable action is appended to the [trace], oldest first.
    - A coroutine that awaits a command's result is a [task]: finished, or
      suspended on a future with the rest of its body as continuation. *)

From Stdlib Require Import ZArith NArith Ascii String.
From stdpp Require Import base option list strings pretty gmap.

Local Open Scope string_scope.
Local Open Scope Z_scope.
Local Open Scope list_scope.

(** ** Python text primitives *)

Module Py.

(** [str.isspace] on one character. *)
Definition isspace (c : ascii) : bool :=
  let n := N_of_ascii c in
  ((9 <=? n) && (n <=? 13) || (28 <=? n) && (n <=? 32)
   || (n =? 133) || (n =? 160))%N.

Fixpoint lstrip (s : string) : string :=
  match s with
  | EmptyString => EmptyString
  | String c s' => if isspace c then lstrip s' else s
  end.

Fixpoint rstrip (s : string) : string :=
  match s with
  | EmptyString => EmptyString
  | String c s' =>
      match rstrip s' with
      | EmptyString => if isspace c then EmptyString else String c EmptyString
      | r => String c r
      end
  end.

(** [s.strip()] *)
Definition strip (s : string) : string := rstrip (lstrip s).

Definition lower_char (c : ascii) : ascii :=
  let n := N_of_ascii c in
  if ((65 <=? n) && (n <=? 90)
      || (192 <=? n) && (n <=? 222) && negb (n =? 215))%N
  then ascii_of_N (n + 32) else c.

(** [s.lower()] *)
Fixpoint lower (s : string) : string :=
  match s with
  | EmptyString => EmptyString
  | String c s' => String (lower_char c) (lower s')
  end.

(** [s[n:]] *)
Fixpoint drop (n : nat) (s : string) : string :=
  match n, s with
  | O, _ => s
  | S n', String _ s' => drop n' s'
  | S _, EmptyString => EmptyString
  end.

Definition is_digit (c : ascii) : bool :=
  let n := N_of_ascii c in ((48 <=? n) && (n <=? 57))%N.

(** Decimal digits with single underscores between digits. *)
Fixpoint digits_value (acc : Z) (after_digit : bool) (s : string) : option Z :=
  match s with
  | EmptyString => if after_digit then Some acc else None
  | String c s' =>
      if is_digit c
      then digits_value (acc * 10 + (Z.of_N (N_of_ascii c) - 48)) true s'
      else if Ascii.eqb c "_"
           then (if after_digit then digits_value acc false s' else None)
           else None
  end.

(** [int(s)] on a string; [None] stands for [ValueError]. *)
Definition int (s : string) : option Z :=
  match strip s with
  | String "+" r => digits_value 0 false r
  | String "-" r => Z.opp <$> digits_value 0 false r
  | r => digits_value 0 false r
  end.

(** Truth value of a string. *)
Definition truthy (s : string) : bool :=
  match s with EmptyString => false | _ => true end.

(** [a or b] on optional strings. *)
Definition or_ (a b : option string) : option string :=
  match a with
  | Some s => if truthy s then a else b
  | None => b
  end.

End Py.

(** ** Insertion-ordered dictionaries *)

Module ODict.
Section ODict.
Context {K V : Type} `{EqDecision K}.

(** [d.get(k)] *)
Fixpoint get (k : K) (d : list (K * V)) : option V :=
  match d with
  | [] => None
  | (k', v) :: d' => if decide (k' = k) then Some v else get k d'
  end.

(** [d[k] = v]: an existing key keeps its place, a new key goes last. *)
Fixpoint set (k : K) (v : V) (d : list (K * V)) : list (K * V) :=
  match d with
  | [] => [(k, v)]
  | (k', v') :: d' =>
      if decide (k' = k) then (k, v) :: d' else (k', v') :: set k v d'
  end.

(** [del d[k]]; [None] stands for [KeyError]. *)
Fixpoint del (k : K) (d : list (K * V)) : option (list (K * V)) :=
  match d with
  | [] => None
  | (k', v') :: d' =>
      if decide (k' = k) then Some d'
      else cons (k', v') <$> del k d'
  end.

Definition keys (d : list (K * V)) : list K := d.*1.
Definition values (d : list (K * V)) : list V := d.*2.
End ODict.
End ODict.

(** ** Exceptions and results *)

Inductive exn :=
| CommandError (msg : string)
| UncachedVariableError
| UnsupportedFeatureError
| KeyError
| ValueError
| IndexError
| CancelledError
| TimeoutError
| ConnectionResetError
| OSError
| RuntimeError.

Inductive outcome (A : Type) :=
| Ret (a : A)
| Raise (e : exn).
Arguments Ret {A} a.
Arguments Raise {A} e.

(** ** Data model *)

Definition callback := nat.
Definition conn_callback := nat.
Definition future := nat.

(** What a command's result slot is resolved with: [set_result(value)] or
    [set_exception(CommandError(msg))]. *)
Inductive reply :=
| ROk (value : option string)
| RErr (msg : string).

Inductive effect :=
| EStore (device_str key value : string)
| ECallback (cb : callback) (device_str key value : string)
| EConnection (cb : conn_callback) (connected : bool)
| EPut (cmd : string) (fut : future)
| EWrite (data : string) (fut : future)
| EResolve (fut : future) (r : reply)
| EOpen
| ESpawn (reconnect : bool)
| EClose
| EReconnect (reconnect : bool).

Record Zone := mkZone { zone_controller : Z; zone_id : Z }.
Record Controller := mkController { controller_id : Z; zones : list (Z * Zone) }.
Record Source := mkSource { source_id : Z }.

Record Russound := mkRussound {
  _cmd_queue : list (string * future);
  _state : gmap string (gmap string string);
  _callbacks : list (string * list callback);
  _connection_callbacks : list conn_callback;
  _connection_started : bool;
  _watched_devices : list (string * bool);
  _controllers : list (Z * Controller);
  sources : gmap Z Source;
  rio_version : option string;
  connected : bool;
  (* ghost state *)
  next_future : future;
  trace : list effect
}.

Definition with_cmd_queue (q : list (string * future)) (r : Russound) : Russound :=
  mkRussound q (_state r) (_callbacks r) (_connection_callbacks r)
    (_connection_started r) (_watched_devices r) (_controllers r) (sources r)
    (rio_version r) (connected r) (next_future r) (trace r).

Definition with_state (s : gmap string (gmap string string)) (r : Russound) : Russound :=
  mkRussound (_cmd_queue r) s (_callbacks r) (_connection_callbacks r)
    (_connection_started r) (_watched_devices r) (_controllers r) (sources r)
    (rio_version r) (connected r) (next_future r) (trace r).

Definition with_callbacks (c : list (string * list callback)) (r : Russound) : Russound :=
  mkRussound (_cmd_queue r) (_state r) c (_connection_callbacks r)
    (_connection_started r) (_watched_devices r) (_controllers r) (sources r)
    (rio_version r) (connected r) (next_future r) (trace r).

Definition with_connection_started (b : bool) (r : Russound) : Russound :=
  mkRussound (_cmd_queue r) (_state r) (_callbacks r) (_connection_callbacks r)
    b (_watched_devices r) (_controllers r) (sources r)
    (rio_version r) (connected r) (next_future r) (trace r).

Definition with_watched_devices (w : list (string * bool)) (r : Russound) : Russound :=
  mkRussound (_cmd_queue r) (_state r) (_callbacks r) (_connection_callbacks r)
    (_connection_started r) w (_controllers r) (sources r)
    (rio_version r) (connected r) (next_future r) (trace r).

Definition with_rio_version (v : option string) (r : Russound) : Russound :=
  mkRussound (_cmd_queue r) (_state r) (_callbacks r) (_connection_callbacks r)
    (_connection_started r) (_watched_devices r) (_controllers r) (sources r)
    v (connected r) (next_future r) (trace r).

Definition with_connected (b : bool) (r : Russound) : Russound :=
  mkRussound (_cmd_queue r) (_state r) (_callbacks r) (_connection_callbacks r)
    (_connection_started r) (_watched_devices r) (_controllers r) (sources r)
    (rio_version r) b (next_future r) (trace r).

Definition with_next_future (n : future) (r : Russound) : Russound :=
  mkRussound (_cmd_queue r) (_state r) (_callbacks r) (_connection_callbacks r)
    (_connection_started r) (_watched_devices r) (_controllers r) (sources r)
    (rio_version r) (connected r) n (trace r).

Definition with_trace (t : list effect) (r : Russound) : Russound :=
  mkRussound (_cmd_queue r) (_state r) (_callbacks r) (_connection_callbacks r)
    (_connection_started r) (_watched_devices r) (_controllers r) (sources r)
    (rio_version r) (connected r) (next_future r) t.

(** Append actions to the trace. *)
Definition emit (es : list effect) (r : Russound) : Russound :=
  with_trace (trace r ++ es) r.

(** [Russound.__init__] *)
Definition init : Russound :=
  mkRussound [] ∅ [] [] false [] [] ∅ None false 0%nat [].

(** ** State-and-exception monad of the synchronous methods *)

Definition M (A : Type) : Type := Russound -> outcome A * Russound.

Definition ret {A} (a : A) : M A := fun st => (Ret a, st).
Definition raise {A} (e : exn) : M A := fun st => (Raise e, st).
Definition bind {A B} (m : M A) (k : A -> M B) : M B := fun st =>
  match m st with
  | (Ret a, st') => k a st'
  | (Raise e, st') => (Raise e, st')
  end.
Definition modify (f : Russound -> Russound) : M unit := fun st => (Ret tt, f st).

Notation "x <- m ;; k" := (bind m (fun x => k))
  (at level 100, m at next level, right associativity).
Notation "m ;;; k" := (bind m (fun _ => k))
  (at level 100, right associativity).

(** Modelled from the spec: the named groups of a match of [RESPONSE_REGEX]
    ([aiorussound/const.py] is not among the sources). The spec's wire
    protocol gives the payload three shapes: a source-addressed variable
    (source id, variable name, value), a controller/zone-addressed variable
    (controller id, zone id, variable name, value), and a value that carries
    no source or zone address. [GSource] is a match whose [source] group took
    part, [GZone] one whose [controller] and [zone] groups did, [GPlain] a
    match with neither, where only [value] and [value_only] are read. *)
Inductive groups :=
| GSource (source variable value : string)
| GZone (controller zone variable value : string)
| GPlain (value value_only : option string).

(** ** Coroutines that await a command's result *)

(** A coroutine is finished, with its result and the object as it leaves
    it, or suspended in [await future]; it is resumed with what the slot was
    resolved with and with the object as it is at that moment. *)
Inductive task (A : Type) :=
| Finished (r : outcome A) (st : Russound)
| Awaiting (fut : future) (st : Russound) (k : reply -> Russound -> task A).
Arguments Finished {A} r st.
Arguments Awaiting {A} fut st k.

Definition Async (A : Type) : Type := Russound -> task A.

Fixpoint task_bind {A B} (t : task A) (k : A -> Async B) : task B :=
  match t with
  | Finished (Ret a) st => k a st
  | Finished (Raise e) st => Finished (Raise e) st
  | Awaiting fut st c => Awaiting fut st (fun r st' => task_bind (c r st') k)
  end.

(** Runs a task against the results its awaits receive, in order, and
    gives the results left over; the object is not touched while the task is
    suspended. *)
Fixpoint drive {A} (t : task A) (rs : list reply) : task A * list reply :=
  match t, rs with
  | Awaiting _ st k, r :: rs' => drive (k r st) rs'
  | _, _ => (t, rs)
  end.

(** What the engine imports from [aiorussound/const.py] and
    [aiorussound/util.py], whose sources are absent: the match of
    [RESPONSE_REGEX] on a payload, the identifier builders, the version test
    and the minimum version. The development is parametric in them. *)
Class Imports := {
  RESPONSE_REGEX_match : string -> option groups;
  source_device_str : Z -> string;
  zone_device_str : Z -> Z -> string;
  is_fw_version_higher : option string -> string -> outcome bool;
  MINIMUM_API_SUPPORT : string
}.

Section Rio.

Context `{Imports}.

(** *** Variable cache *)

(** [Russound._retrieve_cached_variable] *)
Definition _retrieve_cached_variable (device_str key : string) (st : Russound)
  : outcome string :=
  match _state st !! device_str with
  | Some zone_state =>
      match zone_state !! Py.lower key with
      | Some s => Ret s
      | None => Raise UncachedVariableError
      end
  | None => Raise UncachedVariableError
  end.

(** [Russound.get_cached_variable] *)
Definition get_cached_variable (device_str key : string)
    (default : option string) (st : Russound) : option string :=
  match _retrieve_cached_variable device_str key st with
  | Ret s => Some s
  | Raise _ => default
  end.

(** [Zone.device_str], [Source.device_str] *)
Definition Zone_device_str (z : Zone) : string :=
  zone_device_str (zone_controller z) (zone_id z).
Definition Source_device_str (s : Source) : string :=
  source_device_str (source_id s).

(** [Zone.current_source]: the cached value, ["1"] when there is none. *)
Definition Zone_current_source (z : Zone) (st : Russound) : string :=
  default "1"
    (get_cached_variable (Zone_device_str z) "currentSource" (Some "1") st).

(** [Zone.fetch_current_source] *)
Definition Zone_fetch_current_source (z : Zone) (st : Russound) : outcome Source :=
  match Py.int (Zone_current_source z st) with
  | None => Raise ValueError
  | Some current_source =>
      match sources st !! current_source with
      | Some s => Ret s
      | None => Raise KeyError
      end
  end.

(** [self._callbacks.get(device_str, [])] *)
Definition callbacks_of (device_str : string) (st : Russound) : list callback :=
  default [] (ODict.get device_str (_callbacks st)).

(** [for callback in cbs: callback(device_str, key, value)] *)
Definition fire (device_str key value : string) (cbs : list callback) : M unit :=
  modify (emit ((fun cb => ECallback cb device_str key value) <$> cbs)).

(** The zones in the order of
    [for controller in ...values(): for zone in controller.zones.values()]. *)
Definition known_zones (st : Russound) : list Zone :=
  c ← ODict.values (_controllers st); ODict.values (zones c).

(** The "source callback" loop of [_store_cached_variable]. *)
Fixpoint fan_out (device_str key value : string) (zs : list Zone) : M unit :=
  match zs with
  | [] => ret tt
  | zone :: zs' => fun st =>
      match Zone_fetch_current_source zone st with
      | Raise e => (Raise e, st)
      | Ret source =>
          ((if decide (Source_device_str source = device_str)
            then fire device_str key value (callbacks_of (Zone_device_str zone) st)
            else ret tt) ;;;
           fan_out device_str key value zs') st
      end
  end.

(** [Russound._store_cached_variable] *)
Definition _store_cached_variable (device_str key value : string) : M unit :=
  fun st =>
    let zone_state := default ∅ (_state st !! device_str) in
    let key := Py.lower key in
    (modify (with_state (<[device_str := <[key := value]> zone_state]> (_state st))) ;;;
     modify (emit [EStore device_str key value]) ;;;
     fire device_str key value (callbacks_of device_str st) ;;;
     match device_str with
     | EmptyString => raise IndexError
     | String c _ =>
         if Ascii.eqb c "S"
         then fan_out device_str key value (known_zones st)
         else ret tt
     end) st.

(** A sequence of stores, whatever each of them ends with. *)
Definition store_each (l : list (string * string * string)) (st : Russound)
  : Russound :=
  foldl (fun st '(device_str, key, value) =>
           (_store_cached_variable device_str key value st).2) st l.

(** *** Response parser *)

(** [Russound._process_response], on the decoded line. *)
Definition _process_response (res : string) : M (option ascii * option string) :=
  match Py.strip res with
  | EmptyString => ret (None, None)
  | String ty _ as s =>
      let payload := Py.drop 2 s in
      if Ascii.eqb ty "E" then raise (CommandError payload)
      else
        match RESPONSE_REGEX_match payload with
        | None => ret (Some ty, None)
        | Some (GSource source variable value) =>
            (if Py.truthy source then
               match Py.int source with
               | None => raise ValueError
               | Some source_id =>
                   _store_cached_variable (source_device_str source_id) variable value
               end
             else ret tt) ;;;
            ret (Some ty, Py.or_ (Some value) None)
        | Some (GZone controller zone variable value) =>
            (if Py.truthy zone then
               match Py.int controller with
               | None => raise ValueError
               | Some controller_id =>
                   match Py.int zone with
                   | None => raise ValueError
                   | Some zone_id =>
                       _store_cached_variable
                         (zone_device_str controller_id zone_id) variable value
                   end
               end
             else ret tt) ;;;
            ret (Some ty, Py.or_ (Some value) None)
        | Some (GPlain value value_only) =>
            ret (Some ty, Py.or_ value value_only)
        end
  end.

(** *** Connection flag and callback registry *)

(** [Russound._set_connected] *)
Definition _set_connected (b : bool) (st : Russound) : Russound :=
  emit ((fun cb => EConnection cb b) <$> _connection_callbacks st)
       (with_connected b st).

(** [Russound.add_callback] *)
Definition add_callback (device_str : string) (cb : callback) (st : Russound)
  : Russound :=
  with_callbacks
    (ODict.set device_str (callbacks_of device_str st ++ [cb]) (_callbacks st)) st.

(** [list.remove(x)]: drops the first occurrence; [None] stands for
    [ValueError]. *)
Fixpoint list_remove (x : callback) (l : list callback) : option (list callback) :=
  match l with
  | [] => None
  | y :: l' => if decide (y = x) then Some l' else cons y <$> list_remove x l'
  end.

Definition remove_first (x : callback) (l : list callback) : list callback :=
  default l (list_remove x l).

(** [for callbacks in d.values(): callbacks.remove(callback)] with the
    dictionary as it is left when the loop ends or raises. *)
Fixpoint remove_from_each (cb : callback) (d : list (string * list callback))
  : outcome unit * list (string * list callback) :=
  match d with
  | [] => (Ret tt, [])
  | (k, callbacks) :: d' =>
      match list_remove cb callbacks with
      | None => (Raise ValueError, (k, callbacks) :: d')
      | Some callbacks' =>
          let '(o, d'') := remove_from_each cb d' in (o, (k, callbacks') :: d'')
      end
  end.

(** [Russound.remove_callback] *)
Definition remove_callback (cb : callback) : M unit := fun st =>
  let '(o, d) := remove_from_each cb (_callbacks st) in (o, with_callbacks d st).

(** *** Session loop *)

(** The first half of [send_cmd]: a fresh future is created and queued
    with the command. *)
Definition cmd_put (cmd : string) (st : Russound) : future * Russound :=
  let fut := next_future st in
  (fut, emit [EPut cmd fut]
          (with_next_future (S fut)
             (with_cmd_queue (_cmd_queue st ++ [(cmd, fut)]) st))).

(** Result of one [reader.readline()]. End of stream is [RLine ""]. *)
Inductive read_result :=
| RLine (response : string)
| RFail (e : exn).

(** Where the [_ioloop] coroutine is suspended. [queue_future] is [Some]
    of the item it holds once [self._cmd_queue.get()] has completed.
    [Exited] says that the loop proper is over: the [except] clauses and the
    [finally] block have run up to the test of the reconnect. When that test
    succeeds the coroutine itself is not over, it goes on with the delay
    and [connect]; [session_step] below follows the object through it. *)
Inductive loop_status :=
| AtWait (queue_future : option (string * future))
| AtDrain (fut : future)
| AtRead (queue_future : option (string * future)) (fut : future)
| Exited (raised : option exn).

(** What makes the loop, or a caller of [send_cmd], move. *)
Inductive event :=
| Put (cmd : string)         (* a caller, or the keep-alive task, runs
                                [send_cmd] up to its await *)
| Get                        (* the pending [_cmd_queue.get()] takes the head *)
| Net (r : read_result)      (* the loop resumes with [net_future] done *)
| Queue                      (* [asyncio.wait] returns [queue_future] alone *)
| Drained (r : option exn)   (* [writer.drain()] completes or raises *)
| Cancel.                    (* [_ioloop_future.cancel()] *)

(** The [except] clauses and the [finally] block of [_ioloop], up to the
    test [if reconnect and self._connection_started]; the result is the
    exception that is then on its way out of the coroutine, if any.
    [EReconnect] records that the test succeeded: the block goes on with
    [await asyncio.sleep(RECONNECT_DELAY)] and [await self.connect(reconnect)],
    which [session_step] below performs on the [Reconnect] event. *)
Definition ioloop_exit (reconnect : bool) (e : exn) (st : Russound)
  : option exn * Russound :=
  let st1 :=
    match e with
    | TimeoutError | ConnectionResetError => st
    | _ => _set_connected false st
    end in
  let st2 := _set_connected false (emit [EClose] st1) in
  let st3 :=
    if reconnect && _connection_started st2
    then emit [EReconnect reconnect] st2 else st2 in
  (match e with
   | TimeoutError | ConnectionResetError => None
   | _ => Some e
   end, st3).

Definition fail (reconnect : bool) (e : exn) (st : Russound)
  : loop_status * Russound :=
  let '(r, st') := ioloop_exit reconnect e st in (Exited r, st').

(** The [if net_future in done] block. *)
Definition on_push (r : read_result) (st : Russound) : outcome unit * Russound :=
  match r with
  | RFail e => (Raise e, st)
  | RLine response =>
      match _process_response response st with
      | (Ret _, st') => (Ret tt, st')
      | (Raise (CommandError _), st') => (Ret tt, st')
      | (Raise e, st') => (Raise e, st')
      end
  end.

(** The carriage return appended to a command. *)
Definition CR : string := String "013"%char EmptyString.

(** The [if queue_future in done] block up to [writer.drain()]. *)
Definition on_command (item : string * future) (st : Russound)
  : loop_status * Russound :=
  let '(cmd, fut) := item in
  (AtDrain fut, emit [EWrite (cmd +:+ CR) fut] st).

(** One pass of the inner [while True] with the awaited response. *)
Definition on_reply (reconnect : bool)
    (queue_future : option (string * future)) (fut : future)
    (r : read_result) (st : Russound) : loop_status * Russound :=
  match r with
  | RFail e => fail reconnect e st
  | RLine response =>
      match _process_response response st with
      | (Ret (ty, value), st') =>
          if decide (ty = Some "S"%char)
          then (AtWait queue_future, emit [EResolve fut (ROk value)] st')
          else (AtRead queue_future fut, st')
      | (Raise (CommandError msg), st') =>
          (AtWait queue_future, emit [EResolve fut (RErr msg)] st')
      | (Raise e, st') => fail reconnect e st'
      end
  end.

Definition take_head (st : Russound) : option ((string * future) * Russound) :=
  match _cmd_queue st with
  | [] => None
  | item :: q => Some (item, with_cmd_queue q st)
  end.

(** One transition of one loop and of the callers of [send_cmd]; [None]
    when the event cannot occur in that configuration. A loop that has ended
    stays ended here: the loop that a reconnect spawns on the same object is
    another run, which [session_step] below starts. *)
Definition step (reconnect : bool) (ev : event) (c : loop_status * Russound)
  : option (loop_status * Russound) :=
  let '(status, st) := c in
  match ev, status with
  | Put cmd, _ => Some (status, (cmd_put cmd st).2)
  | Get, AtWait None =>
      '(item, st') ← take_head st; Some (AtWait (Some item), st')
  | Get, AtRead None fut =>
      '(item, st') ← take_head st; Some (AtRead (Some item) fut, st')
  | Net r, AtWait None =>
      match on_push r st with
      | (Ret _, st') => Some (AtWait None, st')
      | (Raise e, st') => Some (fail reconnect e st')
      end
  | Net r, AtWait (Some item) =>
      match on_push r st with
      | (Ret _, st') => Some (on_command item st')
      | (Raise e, st') => Some (fail reconnect e st')
      end
  | Net r, AtRead queue_future fut => Some (on_reply reconnect queue_future fut r st)
  | Queue, AtWait (Some item) => Some (on_command item st)
  | Drained None, AtDrain fut => Some (AtRead None fut, st)
  | Drained (Some e), AtDrain fut => Some (fail reconnect e st)
  | Cancel, Exited _ => Some c
  | Cancel, _ => Some (fail reconnect CancelledError st)
  | _, _ => None
  end.

(** A run of one loop over a sequence of events. *)
Fixpoint run (reconnect : bool) (evs : list event) (c : loop_status * Russound)
  : option (loop_status * Russound) :=
  match evs with
  | [] => Some c
  | ev :: evs' => step reconnect ev c ≫= run reconnect evs'
  end.

(** *** Client calls *)

(** What [await future] gives the caller. *)
Definition reply_outcome (r : reply) : outcome (option string) :=
  match r with
  | ROk value => Ret value
  | RErr msg => Raise (CommandError msg)
  end.

(** [Russound.send_cmd] *)
Definition send_cmd (cmd : string) : Async (option string) := fun st =>
  let '(fut, st') := cmd_put cmd st in
  Awaiting fut st' (fun r st'' => Finished (reply_outcome r) st'').

(** [Russound.watch] *)
Definition watch (device_str : string) : Async (option string) := fun st =>
  send_cmd ("WATCH " +:+ device_str +:+ " ON")
    (with_watched_devices (ODict.set device_str true (_watched_devices st)) st).

(** [Russound.unwatch] *)
Definition unwatch (device_str : string) : Async (option string) := fun st =>
  match ODict.del device_str (_watched_devices st) with
  | None => Finished (Raise KeyError) st
  | Some w =>
      send_cmd ("WATCH " +:+ device_str +:+ " OFF") (with_watched_devices w st)
  end.

(** The [for device in self._watched_devices.keys()] loop, by position:
    [used] is the size of the dictionary when the iteration began, a
    change of size raises [RuntimeError]. *)
Fixpoint watch_from (todo : nat) (used : nat) (i : nat) : Async unit := fun st =>
  match todo with
  | O => Finished (Ret tt) st
  | S todo' =>
      if decide (length (_watched_devices st) = used) then
        match ODict.keys (_watched_devices st) !! i with
        | None => Finished (Ret tt) st
        | Some device =>
            task_bind (watch device st) (fun _ => watch_from todo' used (S i))
        end
      else Finished (Raise RuntimeError) st
  end.

(** [Russound._watch_cached_devices] *)
Definition _watch_cached_devices : Async unit := fun st =>
  let used := length (_watched_devices st) in
  watch_from (S used) used 0 st.

(** [Russound.connect]; [transport] is what [asyncio.open_connection]
    gives. *)
Definition connect (reconnect : bool) (transport : outcome unit) : Async unit :=
  fun st =>
    let st := with_connection_started true st in
    match transport with
    | Raise e => Finished (Raise e) st
    | Ret _ =>
        task_bind (send_cmd "VERSION" (emit [EOpen; ESpawn reconnect] st))
          (fun version st =>
             let st := with_rio_version version st in
             match is_fw_version_higher version MINIMUM_API_SUPPORT with
             | Raise e => Finished (Raise e) st
             | Ret false => Finished (Raise UnsupportedFeatureError) st
             | Ret true =>
                 task_bind (_watch_cached_devices st)
                   (fun _ st => Finished (Ret tt) (_set_connected true st))
             end)
    end.

(** [Russound.close], given where the loop stands. *)
Definition close (reconnect : bool) (c : loop_status * Russound)
  : outcome unit * (loop_status * Russound) :=
  let '(status, st) := c in
  let st := with_connection_started false st in
  match status with
  | Exited None => (Ret tt, (status, _set_connected false st))
  | Exited (Some CancelledError) => (Ret tt, (status, _set_connected false st))
  | Exited (Some e) => (Raise e, (status, st))
  | _ =>
      let '(status', st') := fail reconnect CancelledError st in
      (Ret tt, (status', _set_connected false st'))
  end.

(** *** Reconnection

    The last statement of the [finally] block of [_ioloop]:
    [if reconnect and self._connection_started:
       await asyncio.sleep(RECONNECT_DELAY); await self.connect(reconnect)].
    The coroutine of the ended loop runs [connect] on the same object, which
    spawns the next loop; that loop starts in [asyncio.wait] when [connect]
    suspends on its version query, with the queue and the futures as the
    ended loop and the callers left them. *)

(** The loop has ended and its [finally] block has a reconnect to do.
    The block tests the flag when the loop ends; no event of a session
    changes the flag between that moment and the reconnect. *)
Definition reconnect_due (reconnect : bool) (c : loop_status * Russound) : bool :=
  match c.1 with
  | Exited _ => reconnect && _connection_started c.2
  | _ => false
  end.

(** The object as a task has it at its end or at its suspension. *)
Definition task_state {A} (t : task A) : Russound :=
  match t with
  | Finished _ st => st
  | Awaiting _ st _ => st
  end.

(** What the loop has resolved the future with, if it has. *)
Fixpoint resolution (fut : future) (tr : list effect) : option reply :=
  match tr with
  | [] => None
  | EResolve f r :: tr' => if decide (f = fut) then Some r else resolution fut tr'
  | _ :: tr' => resolution fut tr'
  end.

(** A session: the loop that runs now with the object, and the coroutines
    of the ended loops that are suspended inside the [connect] of their
    [finally] block. *)
Definition session_state : Type := (loop_status * Russound) * list (task unit).

Inductive session_event :=
| Loop (ev : event)                  (* the loop that runs now, or a caller of
                                        [send_cmd], moves *)
| Reconnect (transport : outcome unit)
                                     (* the delay is over: [connect] opens the
                                        transport, spawns the next loop and
                                        queues the version query *)
| Resume (i : nat).                  (* the pending [connect] number [i] is
                                        resumed with the result of the future
                                        it awaits *)

(** One transition of the session. [None] when the event cannot occur,
    and in two cases that are not followed further: a cancellation that
    arrives during the delay of a reconnect, and a reconnect whose
    transport does not open, after which [connect] raises inside the
    [finally] block and no loop reads the queue any more. *)
Definition session_step (reconnect : bool) (sev : session_event)
    (s : session_state) : option session_state :=
  let '(c, pending) := s in
  match sev with
  | Loop ev =>
      match ev with
      | Cancel =>
          if reconnect_due reconnect c then None
          else c' ← step reconnect ev c; Some (c', pending)
      | _ => c' ← step reconnect ev c; Some (c', pending)
      end
  | Reconnect transport =>
      if reconnect_due reconnect c then
        match connect reconnect transport c.2 with
        | Awaiting fut st k => Some ((AtWait None, st), pending ++ [Awaiting fut st k])
        | Finished _ _ => None
        end
      else None
  | Resume i =>
      match pending !! i with
      | Some (Awaiting fut _ k) =>
          r ← resolution fut (trace c.2);
          let t := k r c.2 in
          Some ((c.1, task_state t),
                match t with
                | Finished _ _ => delete i pending
                | Awaiting _ _ _ => <[i := t]> pending
                end)
      | _ => None
      end
  end.

(** A session over a sequence of events. *)
Fixpoint session (reconnect : bool) (sevs : list session_event)
    (s : session_state) : option session_state :=
  match sevs with
  | [] => Some s
  | sev :: sevs' => session_step reconnect sev s ≫= session reconnect sevs'
  end.

End Rio.

(** ** One device

    Modelled from the spec: [aiorussound/const.py] and [aiorussound/util.py]
    are not among the sources. This module gives one instance of what the
    engine takes from them, after the wire protocol of the spec: a source is
    addressed as [S[n]], a zone as [C[c].Z[z]], a payload is
    [<address>.<variable>="<value>"] or a quoted value on its own, and a
    version is a dotted sequence of numbers compared part by part. The
    instance is used to run the engine on concrete lines. *)

Module RIO.

Definition quote : string := String "034"%char EmptyString.

Definition dec (n : Z) : string :=
  match n with
  | Z0 => "0"
  | Zpos p => pretty (Npos p)
  | Zneg p => "-" +:+ pretty (Npos p)
  end.

Definition source_str (source_id : Z) : string :=
  "S[" +:+ dec source_id +:+ "]".
Definition zone_str (controller_id zone_id : Z) : string :=
  "C[" +:+ dec controller_id +:+ "].Z[" +:+ dec zone_id +:+ "]".

(** [expect p s]: [s] without its prefix [p]. *)
Fixpoint expect (p s : string) : option string :=
  match p, s with
  | EmptyString, _ => Some s
  | String a p', String b s' => if Ascii.eqb a b then expect p' s' else None
  | String _ _, EmptyString => None
  end.

(** The longest prefix whose characters satisfy [f], and the rest. *)
Fixpoint span (f : ascii -> bool) (s : string) : string * string :=
  match s with
  | EmptyString => (EmptyString, EmptyString)
  | String c s' =>
      if f c then let '(a, b) := span f s' in (String c a, b)
      else (EmptyString, s)
  end.

Definition digits (s : string) : option (string * string) :=
  let '(d, rest) := span Py.is_digit s in
  if Py.truthy d then Some (d, rest) else None.

(** [s] up to its last double quote. *)
Fixpoint until_last_quote (s : string) : option string :=
  match s with
  | EmptyString => None
  | String c s' =>
      match until_last_quote s' with
      | Some v => Some (String c v)
      | None => if Ascii.eqb c "034" then Some EmptyString else None
      end
  end.

(** [.<variable>="<value>"] *)
Definition assignment (s : string) : option (string * string) :=
  s ← expect "." s;
  let '(variable, rest) :=
    span (fun c => negb (Py.isspace c) && negb (Ascii.eqb c "=")) s in
  if Py.truthy variable then
    rest ← expect ("=" +:+ quote) rest;
    value ← until_last_quote rest;
    Some (variable, value)
  else None.

Definition source_address (s : string) : option groups :=
  s ← expect "S[" s;
  '(source, s) ← digits s;
  s ← expect "]" s;
  '(variable, value) ← assignment s;
  Some (GSource source variable value).

Definition zone_address (s : string) : option groups :=
  s ← expect "C[" s;
  '(controller, s) ← digits s;
  s ← expect "].Z[" s;
  '(zone, s) ← digits s;
  s ← expect "]" s;
  '(variable, value) ← assignment s;
  Some (GZone controller zone variable value).

Definition bare_value (s : string) : option groups :=
  s ← expect quote s;
  value ← until_last_quote s;
  Some (GPlain None (Some value)).

Definition response_match (payload : string) : option groups :=
  match source_address payload with
  | Some g => Some g
  | None =>
      match zone_address payload with
      | Some g => Some g
      | None => bare_value payload
      end
  end.

(** The parts of a dotted version. *)
Fixpoint parts (fuel : nat) (s : string) : option (list Z) :=
  match fuel with
  | O => None
  | S fuel' =>
      let '(d, rest) := span (fun c => negb (Ascii.eqb c ".")) s in
      n ← Py.int d;
      match rest with
      | EmptyString => Some [n]
      | String _ rest' => cons n <$> parts fuel' rest'
      end
  end.

Fixpoint at_least (a b : list Z) : bool :=
  match a, b with
  | _, [] => true
  | [], _ :: _ => false
  | x :: a', y :: b' => (y <? x) || ((x =? y) && at_least a' b')
  end.

Definition fw_at_least (fw_a : option string) (fw_b : string)
  : outcome bool :=
  match fw_a with
  | None => Raise ValueError
  | Some fw_a =>
      match parts (S (String.length fw_a)) fw_a,
            parts (S (String.length fw_b)) fw_b with
      | Some a, Some b => Ret (at_least a b)
      | _, _ => Raise ValueError
      end
  end.

Definition minimum : string := "1.03.00".

(** A line: a tag, a separator and a payload. *)
Definition line (tag : string) (payload : string) : string :=
  tag +:+ " " +:+ payload.
Definition assign (address variable value : string) : string :=
  address +:+ "." +:+ variable +:+ "=" +:+ quote +:+ value +:+ quote.

#[global] Instance device : Imports := {|
  RESPONSE_REGEX_match := response_match;
  source_device_str := source_str;
  zone_device_str := zone_str;
  is_fw_version_higher := fw_at_least;
  MINIMUM_API_SUPPORT := minimum
|}.

End RIO.

(** * More of the client

    The calls of [rio.py] around the session engine: the connection
    callback registry, [get_variable] and [set_variable], and the discovery
    loops of [init_sources], [Controller._init_zones] and the two
    [fetch_configuration] methods, with the cached getters of [Zone]. *)

Definition with_connection_callbacks (c : list conn_callback) (r : Russound)
  : Russound :=
  mkRussound (_cmd_queue r) (_state r) (_callbacks r) c
    (_connection_started r) (_watched_devices r) (_controllers r) (sources r)
    (rio_version r) (connected r) (next_future r) (trace r).

Definition with_sources (s : gmap Z Source) (r : Russound) : Russound :=
  mkRussound (_cmd_queue r) (_state r) (_callbacks r) (_connection_callbacks r)
    (_connection_started r) (_watched_devices r) (_controllers r) s
    (rio_version r) (connected r) (next_future r) (trace r).

(** [try: t; ok ... except e: handler]: the handler sees what [t] raises, not
    what the continuation [ok] raises. *)
Fixpoint task_try {A B} (t : task A) (ok : A -> Async B) (handler : exn -> Async B)
  : task B :=
  match t with
  | Finished (Ret a) st => ok a st
  | Finished (Raise e) st => handler e st
  | Awaiting fut st c => Awaiting fut st (fun r st' => task_try (c r st') ok handler)
  end.

(** Truth value of an optional string ([None] is false). *)
Definition truthy_opt (s : option string) : bool :=
  match s with Some s => Py.truthy s | None => false end.

(** What the discovery loops import from [aiorussound/const.py], whose
    source is absent: the bound of the source indices and the property
    names fetched for a source and for a zone. *)
Class Tables := {
  MAX_SOURCE : Z;
  SOURCE_PROPERTIES : list string;
  ZONE_PROPERTIES : list string
}.

Section Client.

Context `{Imports} `{Tables}.

(** [Russound.add_connection_callback] *)
Definition add_connection_callback (cb : conn_callback) (st : Russound) : Russound :=
  with_connection_callbacks (_connection_callbacks st ++ [cb]) st.

(** [Russound.remove_connection_callback] *)
Definition remove_connection_callback (cb : conn_callback) : M unit := fun st =>
  match list_remove cb (_connection_callbacks st) with
  | None => (Raise ValueError, st)
  | Some l => (Ret tt, with_connection_callbacks l st)
  end.

(** [Russound.get_variable] *)
Definition get_variable (device_str key : string) : Async (option string) := fun st =>
  match _retrieve_cached_variable device_str key st with
  | Ret s => Finished (Ret (Some s)) st
  | Raise _ => send_cmd ("GET " +:+ device_str +:+ "." +:+ key) st
  end.

Definition dquote : string := String "034"%char EmptyString.

(** The text of [SET device.key="value"]. *)
Definition set_cmd (device_str key value : string) : string :=
  "SET " +:+ device_str +:+ "." +:+ key +:+ "=" +:+ dquote +:+ value +:+ dquote.

(** [Russound.set_variable]: the coroutine returns the [send_cmd]
    coroutine without awaiting it. *)
Definition set_variable (device_str key value : string)
  : Russound -> task (Async (option string)) := fun st =>
  Finished (Ret (send_cmd (set_cmd device_str key value))) st.

(** [Russound.get_cached_variable] through [Zone._get], and the getters of
    [Zone] that have a default. *)
Definition Zone__get (z : Zone) (variable : string) (default : option string)
    (st : Russound) : option string :=
  get_cached_variable (Zone_device_str z) variable default st.
Definition Zone_volume (z : Zone) (st : Russound) : option string :=
  Zone__get z "volume" (Some "0") st.
Definition Zone_status (z : Zone) (st : Russound) : option string :=
  Zone__get z "status" (Some "OFF") st.
Definition Zone_turn_on_volume (z : Zone) (st : Russound) : option string :=
  Zone__get z "turnOnVolume" None st.

(** The loop of [Zone.fetch_configuration] and [Source.fetch_configuration]:
    [for prop in props: try: await get_variable(device_str, prop)
     except CommandError: continue]. *)
Fixpoint fetch_each (device_str : string) (props : list string) : Async unit :=
  fun st =>
    match props with
    | [] => Finished (Ret tt) st
    | prop :: props' =>
        task_try (get_variable device_str prop st)
          (fun _ => fetch_each device_str props')
          (fun e st =>
             match e with
             | CommandError _ => fetch_each device_str props' st
             | _ => Finished (Raise e) st
             end)
    end.

(** [Source.fetch_configuration], [Zone.fetch_configuration] *)
Definition Source_fetch_configuration (s : Source) : Async unit :=
  fetch_each (Source_device_str s) SOURCE_PROPERTIES.
Definition Zone_fetch_configuration (z : Zone) : Async unit :=
  fetch_each (Zone_device_str z) ZONE_PROPERTIES.

(** The [for source_id in range(1, MAX_SOURCE)] loop of [init_sources]. *)
Fixpoint init_sources_from (ids : list Z) : Async unit := fun st =>
  match ids with
  | [] => Finished (Ret tt) st
  | source_id :: ids' =>
      task_try
        (task_bind (get_variable (source_device_str source_id) "name" st)
           (fun name st =>
              if truthy_opt name then
                task_bind (Source_fetch_configuration (mkSource source_id) st)
                  (fun _ st =>
                     Finished (Ret tt)
                       (with_sources (<[source_id := mkSource source_id]> (sources st)) st))
              else Finished (Ret tt) st))
        (fun _ => init_sources_from ids')
        (fun e st =>
           match e with
           | CommandError _ => Finished (Ret tt) st
           | _ => Finished (Raise e) st
           end)
  end.

(** [Russound.init_sources] *)
Definition init_sources : Async unit := fun st =>
  init_sources_from (seqZ 1 (MAX_SOURCE - 1)) (with_sources ∅ st).

(** The [for zone_id in range(1, self.max_zones + 1)] loop of
    [Controller._init_zones]; [zones] is [self.zones] so far. *)
Fixpoint init_zones_from (controller_id : Z) (ids : list Z)
    (zones : list (Z * Zone)) : Async (list (Z * Zone)) := fun st =>
  match ids with
  | [] => Finished (Ret zones) st
  | zone_id :: ids' =>
      task_try
        (task_bind (get_variable (zone_device_str controller_id zone_id) "name" st)
           (fun name st =>
              if truthy_opt name then
                task_bind
                  (Zone_fetch_configuration (mkZone controller_id zone_id) st)
                  (fun _ st =>
                     Finished
                       (Ret (ODict.set zone_id (mkZone controller_id zone_id) zones))
                       st)
              else Finished (Ret zones) st))
        (fun zones' => init_zones_from controller_id ids' zones')
        (fun e st =>
           match e with
           | CommandError _ => Finished (Ret zones) st
           | _ => Finished (Raise e) st
           end)
  end.

(** [Controller._init_zones], giving [self.zones]. *)
Definition Controller__init_zones (controller_id max_zones : Z)
  : Async (list (Z * Zone)) :=
  init_zones_from controller_id (seqZ 1 max_zones) [].

End Client.

(** * Vocabulary of the statements *)

Section Vocabulary.

Context `{Imports}.

Definition cache_effect (e : effect) : Prop :=
  match e with
  | EStore _ _ _ | ECallback _ _ _ _ => True
  | _ => False
  end.

Definition callback_effect (e : effect) : Prop :=
  match e with
  | ECallback _ _ _ _ => True
  | _ => False
  end.

Definition watch_cmd (device_str : string) : string :=
  "WATCH " +:+ device_str +:+ " ON".

(** The object when [watch] suspends. *)
Definition watching (device_str : string) (st : Russound) : Russound :=
  (cmd_put (watch_cmd device_str)
     (with_watched_devices (ODict.set device_str true (_watched_devices st)) st)).2.

Definition replayed (ds : list string) (st : Russound) : Russound :=
  foldl (fun st d => watching d st) st ds.

(** The object when [connect] has received the version. *)
Definition versioned (reconnect : bool) (version : option string) (st : Russound)
  : Russound :=
  with_rio_version version
    (cmd_put "VERSION"
       (emit [EOpen; ESpawn reconnect] (with_connection_started true st))).2.

(** The object when [connect] suspends on the version query. *)
Definition connecting (reconnect : bool) (st : Russound) : Russound :=
  (cmd_put "VERSION"
     (emit [EOpen; ESpawn reconnect] (with_connection_started true st))).2.

(** The payload carries a source or zone address that names [dev]. *)
Definition addressed (payload dev var val : string) : Prop :=
  (∃ src id, RESPONSE_REGEX_match payload = Some (GSource src var val)
             ∧ Py.int src = Some id ∧ dev = source_device_str id)
  ∨ (∃ c z cid zid, RESPONSE_REGEX_match payload = Some (GZone c z var val)
                    ∧ Py.int c = Some cid ∧ Py.int z = Some zid
                    ∧ dev = zone_device_str cid zid).

(** What the parser returns once the store of an addressed line is done. *)
Definition after_store (ty : ascii) (val : string)
    (r : outcome unit * Russound) : outcome (option ascii * option string) * Russound :=
  (match r.1 with
   | Ret _ => Ret (Some ty, Py.or_ (Some val) None)
   | Raise e => Raise e
   end, r.2).

Definition running (s : loop_status) : Prop :=
  match s with Exited _ => False | _ => True end.

(** The futures that the trace resolves, in order. *)
Definition resolved (tr : list effect) : list future :=
  omap (fun e => match e with EResolve f _ => Some f | _ => None end) tr.

Definition exit_effect (e : effect) : Prop :=
  match e with
  | EConnection _ false | EClose | EReconnect _ => True
  | _ => False
  end.

Definition swallowed (e : exn) : bool :=
  match e with TimeoutError | ConnectionResetError => true | _ => false end.

(** The loop is suspended on the transport: in [asyncio.wait] or in the
    inner [await net_future]. *)
Definition reading (s : loop_status) : Prop :=
  match s with AtWait _ | AtRead _ _ => True | _ => False end.

(** The futures queued, and the futures written, in order. *)
Definition puts (tr : list effect) : list future :=
  omap (fun e => match e with EPut _ f => Some f | _ => None end) tr.
Definition writes (tr : list effect) : list future :=
  omap (fun e => match e with EWrite _ f => Some f | _ => None end) tr.

(** The commands in flight after a trace: written and not yet resolved. *)
Fixpoint in_flight (cur : list future) (tr : list effect) : list future :=
  match tr with
  | [] => cur
  | EWrite _ f :: tr' => in_flight (cur ++ [f]) tr'
  | EResolve f _ :: tr' => in_flight (filter (fun g => g ≠ f) cur) tr'
  | _ :: tr' => in_flight cur tr'
  end.

(** The one reply slot of the loop, followed along a trace: a write
    needs the slot free and takes it, a resolution needs the slot taken by
    that very future and frees it; [None] when the trace does otherwise. *)
Fixpoint slot (cur : option future) (tr : list effect) : option (option future) :=
  match tr with
  | [] => Some cur
  | EWrite _ f :: tr' =>
      match cur with
      | None => slot (Some f) tr'
      | Some _ => None
      end
  | EResolve f _ :: tr' =>
      match cur with
      | Some g => if decide (f = g) then slot None tr' else None
      | None => None
      end
  | _ :: tr' => slot cur tr'
  end.

(** Effects that neither queue, write nor resolve. *)
Definition quiet (e : effect) : Prop :=
  match e with
  | EPut _ _ | EWrite _ _ | EResolve _ _ => False
  | _ => True
  end.

(** The item the completed [queue_future] holds. *)
Definition held (s : loop_status) : list (string * future) :=
  match s with
  | AtWait (Some item) | AtRead (Some item) _ => [item]
  | _ => []
  end.

(** The future of the command in flight. *)
Definition flying (s : loop_status) : option future :=
  match s with
  | AtDrain f | AtRead _ f => Some f
  | _ => None
  end.

(** Every waiting item was queued by a [send_cmd]. *)
Definition announced (tr : list effect) (items : list (string * future)) : Prop :=
  Forall (fun item => EPut item.1 item.2 ∈ tr) items.

(** What is written is a queued command followed by a carriage
    return. *)
Definition written_ok (tr : list effect) : Prop :=
  ∀ d f, EWrite d f ∈ tr → ∃ c, d = c +:+ CR ∧ EPut c f ∈ tr.

(** The claim of C2 on the trace of a session: of two commands queued
    one before the other, the later is written only after the earlier was
    written and resolved; and at every point at most one command is in
    flight. *)
Definition fifo_order (tr : list effect) : Prop :=
  ∀ pre c1 f1 mid c2 f2 post before d2 after,
    tr = pre ++ EPut c1 f1 :: mid ++ EPut c2 f2 :: post →
    tr = before ++ EWrite d2 f2 :: after →
    ∃ a b r c, before = a ++ EWrite (c1 +:+ CR) f1 :: b ++ EResolve f1 r :: c.

Definition single_flight (tr : list effect) : Prop :=
  ∀ p, p `prefix_of` tr → (length (in_flight [] p) ≤ 1)%nat.

Definition Inv (s : loop_status) (st : Russound) : Prop :=
  NoDup (puts (trace st))
  ∧ Forall (fun f => (f < next_future st)%nat) (puts (trace st))
  ∧ written_ok (trace st)
  ∧ match s with
    | Exited _ =>
        writes (trace st) `prefix_of` puts (trace st)
        ∧ is_Some (slot None (trace st))
    | _ =>
        puts (trace st) = writes (trace st) ++ (held s ++ _cmd_queue st).*2
        ∧ slot None (trace st) = Some (flying s)
        ∧ announced (trace st) (held s ++ _cmd_queue st)
    end.

(** A step of the object that queues, writes and resolves nothing. *)
Definition quiet_step (st st' : Russound) : Prop :=
  _cmd_queue st' = _cmd_queue st ∧ next_future st' = next_future st
  ∧ ∃ es, trace st' = trace st ++ es ∧ Forall quiet es.

(** What a completed fan-out over the zones [zs] calls, in order. *)
Definition fan_out_effects (device_str key value : string) (zs : list Zone)
    (st : Russound) : list effect :=
  zone ← zs;
  match Zone_fetch_current_source zone st with
  | Ret source =>
      if decide (Source_device_str source = device_str)
      then (fun cb => ECallback cb device_str key value)
             <$> callbacks_of (Zone_device_str zone) st
      else []
  | Raise _ => []
  end.

(** Lines taken while a command is in flight that leave it in flight:
    each is parsed without an exception and has a tag other than [S]; the
    result is the object after them. *)
Fixpoint pass_by (lines : list string) (st : Russound) : option Russound :=
  match lines with
  | [] => Some st
  | l :: lines' =>
      match _process_response l st with
      | (Ret (ty, _), st') =>
          if decide (ty = Some "S"%char) then None else pass_by lines' st'
      | (Raise _, _) => None
      end
  end.

(** The claim of C3 at one configuration: [close] resolves the slot of
    [fut]. *)
Definition close_resolves (reconnect : bool) (c : loop_status * Russound)
    (fut : future) : Prop :=
  ∃ s' st', close reconnect c = (Ret tt, (s', st')) ∧ fut ∈ resolved (trace st').

(** The claim of C4 at one configuration: a read that gives the empty
    line ends the loop and clears the connected flag. *)
Definition end_of_stream_aborts (reconnect : bool) (c : loop_status * Russound)
    : Prop :=
  ∃ r st', step reconnect (Net (RLine "")) c = Some (Exited r, st')
           ∧ connected st' = false.

(** The four results of the parser contract of C8, read off what
    [_process_response] does on a line. *)
Definition is_success (r : outcome (option ascii * option string) * Russound) : Prop :=
  ∃ value, r.1 = Ret (Some "S"%char, value).
Definition is_error (r : outcome (option ascii * option string) * Russound) : Prop :=
  ∃ msg, r.1 = Raise (CommandError msg).
Definition is_event (st : Russound)
    (r : outcome (option ascii * option string) * Russound) : Prop :=
  ∃ d k v, EStore d k v ∈ drop (length (trace st)) (trace r.2).
Definition is_unparsed (st : Russound)
    (r : outcome (option ascii * option string) * Russound) : Prop :=
  ∃ ty, r.1 = Ret (Some ty, None) ∧ trace r.2 = trace st.

Definition exactly_one (P Q R S : Prop) : Prop :=
  (P ∧ ¬ Q ∧ ¬ R ∧ ¬ S) ∨ (¬ P ∧ Q ∧ ¬ R ∧ ¬ S)
  ∨ (¬ P ∧ ¬ Q ∧ R ∧ ¬ S) ∨ (¬ P ∧ ¬ Q ∧ ¬ R ∧ S).

(** The claim of C8 at one line. *)
Definition one_result (res : string) (st : Russound) : Prop :=
  let r := _process_response res st in
  exactly_one (is_success r) (is_error r) (is_event st r) (is_unparsed st r).


End Vocabulary.

(** * Sessions with the device of [RIO] *)

Module Scenario.

Import RIO.

Definition zone1 : Zone := mkZone 1 1.
Definition zone2 : Zone := mkZone 1 2.

(** A connected client after [enumerate_controllers] has found controller
    1 with its zone 1, and before [init_sources] has recorded any source. *)
Definition enumerated : Russound :=
  mkRussound [] ∅ [] [] true [] [(1, mkController 1 [(1, zone1)])] ∅
    (Some "1.05.00") true 0%nat [].

(** The reply of the device to [GET S[1].name]. *)
Definition name_reply : string := line "S" (assign "S[1]" "name" "Tuner").

(** [send_cmd("GET S[1].name")], the command taken, written and flushed,
    and the reply read. *)
Definition get_source_name : list event :=
  [Put "GET S[1].name"; Get; Queue; Drained None; Net (RLine name_reply)].

(** A connected client with source 1 and the zones 1 and 2 of controller
    1 known: the cache has zone 1 on source 2, which is not among the
    sources, and zone 2 on source 1; callback 7 is registered for zone 2. *)
Definition tuned : Russound :=
  mkRussound []
    {[ "C[1].Z[1]" := {[ "currentsource" := "2" ]};
       "C[1].Z[2]" := {[ "currentsource" := "1" ]} ]}
    [("C[1].Z[2]", [7%nat])] [] true []
    [(1, mkController 1 [(1, zone1); (2, zone2)])]
    {[ 1 := mkSource 1 ]} (Some "1.05.00") true 0%nat [].

(** A connected client with connection callback 3 and nothing else. *)
Definition online : Russound :=
  mkRussound [] ∅ [] [3%nat] true [] [] ∅ (Some "1.05.00") true 0%nat [].

(** [send_cmd("GET C[1].Z[1].name")], taken, written and flushed: the
    command is in flight. *)
Definition in_flight_events : list event :=
  [Put "GET C[1].Z[1].name"; Get; Queue; Drained None].

(** The object with that command in flight. *)
Definition flying_state : Russound :=
  emit [EPut "GET C[1].Z[1].name" 0%nat;
        EWrite ("GET C[1].Z[1].name" +:+ CR) 0%nat]
    (with_next_future 1%nat online).

(** Two commands queued one after the other and served in turn. *)
Definition two_commands : list event :=
  [Put "GET C[1].Z[1].name"; Put "GET C[1].Z[1].volume"; Get; Queue;
   Drained None;
   Net (RLine (line "N" (assign "C[1].Z[1]" "bass" "2")));
   Net (RLine (line "S" (assign "C[1].Z[1]" "name" "Kitchen")));
   Get; Queue; Drained None;
   Net (RLine (line "E" "Invalid argument"))].

(** A command is in flight when the connection is reset; the loop ends
    into a reconnect, [connect] spawns the next loop and queues the version
    query, and the next loop takes it from the queue and writes it. *)
Definition reconnect_session : list session_event :=
  [Loop (Put "GET C[1].Z[1].name"); Loop Get; Loop Queue; Loop (Drained None);
   Loop (Net (RFail ConnectionResetError));
   Reconnect (Ret tt);
   Loop Get; Loop Queue].

(** The loop as a reset of the connection leaves it with
    [GET C[1].Z[1].name] in flight. *)
Definition reset_in_flight : loop_status * Russound :=
  fail true ConnectionResetError flying_state.

(** After that reset: a caller queues a command during the delay, the
    reconnect spawns the next loop, which serves that command and then the
    version query, and [connect] is resumed with the version. *)
Definition after_reset : list session_event :=
  [Loop (Put "GET C[1].Z[1].volume");
   Reconnect (Ret tt);
   Loop Get; Loop Queue; Loop (Drained None);
   Loop (Net (RLine (line "S" (assign "C[1].Z[1]" "volume" "10"))));
   Loop Get; Loop Queue; Loop (Drained None);
   Loop (Net (RLine (line "S" (quote +:+ "1.05.00" +:+ quote))));
   Resume 0%nat].

(** Callback 1 registered for zone 1 and callback 2 for zone 2. *)
Definition registered : Russound :=
  add_callback "C[1].Z[2]" 2%nat (add_callback "C[1].Z[1]" 1%nat init).

End Scenario.

(** * Vocabulary of the statements on the rest of the client *)

Section Vocabulary_client.

Context `{Imports} `{Tables}.

(** [wp R Q t]: when the object, between each suspension of [t] and its
    resumption, changes only as the relation [R] allows, then whatever the
    awaits receive, [t] can only finish with a result and an object that
    satisfy [Q], and it does so after finitely many resumptions. Whether a
    resumption comes is not the task's affair: a future that nothing
    resolves leaves it suspended. *)
Inductive wp {A} (R : Russound -> Russound -> Prop)
    (Q : outcome A -> Russound -> Prop) : task A -> Prop :=
| wp_finished o st : Q o st -> wp R Q (Finished o st)
| wp_awaiting fut st k :
    (forall r st', R st st' -> wp R Q (k r st')) -> wp R Q (Awaiting fut st k).

(** The object keeps its registries: the callbacks, the connection
    callbacks, the watch set, the known controllers and sources, the
    recorded version and the started flag. *)
Definition registries_kept (st st' : Russound) : Prop :=
  _callbacks st' = _callbacks st
  ∧ _connection_callbacks st' = _connection_callbacks st
  ∧ _watched_devices st' = _watched_devices st
  ∧ _controllers st' = _controllers st
  ∧ sources st' = sources st
  ∧ rio_version st' = rio_version st
  ∧ _connection_started st' = _connection_started st.

(** Only the sources may differ among the registries. *)
Definition registries_kept_but_sources (st st' : Russound) : Prop :=
  _callbacks st' = _callbacks st
  ∧ _connection_callbacks st' = _connection_callbacks st
  ∧ _watched_devices st' = _watched_devices st
  ∧ _controllers st' = _controllers st
  ∧ rio_version st' = rio_version st
  ∧ _connection_started st' = _connection_started st.

(** The exceptions that [_process_response] can leave with other than
    [CommandError]. *)
Definition store_error (e : exn) : Prop :=
  e = ValueError ∨ e = KeyError ∨ e = IndexError.

(** The commands that a trace queues, in order. *)
Definition put_commands (tr : list effect) : list string :=
  omap (fun e => match e with EPut c _ => Some c | _ => None end) tr.

(** The connection callbacks that a trace calls, with the flag. *)
Definition connection_calls (tr : list effect) : list (conn_callback * bool) :=
  omap (fun e => match e with EConnection cb b => Some (cb, b) | _ => None end) tr.

(** Every recorded source sits under its own index, within the bounds. *)
Definition sources_ok (m : gmap Z Source) : Prop :=
  ∀ id s, m !! id = Some s → 1 ≤ id < MAX_SOURCE ∧ source_id s = id.


(** The task keeps [P]: it leaves [P] in force whenever it suspends and
    when it finishes, provided [P] is in force each time it is resumed. *)
Inductive keeps {A} (P : Russound -> Prop) : task A -> Prop :=
| keeps_finished o st : P st -> keeps P (Finished o st)
| keeps_awaiting fut st k :
    P st -> (forall r st', P st' -> keeps P (k r st')) ->
    keeps P (Awaiting fut st k).

(** The future was handed out by a [send_cmd], is not in the queue and
    has not been resolved. *)
Definition unserved (f : future) (st : Russound) : Prop :=
  (f < next_future st)%nat
  ∧ (f ∉ (_cmd_queue st).*2)
  ∧ resolution f (trace st) = None.

(** The future is unserved and the loop does not have it either: it is
    neither the one the loop holds from the queue nor the one in flight. *)
Definition lost (f : future) (c : loop_status * Russound) : Prop :=
  unserved f c.2 ∧ (f ∉ (held c.1).*2) ∧ flying c.1 ≠ Some f.

(** The text of [GET device.key]. *)
Definition get_cmd (device_str key : string) : string :=
  "GET " +:+ device_str +:+ "." +:+ key.

(** The cache has a value for the key of the device. *)
Definition cached (device_str key : string) (st : Russound) : bool :=
  match _retrieve_cached_variable device_str key st with
  | Ret _ => true
  | Raise _ => false
  end.

(** The properties that a fetch has to ask the device for. *)
Definition asked (device_str : string) (props : list string) (st : Russound)
  : list string :=
  filter (fun prop => cached device_str prop st = false) props.

End Vocabulary_client.

(** Tables and objects of the examples for the discovery loops. *)
Module Discovery.
Import RIO.

(** Two source indices and two properties per device. *)
#[global] Instance tables : Tables :=
  {| MAX_SOURCE := 3;
     SOURCE_PROPERTIES := ["type"; "channel"];
     ZONE_PROPERTIES := ["volume"; "status"] |}.

(** A fresh client whose cache has the type of source 1. *)
Definition typed : Russound :=
  with_state {[ "S[1]" := {[ "type" := "Tuner" ]} ]} init.

(** A client that watches two zones and has one connection callback. *)
Definition watcher : Russound :=
  with_connection_callbacks [4%nat]
    (with_watched_devices [("C[1].Z[1]", true); ("C[1].Z[2]", true)] init).

End Discovery.

(** * Properties *)

Section Theory.

Context `{Imports}.

(** ** Frame lemmas: what the cache operations leave alone *)

Lemma emit_emit es1 es2 st : emit es2 (emit es1 st) = emit (es1 ++ es2) st.
Proof. unfold emit, with_trace; simpl. by rewrite app_assoc. Qed.

Lemma emit_nil st : emit [] st = st.
Proof. destruct st; unfold emit, with_trace; simpl. by rewrite app_nil_r. Qed.

Lemma fire_eq d k v cbs st :
  fire d k v cbs st = (Ret tt, emit ((fun cb => ECallback cb d k v) <$> cbs) st).
Proof. reflexivity. Qed.

Lemma fire_effects d k v cbs :
  Forall callback_effect ((fun cb => ECallback cb d k v) <$> cbs).
Proof. induction cbs; constructor; simpl; auto. Qed.

Lemma callbacks_of_emit d es st : callbacks_of d (emit es st) = callbacks_of d st.
Proof. reflexivity. Qed.

Lemma fetch_emit z es st :
  Zone_fetch_current_source z (emit es st) = Zone_fetch_current_source z st.
Proof. reflexivity. Qed.

(** The fan-out only calls callbacks. *)
Lemma fan_out_frame d k v zs st :
  ∃ es, (fan_out d k v zs st).2 = emit es st ∧ Forall callback_effect es.
Proof.
  revert st. induction zs as [|z zs IH]; intros st; simpl.
  - exists []. by rewrite emit_nil.
  - destruct (Zone_fetch_current_source z st) as [src|e]; simpl.
    + unfold bind. case_decide.
      * rewrite fire_eq. destruct (IH (emit ((fun cb => ECallback cb d k v) <$>
            callbacks_of (Zone_device_str z) st) st)) as (es & -> & Hes).
        eexists. rewrite emit_emit. split; [done|].
        apply Forall_app; split; [apply fire_effects|done].
      * simpl. apply IH.
    + exists []. by rewrite emit_nil.
Qed.

(** The object after a store: the cache holds the value under the
    lower-cased key, the trace gains the store and then callbacks only. *)
Lemma store_frame d k v st :
  ∃ es, (_store_cached_variable d k v st).2
        = emit (EStore d (Py.lower k) v :: es)
            (with_state (<[d := <[Py.lower k := v]> (default ∅ (_state st !! d))]>
                           (_state st)) st)
        ∧ Forall callback_effect es.
Proof.
  unfold _store_cached_variable, bind, modify. simpl.
  rewrite emit_emit.
  set (st1 := with_state _ st).
  set (direct := (fun cb => ECallback cb d (Py.lower k) v) <$> callbacks_of d st).
  destruct d as [|c d'].
  - exists direct. split; [done|apply fire_effects].
  - destruct (Ascii.eqb c "S").
    + destruct (fan_out_frame (String c d') (Py.lower k) v (known_zones st)
                  (emit ([EStore (String c d') (Py.lower k) v] ++ direct) st1))
        as (es & -> & Hes).
      exists (direct ++ es). rewrite emit_emit. split.
      * by rewrite <- app_assoc.
      * apply Forall_app; split; [apply fire_effects|done].
    + exists direct. split; [done|apply fire_effects].
Qed.

Lemma store_state d k v st :
  _state (_store_cached_variable d k v st).2
  = <[d := <[Py.lower k := v]> (default ∅ (_state st !! d))]> (_state st).
Proof. destruct (store_frame d k v st) as (es & -> & _). reflexivity. Qed.

Lemma retrieve_after_store d k v d' k' st :
  _retrieve_cached_variable d' k' (_store_cached_variable d k v st).2
  = if decide ((d', Py.lower k') = (d, Py.lower k)) then Ret v
    else _retrieve_cached_variable d' k' st.
Proof.
  unfold _retrieve_cached_variable. rewrite store_state.
  destruct (decide (d = d')) as [->|Hd].
  - rewrite lookup_insert_eq.
    destruct (decide (Py.lower k = Py.lower k')) as [Hk|Hk].
    + rewrite <- Hk, lookup_insert_eq. rewrite decide_True; [done|by rewrite Hk].
    + rewrite lookup_insert_ne by done.
      rewrite decide_False by congruence.
      destruct (_state st !! d') as [zs|]; simpl; [done|].
      by rewrite lookup_empty.
  - rewrite lookup_insert_ne by done. rewrite decide_False by congruence. done.
Qed.

Lemma retrieve_store_each l d k st :
  Forall (fun '(d', k', _) => (d, Py.lower k) ≠ (d', Py.lower k')) l →
  _retrieve_cached_variable d k (store_each l st) = _retrieve_cached_variable d k st.
Proof.
  revert st. induction l as [|[[d' k'] v'] l IH]; intros st Hl; simpl; [done|].
  inversion Hl; subst. unfold store_each in *. simpl. rewrite IH by done.
  rewrite retrieve_after_store. by rewrite decide_False.
Qed.

(** C6. Cache round-trip: after a store of [V] for [(D, K)], reading
    [(D, K')] for any [K'] with the same lower-case form returns [V]; a
    store does not change what any other (device, key) reads; from an
    empty cache, a pair that no store was addressed to raises
    [UncachedVariableError], and [get_cached_variable] then returns the
    supplied default; a stored empty string is read back as the empty
    string, which is not the uncached signal. *)
Theorem cache_round_trip :
  (∀ st D K K' V, Py.lower K' = Py.lower K →
     _retrieve_cached_variable D K' (_store_cached_variable D K V st).2 = Ret V
     ∧ ∀ default, get_cached_variable D K' default
                    (_store_cached_variable D K V st).2 = Some V)
  ∧ (∀ st D K V D' K', (D', Py.lower K') ≠ (D, Py.lower K) →
       _retrieve_cached_variable D' K' (_store_cached_variable D K V st).2
       = _retrieve_cached_variable D' K' st)
  ∧ (∀ st l D K default,
       _state st = ∅ →
       Forall (fun '(D', K', _) => (D, Py.lower K) ≠ (D', Py.lower K')) l →
       _retrieve_cached_variable D K (store_each l st) = Raise UncachedVariableError
       ∧ get_cached_variable D K default (store_each l st) = default)
  ∧ (∀ st D K default,
       _retrieve_cached_variable D K (_store_cached_variable D K "" st).2 = Ret ""
       ∧ get_cached_variable D K default (_store_cached_variable D K "" st).2
         = Some ""
       ∧ Ret "" ≠ @Raise string UncachedVariableError).
Proof.
  split; [|split; [|split]].
  - intros st D K K' V HK.
    assert (Hr : _retrieve_cached_variable D K' (_store_cached_variable D K V st).2
                 = Ret V).
    { rewrite retrieve_after_store, decide_True; [done|by rewrite HK]. }
    split; [done|]. intros default. unfold get_cached_variable. by rewrite Hr.
  - intros st D K V D' K' Hne. rewrite retrieve_after_store.
    by rewrite decide_False.
  - intros st l D K default Hst Hl.
    assert (Hr : _retrieve_cached_variable D K (store_each l st)
                 = Raise UncachedVariableError).
    { rewrite retrieve_store_each by done.
      unfold _retrieve_cached_variable. by rewrite Hst, lookup_empty. }
    split; [done|]. unfold get_cached_variable. by rewrite Hr.
  - intros st D K default.
    assert (Hr : _retrieve_cached_variable D K (_store_cached_variable D K "" st).2
                 = Ret "").
    { rewrite retrieve_after_store. by rewrite decide_True. }
    split; [done|]. split; [|done]. unfold get_cached_variable. by rewrite Hr.
Qed.

(** ** Callback registry *)

Lemma remove_from_each_all cb d :
  Forall (fun kv => cb ∈ kv.2) d →
  remove_from_each cb d = (Ret tt, prod_map id (remove_first cb) <$> d).
Proof.
  induction d as [|[k l] d IH]; intros Hd; simpl; [done|].
  inversion Hd as [|? ? Hl Hd']; subst. simpl in Hl.
  assert (Hrm : ∃ l', list_remove cb l = Some l').
  { clear -Hl. induction l as [|y l IHl]; [by apply elem_of_nil in Hl|].
    simpl. case_decide; [eauto|].
    apply elem_of_cons in Hl as [->|Hl]; [done|].
    destruct (IHl Hl) as [l' ->]. simpl. eauto. }
  destruct Hrm as [l' Hl']. rewrite Hl', (IH Hd'). simpl.
  unfold remove_first. by rewrite Hl'.
Qed.

Lemma list_remove_None cb l : cb ∉ l → list_remove cb l = None.
Proof.
  induction l as [|y l IH]; intros Hl; simpl; [done|].
  apply not_elem_of_cons in Hl as [Hy Hl].
  rewrite decide_False by done. by rewrite IH.
Qed.

Lemma remove_from_each_stops cb pre k l post :
  Forall (fun kv => cb ∈ kv.2) pre → cb ∉ l →
  remove_from_each cb (pre ++ (k, l) :: post)
  = (Raise ValueError, (prod_map id (remove_first cb) <$> pre) ++ (k, l) :: post).
Proof.
  intros Hpre Hl. induction pre as [|[k0 l0] pre IH]; simpl.
  - by rewrite list_remove_None.
  - inversion Hpre as [|? ? Hl0 Hpre']; subst. simpl in Hl0.
    rewrite (IH Hpre').
    destruct (list_remove cb l0) as [l0'|] eqn:E0.
    + simpl. unfold remove_first. by rewrite E0.
    + exfalso. clear -Hl0 E0. induction l0 as [|y l0 IHl]; [by apply elem_of_nil in Hl0|].
      simpl in E0. case_decide; [done|].
      apply elem_of_cons in Hl0 as [->|Hl0]; [done|].
      destruct (list_remove cb l0); [done|]. by apply IHl.
Qed.

(** The first list without [cb], if there is one, splits the
    dictionary. *)
Lemma first_without cb (d : list (string * list callback)) :
  Forall (fun kv => cb ∈ kv.2) d
  ∨ ∃ pre k l post, d = pre ++ (k, l) :: post
                    ∧ Forall (fun kv => cb ∈ kv.2) pre ∧ cb ∉ l.
Proof.
  induction d as [|[k l] d IH]; [by left|].
  destruct (decide (cb ∈ l)) as [Hin|Hout].
  - destruct IH as [Hall|(pre & k' & l' & post & -> & Hpre & Hl')].
    + left. by constructor.
    + right. exists ((k, l) :: pre), k', l', post. split; [done|].
      split; [by constructor|done].
  - right. exists [], k, l, d. done.
Qed.

Lemma ODict_get_elem_of {V} (k : string) (v : V) d :
  ODict.get k d = Some v → (k, v) ∈ d.
Proof.
  induction d as [|[k' v'] d IH]; simpl; [done|].
  case_decide; intros Hg.
  - simplify_eq. apply elem_of_cons. by left.
  - apply elem_of_cons. right. by apply IH.
Qed.

(** C9. [remove_callback cb] returns normally exactly when every
    registered list contains [cb], and then the first occurrence of [cb] is
    gone from each of them; otherwise it raises [ValueError] at the first
    list without [cb], with [cb] already removed from the lists before it
    and the rest untouched. In particular, when [cb] is registered for the
    device [d] only and another device [d'] has a list, the call raises
    [ValueError]. *)
Theorem remove_callback_every_list cb st :
  (Forall (fun kv => cb ∈ kv.2) (_callbacks st) →
     remove_callback cb st
     = (Ret tt, with_callbacks (prod_map id (remove_first cb) <$> _callbacks st) st))
  ∧ (∀ pre k l post,
       _callbacks st = pre ++ (k, l) :: post →
       Forall (fun kv => cb ∈ kv.2) pre → cb ∉ l →
       remove_callback cb st
       = (Raise ValueError,
          with_callbacks ((prod_map id (remove_first cb) <$> pre) ++ (k, l) :: post) st))
  ∧ (∀ d d' l',
       (∀ k l, (k, l) ∈ _callbacks st → cb ∈ l → k = d) →
       d' ≠ d → ODict.get d' (_callbacks st) = Some l' →
       ∃ st', remove_callback cb st = (Raise ValueError, st')).
Proof.
  split; [|split].
  - intros Hall. unfold remove_callback. by rewrite remove_from_each_all.
  - intros pre k l post Hd Hpre Hl. unfold remove_callback.
    by rewrite Hd, remove_from_each_stops.
  - intros d d' l' Honly Hne Hget. unfold remove_callback.
    destruct (first_without cb (_callbacks st))
      as [Hall|(pre & k & l & post & Hd & Hpre & Hl)].
    + exfalso. apply ODict_get_elem_of in Hget.
      rewrite Forall_forall in Hall. specialize (Hall _ Hget). simpl in Hall.
      by specialize (Honly _ _ Hget Hall).
    + rewrite Hd, remove_from_each_stops by done. eauto.
Qed.

(** ** Watch registry and connect *)

Lemma ODict_get_set {V} (k : string) (v : V) d : ODict.get k (ODict.set k v d) = Some v.
Proof.
  induction d as [|[k' v'] d IH]; simpl.
  - by rewrite decide_True.
  - case_decide; simpl.
    + by rewrite decide_True.
    + by rewrite decide_False.
Qed.

Lemma ODict_keys_set {V} (k : string) (v : V) d :
  k ∈ ODict.keys d → ODict.keys (ODict.set k v d) = ODict.keys d.
Proof.
  unfold ODict.keys. induction d as [|[k' v'] d IH]; simpl; intros Hk.
  - by apply elem_of_nil in Hk.
  - case_decide; simpl; [by subst|].
    apply elem_of_cons in Hk as [->|Hk]; [done|]. f_equal. by apply IH.
Qed.

Lemma ODict_get_keys {V} (k : string) (d : list (string * V)) :
  is_Some (ODict.get k d) → k ∈ ODict.keys d.
Proof.
  unfold ODict.keys. induction d as [|[k' v'] d IH]; simpl; intros [v Hv]; [done|].
  case_decide; [subst; apply elem_of_cons; by left|].
  apply elem_of_cons; right. apply IH. eauto.
Qed.

Lemma keys_length {V} (d : list (string * V)) : length (ODict.keys d) = length d.
Proof. unfold ODict.keys. by rewrite length_fmap. Qed.

Lemma watching_keys d st :
  d ∈ ODict.keys (_watched_devices st) →
  ODict.keys (_watched_devices (watching d st)) = ODict.keys (_watched_devices st).
Proof. intros Hd. simpl. by apply ODict_keys_set. Qed.

Lemma replayed_cons d ds st : replayed (d :: ds) st = replayed ds (watching d st).
Proof. reflexivity. Qed.

Lemma watching_queue d st :
  (_cmd_queue (watching d st)).*1 = (_cmd_queue st).*1 ++ [watch_cmd d].
Proof. simpl. by rewrite fmap_app. Qed.

Lemma replayed_queue ds st :
  (_cmd_queue (replayed ds st)).*1 = (_cmd_queue st).*1 ++ (watch_cmd <$> ds).
Proof.
  revert st. induction ds as [|d ds IH]; intros st.
  - simpl. by rewrite app_nil_r.
  - rewrite replayed_cons, IH, watching_queue, fmap_cons.
    by rewrite <- app_assoc.
Qed.

Lemma watch_from_S todo used i st :
  watch_from (S todo) used i st
  = if decide (length (_watched_devices st) = used) then
      match ODict.keys (_watched_devices st) !! i with
      | None => Finished (Ret tt) st
      | Some device =>
          task_bind (watch device st) (fun _ => watch_from todo used (S i))
      end
    else Finished (Raise RuntimeError) st.
Proof. reflexivity. Qed.

Lemma watch_then_drive {A B} d st (G : option string → Async A)
    (K : A → Async B) v rs :
  drive (task_bind (task_bind (watch d st) G) K) (ROk v :: rs)
  = drive (task_bind (G v (watching d st)) K) rs.
Proof. reflexivity. Qed.

(** The replay loop, run against successful results. *)
Lemma watch_from_drive {B} todo i st (K : unit → Async B) vs rs :
  (i ≤ length (_watched_devices st))%nat →
  (length (_watched_devices st) - i < todo)%nat →
  length vs = (length (_watched_devices st) - i)%nat →
  drive (task_bind (watch_from todo (length (_watched_devices st)) i st) K)
        ((ROk <$> vs) ++ rs)
  = drive (K tt (replayed (drop i (ODict.keys (_watched_devices st))) st)) rs.
Proof.
  revert i st vs. induction todo as [|todo IH]; intros i st vs Hi Htodo Hvs; [lia|].
  rewrite watch_from_S, decide_True by done.
  destruct (ODict.keys (_watched_devices st) !! i) as [device|] eqn:Ei.
  - pose proof (lookup_lt_Some _ _ _ Ei) as Hlt. rewrite keys_length in Hlt.
    destruct vs as [|v vs]; [simpl in Hvs; lia|].
    assert (Hin : device ∈ ODict.keys (_watched_devices st)).
    { by eapply list_elem_of_lookup_2. }
    pose proof (watching_keys device st Hin) as Hkeys.
    assert (Hlen : length (_watched_devices (watching device st))
                   = length (_watched_devices st)).
    { by rewrite <- !keys_length, Hkeys. }
    rewrite fmap_cons. change ((ROk v :: (ROk <$> vs)) ++ rs)
      with (ROk v :: ((ROk <$> vs) ++ rs)).
    rewrite watch_then_drive, <- Hlen, IH.
    + rewrite Hkeys. by rewrite (drop_S _ _ _ Ei).
    + lia.
    + lia.
    + simpl in Hvs. lia.
  - apply lookup_ge_None in Ei. rewrite keys_length in Ei.
    assert (vs = []) as -> by (destruct vs; [done|simpl in Hvs; lia]).
    simpl. rewrite drop_ge by (rewrite keys_length; lia). done.
Qed.

Lemma connect_drive reconnect st version rs :
  drive (connect reconnect (Ret tt) st) (ROk version :: rs)
  = match is_fw_version_higher version MINIMUM_API_SUPPORT with
    | Raise e => (Finished (Raise e) (versioned reconnect version st), rs)
    | Ret false =>
        (Finished (Raise UnsupportedFeatureError) (versioned reconnect version st), rs)
    | Ret true =>
        drive (task_bind (_watch_cached_devices (versioned reconnect version st))
                 (fun _ st => Finished (Ret tt) (_set_connected true st))) rs
    end.
Proof.
  unfold connect. simpl.
  destruct (is_fw_version_higher version MINIMUM_API_SUPPORT) as [[]|]; reflexivity.
Qed.

(** C10. [unwatch] of an identifier that is not in the watch set
    finishes with [KeyError] and leaves the object as it was: nothing is
    queued. [watch] suspends with the identifier in the watch set and the
    [WATCH ... ON] command queued, and when it is resumed it only hands
    the result on, so a failed command leaves the identifier in the set;
    a later [connect] to a device of a supported version queues
    [WATCH ... ON] for it again. *)
Theorem watch_registry dev st :
  (ODict.get dev (_watched_devices st) = None →
     unwatch dev st = Finished (Raise KeyError) st)
  ∧ (∃ k, watch dev st = Awaiting (next_future st) (watching dev st) k
          ∧ ∀ r st2, k r st2 = Finished (reply_outcome r) st2)
  ∧ ODict.get dev (_watched_devices (watching dev st)) = Some true
  ∧ _cmd_queue (watching dev st) = _cmd_queue st ++ [(watch_cmd dev, next_future st)]
  ∧ trace (watching dev st) = trace st ++ [EPut (watch_cmd dev) (next_future st)]
  ∧ (∀ msg, drive (watch dev st) [RErr msg]
            = (Finished (Raise (CommandError msg)) (watching dev st), []))
  ∧ (∀ reconnect version vs,
       is_fw_version_higher version MINIMUM_API_SUPPORT = Ret true →
       length vs = length (_watched_devices (watching dev st)) →
       ∃ st', drive (connect reconnect (Ret tt) (watching dev st))
                    (ROk version :: (ROk <$> vs))
              = (Finished (Ret tt) st', [])
              ∧ (_cmd_queue st').*1
                = (_cmd_queue (watching dev st)).*1
                  ++ "VERSION"
                     :: (watch_cmd <$> ODict.keys (_watched_devices (watching dev st)))
              ∧ dev ∈ ODict.keys (_watched_devices (watching dev st))
              ∧ connected st' = true).
Proof.
  split; [|split; [|split; [|split; [|split; [|split]]]]].
  - intros Hget. unfold unwatch.
    assert (ODict.del dev (_watched_devices st) = None) as ->; [|done].
    induction (_watched_devices st) as [|[k v] d IH]; simpl in *; [done|].
    case_decide; [done|]. by rewrite IH.
  - eexists. split; [reflexivity|]. done.
  - simpl. apply ODict_get_set.
  - reflexivity.
  - reflexivity.
  - reflexivity.
  - intros reconnect version vs Hver Hvs.
    set (st1 := watching dev st) in *.
    rewrite connect_drive, Hver. unfold _watch_cached_devices.
    set (st2 := versioned reconnect version st1).
    assert (Hw : _watched_devices st2 = _watched_devices st1) by reflexivity.
    rewrite <- (app_nil_r (ROk <$> vs)).
    rewrite watch_from_drive; [|lia|lia|rewrite Hw; lia].
    eexists. split; [reflexivity|]. split; [|split; [|reflexivity]].
    + change (_cmd_queue (_set_connected true ?s)) with (_cmd_queue s).
      rewrite replayed_queue, drop_0, Hw. unfold st2. simpl.
      rewrite !fmap_app. simpl. by rewrite <- app_assoc.
    + apply ODict_get_keys. unfold st1. simpl. rewrite ODict_get_set. eauto.
Qed.

(** C5. [connect] suspends on the [VERSION] query having touched neither
    the connected flag nor the connection callbacks; resumed with a
    version [v] for which [is_fw_version_higher v MINIMUM_API_SUPPORT] is
    false, it raises [UnsupportedFeatureError] at once: it only records
    the version, so the flag stays as it was, no connection callback is
    called, and no [WATCH] command is queued. Run against that single
    reply from a disconnected object, the object ends disconnected with the
    version query as the only command queued. *)
Theorem version_gate reconnect st v :
  is_fw_version_higher (Some v) MINIMUM_API_SUPPORT = Ret false →
  (∃ k, connect reconnect (Ret tt) st
        = Awaiting (next_future st) (connecting reconnect st) k
        ∧ ∀ st2, ∃ st3,
            k (ROk (Some v)) st2 = Finished (Raise UnsupportedFeatureError) st3
            ∧ connected st3 = connected st2
            ∧ trace st3 = trace st2
            ∧ _cmd_queue st3 = _cmd_queue st2
            ∧ _watched_devices st3 = _watched_devices st2)
  ∧ connected (connecting reconnect st) = connected st
  ∧ trace (connecting reconnect st)
    = trace st ++ [EOpen; ESpawn reconnect; EPut "VERSION" (next_future st)]
  ∧ (∀ rs, ∃ st3,
       drive (connect reconnect (Ret tt) st) (ROk (Some v) :: rs)
       = (Finished (Raise UnsupportedFeatureError) st3, rs)
       ∧ (connected st = false → connected st3 = false)
       ∧ trace st3
         = trace st ++ [EOpen; ESpawn reconnect; EPut "VERSION" (next_future st)]
       ∧ _cmd_queue st3 = _cmd_queue st ++ [("VERSION", next_future st)]
       ∧ _watched_devices st3 = _watched_devices st).
Proof.
  intros Hlow. split; [|split; [|split]].
  - unfold connect. simpl. eexists. split; [reflexivity|].
    intros st2. simpl. rewrite Hlow. eexists. split; [reflexivity|]. done.
  - reflexivity.
  - simpl. by rewrite <- app_assoc.
  - intros rs. rewrite connect_drive, Hlow. eexists. split; [reflexivity|].
    simpl. split; [done|]. split; [by rewrite <- app_assoc|done].
Qed.

(** ** Response parser *)

Lemma with_state_id st : with_state (_state st) st = st.
Proof. by destruct st. Qed.

Lemma int_truthy s n : Py.int s = Some n → Py.truthy s = true.
Proof. destruct s; [discriminate|done]. Qed.

Lemma process_response_addressed res st ty rest dev var val :
  Py.strip res = String ty rest → ty ≠ "E"%char →
  addressed (Py.drop 2 (String ty rest)) dev var val →
  _process_response res st
  = after_store ty val (_store_cached_variable dev var val st).
Proof.
  intros Hs Hty Haddr. unfold _process_response. rewrite Hs.
  rewrite (proj2 (Ascii.eqb_neq ty "E") Hty).
  destruct Haddr as [(src & id & -> & Hid & ->)|(c & z & cid & zid & -> & Hc & Hz & ->)].
  - rewrite (int_truthy _ _ Hid), Hid. unfold bind, after_store.
    by destruct (_store_cached_variable _ _ _ _) as [[[]|e] st'].
  - rewrite (int_truthy _ _ Hz), Hc, Hz. unfold bind, after_store.
    by destruct (_store_cached_variable _ _ _ _) as [[[]|e] st'].
Qed.

(** The parser touches the cache and the trace only, and the trace by
    stores and callbacks only. *)
Lemma process_response_frame res st :
  ∃ es m, (_process_response res st).2 = emit es (with_state m st)
          ∧ Forall cache_effect es.
Proof.
  assert (Hid : ∃ es m, st = emit es (with_state m st) ∧ Forall cache_effect es).
  { exists [], (_state st). by rewrite with_state_id, emit_nil. }
  assert (Hstore : ∀ d k v (f : outcome unit → outcome (option ascii * option string)),
    ∃ es m, (let '(o, st') := _store_cached_variable d k v st in (f o, st')).2
            = emit es (with_state m st) ∧ Forall cache_effect es).
  { intros d k v f. destruct (store_frame d k v st) as (es & Hes & Hcb).
    destruct (_store_cached_variable d k v st) as [o st']. simpl in *. subst st'.
    eexists _, _. split; [reflexivity|]. constructor; [done|].
    eapply Forall_impl; [exact Hcb|]. by intros []. }
  unfold _process_response.
  destruct (Py.strip res) as [|ty rest]; [exact Hid|].
  destruct (Ascii.eqb ty "E"); [exact Hid|].
  destruct (RESPONSE_REGEX_match _) as [[src var val|c z var val|a b]|]; try exact Hid.
  - unfold bind. destruct (Py.truthy src); [|exact Hid].
    destruct (Py.int src) as [id|]; [|exact Hid].
    destruct (Hstore (source_device_str id) var val
                (fun o => match o with
                          | Ret _ => Ret (Some ty, Py.or_ (Some val) None)
                          | Raise e => Raise e end)) as (es & m & Heq & Hes).
    exists es, m. split; [|done]. rewrite <- Heq.
    by destruct (_store_cached_variable _ _ _ _) as [[[]|e] st'].
  - unfold bind. destruct (Py.truthy z); [|exact Hid].
    destruct (Py.int c) as [cid|]; [|exact Hid].
    destruct (Py.int z) as [zid|]; [|exact Hid].
    destruct (Hstore (zone_device_str cid zid) var val
                (fun o => match o with
                          | Ret _ => Ret (Some ty, Py.or_ (Some val) None)
                          | Raise e => Raise e end)) as (es & m & Heq & Hes).
    exists es, m. split; [|done]. rewrite <- Heq.
    by destruct (_store_cached_variable _ _ _ _) as [[[]|e] st'].
Qed.

(** C8 (as amended). A blank line gives [(None, None)] and changes
    nothing. On any other line, with tag [ty]: when [ty] is [E] the parser
    raises [CommandError] with the payload and changes nothing; otherwise,
    when the payload matches no shape it returns the tag with no value and
    changes nothing; when it matches a value without address it returns
    the tag with that value and changes nothing; when it matches a source-
    or zone-addressed variable, the value is stored under the addressed
    device, and the parser returns the tag with the value exactly when
    the store returns, whatever the tag is. A returned tag is the line's
    own, so the result is a success exactly for tag [S], stored or not. *)
Theorem parser_outcomes res st :
  (Py.strip res = "" → _process_response res st = (Ret (None, None), st))
  ∧ ∀ ty rest, Py.strip res = String ty rest →
      let payload := Py.drop 2 (String ty rest) in
      (ty = "E"%char →
         _process_response res st = (Raise (CommandError payload), st))
      ∧ (ty ≠ "E"%char → RESPONSE_REGEX_match payload = None →
           _process_response res st = (Ret (Some ty, None), st))
      ∧ (ty ≠ "E"%char → ∀ a b, RESPONSE_REGEX_match payload = Some (GPlain a b) →
           _process_response res st = (Ret (Some ty, Py.or_ a b), st))
      ∧ (ty ≠ "E"%char → ∀ dev var val, addressed payload dev var val →
           _process_response res st
           = after_store ty val (_store_cached_variable dev var val st)
           ∧ _retrieve_cached_variable dev var (_process_response res st).2 = Ret val
           ∧ ∃ es, trace (_process_response res st).2
                   = trace st ++ EStore dev (Py.lower var) val :: es
                   ∧ Forall callback_effect es)
      ∧ (∀ t v st', _process_response res st = (Ret (t, v), st') → t = Some ty).
Proof.
  split.
  - intros Hs. unfold _process_response. by rewrite Hs.
  - intros ty rest Hs payload. split; [|split; [|split; [|split]]].
    + intros ->. unfold _process_response. by rewrite Hs.
    + intros Hty Hm. unfold _process_response. rewrite Hs.
      rewrite (proj2 (Ascii.eqb_neq ty "E") Hty). fold payload. by rewrite Hm.
    + intros Hty a b Hm. unfold _process_response. rewrite Hs.
      rewrite (proj2 (Ascii.eqb_neq ty "E") Hty). fold payload. by rewrite Hm.
    + intros Hty dev var val Haddr.
      rewrite (process_response_addressed res st ty rest dev var val Hs Hty Haddr).
      split; [done|]. unfold after_store. simpl. split.
      * rewrite retrieve_after_store. by rewrite decide_True.
      * destruct (store_frame dev var val st) as (es & -> & Hes).
        exists es. done.
    + intros t v st'. unfold _process_response. rewrite Hs.
      destruct (Ascii.eqb ty "E"); [discriminate|].
      unfold bind.
      destruct (RESPONSE_REGEX_match _) as [[src var val|c z var val|a b]|];
        unfold ret, raise;
        repeat match goal with
               | |- context [match ?x with _ => _ end] => destruct x
               end; intros; simplify_eq; done.
Qed.

(** ** Leaving the loop *)

Lemma set_connected_eq b st :
  _set_connected b st
  = emit ((fun cb => EConnection cb b) <$> _connection_callbacks st)
      (with_connected b st).
Proof. reflexivity. Qed.

Lemma with_connected_emit b es st :
  with_connected b (emit es st) = emit es (with_connected b st).
Proof. reflexivity. Qed.

Lemma with_connected_twice b b' st :
  with_connected b (with_connected b' st) = with_connected b st.
Proof. reflexivity. Qed.

Lemma connection_effects (cbs : list conn_callback) :
  Forall exit_effect ((fun cb => EConnection cb false) <$> cbs).
Proof. induction cbs; constructor; simpl; auto. Qed.

Lemma ioloop_exit_eq reconnect e st :
  ioloop_exit reconnect e st
  = (if swallowed e then None else Some e,
     let st2 := _set_connected false
                  (emit [EClose]
                     (if swallowed e then st else _set_connected false st)) in
     if reconnect && _connection_started st
     then emit [EReconnect reconnect] st2 else st2).
Proof. destruct e; reflexivity. Qed.

(** What the [except] and [finally] clauses do: the flag goes down, the
    connection callbacks are told so, the transport is closed, and a
    reconnect is started when both [reconnect] and [_connection_started]
    hold; nothing else of the object changes. *)
Lemma ioloop_exit_frame reconnect e st :
  (ioloop_exit reconnect e st).1 = (if swallowed e then None else Some e)
  ∧ ∃ es, (ioloop_exit reconnect e st).2 = emit es (with_connected false st)
          ∧ Forall exit_effect es
          ∧ EClose ∈ es
          ∧ (∀ cb, cb ∈ _connection_callbacks st → EConnection cb false ∈ es)
          ∧ (EReconnect reconnect ∈ es ↔ reconnect && _connection_started st = true).
Proof.
  rewrite ioloop_exit_eq. split; [done|]. simpl.
  set (down := (fun cb => EConnection cb false) <$> _connection_callbacks st).
  set (first := if swallowed e then [] else down).
  set (last := if reconnect && _connection_started st then [EReconnect reconnect] else []).
  exists (first ++ [EClose] ++ down ++ last).
  assert (Hdown : Forall exit_effect down) by apply connection_effects.
  assert (Hfirst : Forall exit_effect first).
  { unfold first. destruct (swallowed e); [constructor|done]. }
  assert (Hlast : Forall exit_effect last).
  { unfold last. destruct (_ && _); repeat constructor. }
  split; [|split; [|split; [|split]]].
  - unfold first, last, down.
    destruct st as [q s c cc cs w ctl src v cn nf tr].
    destruct (swallowed e), (reconnect && _); simpl;
      unfold _set_connected, emit, with_trace, with_connected; simpl; f_equal;
      rewrite <- ?app_assoc; simpl; rewrite ?app_nil_r; done.
  - repeat (apply Forall_app; split); auto. repeat constructor.
  - set_solver.
  - intros cb Hcb. apply elem_of_app; right. apply elem_of_app; right.
    apply elem_of_app; left. unfold down. apply list_elem_of_fmap. eauto.
  - unfold last. split.
    + intros Hin. destruct (reconnect && _connection_started st); [done|].
      exfalso. rewrite app_nil_r in Hin.
      apply elem_of_app in Hin as [Hin|Hin].
      * unfold first in Hin. destruct (swallowed e); [by apply elem_of_nil in Hin|].
        unfold down in Hin. apply list_elem_of_fmap in Hin as (? & ? & ?). done.
      * apply elem_of_cons in Hin as [Hin|Hin]; [done|].
        unfold down in Hin. apply list_elem_of_fmap in Hin as (? & ? & ?). done.
    + intros ->. set_solver.
Qed.

Lemma exit_effects_resolve es : Forall exit_effect es → resolved es = [].
Proof.
  induction 1 as [|e es He _ IH]; [done|]. unfold resolved in *. simpl.
  by destruct e.
Qed.

Lemma resolved_app a b : resolved (a ++ b) = resolved a ++ resolved b.
Proof. unfold resolved. by rewrite omap_app. Qed.

Lemma fail_frame reconnect e st :
  ∃ es, fail reconnect e st
        = (Exited (if swallowed e then None else Some e),
           emit es (with_connected false st))
        ∧ Forall exit_effect es
        ∧ EClose ∈ es
        ∧ (∀ cb, cb ∈ _connection_callbacks st → EConnection cb false ∈ es)
        ∧ (EReconnect reconnect ∈ es ↔ reconnect && _connection_started st = true).
Proof.
  destruct (ioloop_exit_frame reconnect e st) as (Hr & es & Hst & Hrest).
  exists es. split; [|done]. unfold fail.
  destruct (ioloop_exit reconnect e st) as [r st']. simpl in *. by subst.
Qed.

(** C3 (as amended). Cancelling the session loop wherever it is
    suspended ends it with [CancelledError]: the transport is closed, the
    connected flag is cleared and every connection callback is called with
    false. No result slot is resolved by it and the command queue is left
    as it is, so the command in flight and the queued ones stay
    unresolved. [close], which clears [_connection_started] first, in
    addition starts no reconnect. *)
Theorem cancel_resolves_nothing reconnect status st :
  running status →
  (∃ st', step reconnect Cancel (status, st) = Some (Exited (Some CancelledError), st')
          ∧ connected st' = false
          ∧ _cmd_queue st' = _cmd_queue st
          ∧ resolved (trace st') = resolved (trace st)
          ∧ ∃ es, trace st' = trace st ++ es ∧ EClose ∈ es
                  ∧ ∀ cb, cb ∈ _connection_callbacks st → EConnection cb false ∈ es)
  ∧ (∃ st', close reconnect (status, st)
            = (Ret tt, (Exited (Some CancelledError), st'))
            ∧ connected st' = false
            ∧ _cmd_queue st' = _cmd_queue st
            ∧ resolved (trace st') = resolved (trace st)
            ∧ ∃ es, trace st' = trace st ++ es ∧ EClose ∈ es
                    ∧ (EReconnect reconnect ∉ es)
                    ∧ ∀ cb, cb ∈ _connection_callbacks st → EConnection cb false ∈ es).
Proof.
  intros Hrun. split.
  - destruct (fail_frame reconnect CancelledError st) as (es & Hf & Hes & Hc & Hcb & _).
    exists (emit es (with_connected false st)).
    split; [by destruct status as [[]| |[]|]; simpl in *; rewrite ?Hf|].
    simpl. split; [done|]. split; [done|]. split.
    + by rewrite resolved_app, (exit_effects_resolve es), app_nil_r.
    + eauto.
  - destruct (fail_frame reconnect CancelledError (with_connection_started false st))
      as (es & Hf & Hes & Hc & Hcb & Hre).
    set (down := (fun cb => EConnection cb false) <$> _connection_callbacks st).
    exists (emit (es ++ down) (with_connected false (with_connection_started false st))).
    split.
    { unfold close.
      destruct status as [[]| |[]|]; simpl in Hrun; try done;
        rewrite Hf, set_connected_eq; simpl;
        by rewrite with_connected_emit, with_connected_twice, emit_emit. }
    simpl. split; [done|]. split; [done|]. split.
    + rewrite !resolved_app, (exit_effects_resolve es) by done.
      rewrite (exit_effects_resolve down) by apply connection_effects.
      by rewrite !app_nil_r.
    + exists (es ++ down). split; [done|]. split; [apply elem_of_app; by left|]. split.
      * intros Hin. apply elem_of_app in Hin as [Hin|Hin].
        -- apply Hre in Hin. simpl in Hin. by rewrite andb_false_r in Hin.
        -- unfold down in Hin. apply list_elem_of_fmap in Hin as (? & ? & ?). done.
      * intros cb Hin. apply elem_of_app. left. by apply Hcb.
Qed.

Lemma blank_line res st :
  Py.strip res = "" → _process_response res st = (Ret (None, None), st).
Proof. intros Hs. unfold _process_response. by rewrite Hs. Qed.

(** C4 (as amended). A read that raises, in [asyncio.wait] or in the
    inner await, and a [drain] that raises, end the session loop: the
    connected flag is cleared, every connection callback is called with
    false, the transport is closed, and a reconnect is started exactly when
    [reconnect] was asked for and [close] has not cleared
    [_connection_started]. A blank line, which is what a read gives at end of
    stream, is no such failure: the loop takes it as a line without content,
    changes nothing and goes on reading, with or without a command in
    flight. *)
Theorem read_failure_ends_loop reconnect st e :
  (∀ status, reading status →
     ∃ es, step reconnect (Net (RFail e)) (status, st)
           = Some (Exited (if swallowed e then None else Some e),
                   emit es (with_connected false st))
           ∧ EClose ∈ es
           ∧ (∀ cb, cb ∈ _connection_callbacks st → EConnection cb false ∈ es)
           ∧ (EReconnect reconnect ∈ es ↔ reconnect && _connection_started st = true))
  ∧ (∀ fut,
       ∃ es, step reconnect (Drained (Some e)) (AtDrain fut, st)
             = Some (Exited (if swallowed e then None else Some e),
                     emit es (with_connected false st))
             ∧ EClose ∈ es
             ∧ (∀ cb, cb ∈ _connection_callbacks st → EConnection cb false ∈ es)
             ∧ (EReconnect reconnect ∈ es ↔ reconnect && _connection_started st = true))
  ∧ (∀ res, Py.strip res = "" →
       step reconnect (Net (RLine res)) (AtWait None, st) = Some (AtWait None, st)
       ∧ ∀ queue_future fut n,
           run reconnect (replicate n (Net (RLine res))) (AtRead queue_future fut, st)
           = Some (AtRead queue_future fut, st)).
Proof.
  destruct (fail_frame reconnect e st) as (es & Hf & _ & Hc & Hcb & Hre).
  split; [|split].
  - intros status Hrd. exists es. split; [|done].
    destruct status as [[item|]| |qf fut|]; simpl in Hrd; try done; simpl;
      by rewrite Hf.
  - intros fut. exists es. split; [|done]. simpl. by rewrite Hf.
  - intros res Hs. split.
    + simpl. by rewrite (blank_line res st Hs).
    + intros qf fut n. induction n as [|n IH]; [done|].
      simpl. unfold on_reply. rewrite (blank_line res st Hs). simpl.
      exact IH.
Qed.

(** ** Traces of the session loop *)

Lemma puts_app a b : puts (a ++ b) = puts a ++ puts b.
Proof. unfold puts. by rewrite omap_app. Qed.

Lemma writes_app a b : writes (a ++ b) = writes a ++ writes b.
Proof. unfold writes. by rewrite omap_app. Qed.

Lemma slot_app cur a b : slot cur (a ++ b) = slot cur a ≫= fun o => slot o b.
Proof.
  revert cur. induction a as [|e a IH]; intros cur; [done|].
  destruct e; simpl; try apply IH.
  - destruct cur; [done|apply IH].
  - destruct cur as [g|]; [|done]. case_decide; [apply IH|done].
Qed.

Lemma quiet_puts es : Forall quiet es → puts es = [].
Proof. induction 1 as [|e es He _ IH]; [done|]. by destruct e. Qed.

Lemma quiet_writes es : Forall quiet es → writes es = [].
Proof. induction 1 as [|e es He _ IH]; [done|]. by destruct e. Qed.

Lemma quiet_slot cur es : Forall quiet es → slot cur es = Some cur.
Proof. induction 1 as [|e es He _ IH]; [done|]. by destruct e. Qed.

Lemma quiet_elem es e : Forall quiet es → e ∈ es → quiet e.
Proof. rewrite Forall_forall. auto. Qed.

Lemma slot_resolve f l :
  slot (Some f) l = Some None → ∃ b r c, l = b ++ EResolve f r :: c.
Proof.
  induction l as [|e l IH]; [done|]. intros Hs.
  destruct e; simpl in Hs; try done;
    try (destruct (IH Hs) as (b & r & c & ->);
         by eexists (_ :: b), r, c).
  case_decide; [|done]. subst. by eexists [], _, l.
Qed.

Lemma writes_elem f l : f ∈ writes l → ∃ a d b, l = a ++ EWrite d f :: b.
Proof.
  induction l as [|e l IH]; [by intros ?%elem_of_nil|].
  intros Hf.
  assert (Hcase : (∃ d, e = EWrite d f) ∨ f ∈ writes l).
  { destruct e; simpl in Hf; auto.
    apply elem_of_cons in Hf as [->|Hf]; eauto. }
  destruct Hcase as [[d ->]|Hin].
  - by exists [], d, l.
  - destruct (IH Hin) as (a & d & b & ->). by exists (e :: a), d, b.
Qed.

Lemma NoDup_split_unique {A} (a b a' b' : list A) x :
  NoDup (a ++ x :: b) → a ++ x :: b = a' ++ x :: b' → a = a'.
Proof.
  revert a'. induction a as [|y a IH]; intros a' Hnd Heq.
  - destruct a' as [|y' a']; [done|]. simpl in *. simplify_eq.
    apply NoDup_cons in Hnd as [Hx _]. exfalso. apply Hx.
    apply elem_of_app. right. by left.
  - destruct a' as [|y' a']; simpl in *; simplify_eq.
    + apply NoDup_cons in Hnd as [Hx _]. exfalso. apply Hx.
      apply elem_of_app. right. by left.
    + apply NoDup_cons in Hnd as [_ Hnd]. f_equal. by eapply IH.
Qed.

Lemma slot_in_flight cur l o :
  slot cur l = Some o → in_flight (option_list cur) l = option_list o.
Proof.
  revert cur. induction l as [|e l IH]; intros cur Hs; simpl in *; [by simplify_eq|].
  destruct e; try (by apply IH).
  - destruct cur; [done|]. by apply (IH (Some fut)).
  - destruct cur as [g|]; [|done]. case_decide; [|done]. subst. simpl.
    rewrite filter_cons_False by (intros Hn; by apply Hn).
    rewrite filter_nil. by apply (IH None).
Qed.

(** A trace that the slot accepts keeps at most one command in flight
    at each of its points. *)
Lemma slot_single_flight tr p :
  is_Some (slot None tr) → p `prefix_of` tr → (length (in_flight [] p) ≤ 1)%nat.
Proof.
  intros [o Ho] [q ->]. rewrite slot_app in Ho.
  destruct (slot None p) as [o'|] eqn:Hp; [|done].
  pose proof (slot_in_flight None p o' Hp) as Hfl. simpl in Hfl.
  rewrite Hfl. destruct o'; simpl; lia.
Qed.

(** In a trace that the slot accepts, where futures are queued once and
    written in the order they were queued: a future queued before another
    one is written, and then resolved, before the other one is written. *)
Lemma slot_fifo tr pre c1 f1 mid c2 f2 post before d2 after :
  NoDup (puts tr) → writes tr `prefix_of` puts tr → is_Some (slot None tr) →
  tr = pre ++ EPut c1 f1 :: mid ++ EPut c2 f2 :: post →
  tr = before ++ EWrite d2 f2 :: after →
  ∃ a d1 b r c, before = a ++ EWrite d1 f1 :: b ++ EResolve f1 r :: c.
Proof.
  intros Hnd [k Hk] [o Ho] Hputs Hwr.
  assert (Hp : puts tr = (puts pre ++ f1 :: puts mid) ++ f2 :: puts post).
  { rewrite Hputs, !puts_app. simpl. rewrite puts_app. simpl.
    by rewrite <- app_assoc. }
  assert (Hw : puts tr = writes before ++ f2 :: (writes after ++ k)).
  { rewrite Hk. rewrite Hwr at 1. rewrite writes_app. simpl.
    by rewrite <- app_assoc. }
  assert (Heq : puts pre ++ f1 :: puts mid = writes before).
  { eapply NoDup_split_unique; [|by rewrite <- Hp, <- Hw]. by rewrite <- Hp. }
  assert (Hin : f1 ∈ writes before).
  { rewrite <- Heq. apply elem_of_app. right. by left. }
  destruct (writes_elem _ _ Hin) as (a & d1 & b' & Hb).
  rewrite Hwr, slot_app in Ho.
  destruct (slot None before) as [[g|]|] eqn:Hsb; simpl in Ho; try done.
  rewrite Hb, slot_app in Hsb.
  destruct (slot None a) as [[g|]|] eqn:Hsa; simpl in Hsb; try done.
  destruct (slot_resolve _ _ Hsb) as (b & r & c & ->).
  by exists a, d1, b, r, c.
Qed.

(** ** The invariant of the session loop *)

Lemma quiet_step_refl st : quiet_step st st.
Proof. repeat split. exists []. by rewrite app_nil_r. Qed.

Lemma quiet_step_trans st1 st2 st3 :
  quiet_step st1 st2 → quiet_step st2 st3 → quiet_step st1 st3.
Proof.
  intros (Hq1 & Hn1 & es1 & Ht1 & He1) (Hq2 & Hn2 & es2 & Ht2 & He2).
  split; [congruence|]. split; [congruence|].
  exists (es1 ++ es2). split; [by rewrite Ht2, Ht1, app_assoc|].
  by apply Forall_app.
Qed.

Lemma process_response_quiet res st : quiet_step st (_process_response res st).2.
Proof.
  destruct (process_response_frame res st) as (es & m & -> & Hes).
  repeat split. exists es. split; [done|].
  eapply Forall_impl; [exact Hes|]. by intros [].
Qed.

Lemma fail_quiet reconnect e st : quiet_step st (fail reconnect e st).2.
Proof.
  destruct (fail_frame reconnect e st) as (es & -> & Hes & _).
  repeat split. exists es. split; [done|].
  eapply Forall_impl; [exact Hes|]. by intros [| | [] | | | | | | |].
Qed.

Lemma on_push_quiet r st : quiet_step st (on_push r st).2.
Proof.
  destruct r as [res|e]; simpl; [|apply quiet_step_refl].
  pose proof (process_response_quiet res st) as Hq.
  destruct (_process_response res st) as [[a|[]] st']; exact Hq.
Qed.

Lemma written_ok_quiet tr es : written_ok tr → Forall quiet es → written_ok (tr ++ es).
Proof.
  intros Hw Hes d f Hin. apply elem_of_app in Hin as [Hin|Hin].
  - destruct (Hw d f Hin) as (c & -> & Hc). exists c. split; [done|].
    apply elem_of_app. by left.
  - by apply (quiet_elem es _ Hes) in Hin.
Qed.

Lemma announced_mono tr es items : announced tr items → announced (tr ++ es) items.
Proof.
  unfold announced. intros Ha. eapply Forall_impl; [exact Ha|].
  intros item Hin. apply elem_of_app. by left.
Qed.

Lemma Inv_quiet s st st' : Inv s st → quiet_step st st' → Inv s st'.
Proof.
  intros (Hnd & Hlt & Hw & Hs) (Hq & Hn & es & Ht & Hes).
  unfold Inv. rewrite Ht, Hq, Hn, puts_app, writes_app, slot_app.
  rewrite (quiet_puts es Hes), (quiet_writes es Hes), !app_nil_r.
  split; [done|]. split; [done|]. split; [by apply written_ok_quiet|].
  destruct s as [qf|f|qf f|r].
  1-3: destruct Hs as (Hp & Hsl & Han);
       (split; [done|]; split; [|by apply announced_mono]);
       rewrite Hsl; simpl; by apply quiet_slot.
  destruct Hs as (Hp & o & Ho). split; [done|]. rewrite Ho. simpl.
  rewrite quiet_slot; eauto.
Qed.

Lemma Inv_exit s r st : Inv s st → Inv (Exited r) st.
Proof.
  intros (Hnd & Hlt & Hw & Hs). split; [done|]. split; [done|]. split; [done|].
  destruct s; [| | |done]; destruct Hs as (Hp & Hsl & _);
    (split; [rewrite Hp; by eexists|by rewrite Hsl]).
Qed.

Lemma Inv_fail reconnect e s st :
  Inv s st → Inv (fail reconnect e st).1 (fail reconnect e st).2.
Proof.
  intros HI. pose proof (fail_quiet reconnect e st) as Hq.
  destruct (fail_frame reconnect e st) as (es & Hf & _).
  rewrite Hf in *. simpl in *.
  eapply Inv_quiet; [|exact Hq]. by eapply Inv_exit.
Qed.

Lemma Inv_put s cmd st : Inv s st → Inv s (cmd_put cmd st).2.
Proof.
  intros (Hnd & Hlt & Hw & Hs). unfold Inv. simpl.
  rewrite puts_app, writes_app, slot_app. simpl. rewrite !app_nil_r.
  assert (Hfresh : next_future st ∉ puts (trace st)).
  { intros Hin. rewrite Forall_forall in Hlt. specialize (Hlt _ Hin). lia. }
  split; [|split; [|split]].
  - apply NoDup_app. split; [done|]. split; [|apply NoDup_singleton].
    intros f Hf ->%list_elem_of_singleton. done.
  - apply Forall_app. split.
    + eapply Forall_impl; [exact Hlt|]. simpl. lia.
    + constructor; [lia|constructor].
  - intros d f Hin. apply elem_of_app in Hin as [Hin|Hin].
    + destruct (Hw d f Hin) as (c & -> & Hc). exists c. split; [done|].
      apply elem_of_app. by left.
    + apply list_elem_of_singleton in Hin. done.
  - assert (Hnew : EPut cmd (next_future st)
                     ∈ trace st ++ [EPut cmd (next_future st)]).
    { apply elem_of_app. right. by left. }
    destruct s as [qf|f|qf f|r].
    1-3: destruct Hs as (Hp & Hsl & Han);
         (split; [rewrite Hp, !fmap_app; simpl; by rewrite <- !app_assoc|];
          split; [by rewrite Hsl|];
          unfold announced; rewrite app_assoc; apply Forall_app; split;
          [by apply announced_mono|by constructor]).
    destruct Hs as ([k Hk] & o & Ho). split; [|rewrite Ho; simpl; eauto].
    rewrite Hk. exists (k ++ [next_future st]). by rewrite app_assoc.
Qed.

Lemma Inv_write c f st :
  Inv (AtWait (Some (c, f))) st → Inv (AtDrain f) (emit [EWrite (c +:+ CR) f] st).
Proof.
  intros (Hnd & Hlt & Hw & Hp & Hsl & Han). unfold Inv. simpl in *.
  rewrite puts_app, writes_app, slot_app, Hsl. simpl. rewrite !app_nil_r.
  inversion Han as [|item items Hc Hq]; subst. simpl in Hc.
  split; [done|]. split; [done|]. split; [|split; [|split]].
  - intros d g Hin. apply elem_of_app in Hin as [Hin|Hin].
    + destruct (Hw d g Hin) as (c' & -> & Hc'). exists c'. split; [done|].
      apply elem_of_app. by left.
    + apply list_elem_of_singleton in Hin. simplify_eq. exists c.
      split; [done|]. apply elem_of_app. by left.
  - by rewrite Hp, <- app_assoc.
  - done.
  - by apply announced_mono.
Qed.

Lemma Inv_resolve queue_future f r st :
  Inv (AtRead queue_future f) st →
  Inv (AtWait queue_future) (emit [EResolve f r] st).
Proof.
  intros (Hnd & Hlt & Hw & Hp & Hsl & Han). unfold Inv. simpl in *.
  rewrite puts_app, writes_app, slot_app, Hsl. simpl. rewrite !app_nil_r.
  rewrite decide_True by done.
  split; [done|]. split; [done|]. split; [|split; [|split]].
  - intros d g Hin. apply elem_of_app in Hin as [Hin|Hin].
    + destruct (Hw d g Hin) as (c & -> & Hc). exists c. split; [done|].
      apply elem_of_app. by left.
    + by apply list_elem_of_singleton in Hin.
  - destruct queue_future; exact Hp.
  - done.
  - apply announced_mono. destruct queue_future; exact Han.
Qed.

Lemma Inv_get item s s' st st' :
  take_head st = Some (item, st') →
  (s = AtWait None ∧ s' = AtWait (Some item)
   ∨ ∃ f, s = AtRead None f ∧ s' = AtRead (Some item) f) →
  Inv s st → Inv s' st'.
Proof.
  unfold take_head. destruct (_cmd_queue st) as [|item' q] eqn:Eq; [done|].
  intros [= -> <-] Hs (Hnd & Hlt & Hw & Hinv). unfold Inv. simpl.
  split; [done|]. split; [done|]. split; [done|].
  destruct Hs as [[-> ->]|(f & -> & ->)]; simpl in *; by rewrite Eq in Hinv.
Qed.

Lemma Inv_on_reply reconnect queue_future f r st :
  Inv (AtRead queue_future f) st →
  Inv (on_reply reconnect queue_future f r st).1
      (on_reply reconnect queue_future f r st).2.
Proof.
  intros HI. unfold on_reply. destruct r as [res|e]; [|by eapply Inv_fail].
  pose proof (process_response_quiet res st) as Hq.
  destruct (_process_response res st) as [[[ty value]|e] st']. simpl in Hq.
  - pose proof (Inv_quiet _ _ _ HI Hq) as HI'.
    case_decide; simpl; [by apply Inv_resolve|done].
  - simpl in Hq. pose proof (Inv_quiet _ _ _ HI Hq) as HI'.
    destruct e; try (by eapply Inv_fail). simpl. by apply Inv_resolve.
Qed.

Lemma Inv_on_push reconnect s r st :
  Inv s st →
  match on_push r st with
  | (Ret _, st') => Inv s st'
  | (Raise e, st') => Inv (fail reconnect e st').1 (fail reconnect e st').2
  end.
Proof.
  intros HI. pose proof (on_push_quiet r st) as Hq.
  destruct (on_push r st) as [[[]|e] st']; simpl in Hq.
  - by eapply Inv_quiet.
  - eapply Inv_fail. by eapply Inv_quiet.
Qed.

(** Every transition keeps the invariant. *)
Lemma step_Inv reconnect ev s st s' st' :
  Inv s st → step reconnect ev (s, st) = Some (s', st') → Inv s' st'.
Proof.
  intros HI Hstep. unfold step in Hstep.
  destruct ev as [cmd| |r| |[e|]|].
  - simplify_eq. by apply Inv_put.
  - destruct s as [[item|]|f|[item|] f|r]; try done.
    + destruct (take_head st) as [[item st1]|] eqn:Eh; [|done]. simpl in Hstep.
      simplify_eq. eapply Inv_get; [exact Eh| |exact HI]. by left.
    + destruct (take_head st) as [[item st1]|] eqn:Eh; [|done]. simpl in Hstep.
      simplify_eq. eapply Inv_get; [exact Eh| |exact HI]. right. by exists f.
  - destruct s as [[[c f]|]|f|qf f|r0]; try done.
    + pose proof (Inv_on_push reconnect _ r st HI) as Hp.
      destruct (on_push r st) as [[[]|e] st1]; simplify_eq.
      * unfold on_command in Hstep. simplify_eq. by apply Inv_write.
      * destruct (fail reconnect e st1); simplify_eq. exact Hp.
    + pose proof (Inv_on_push reconnect _ r st HI) as Hp.
      destruct (on_push r st) as [[[]|e] st1]; simplify_eq; [done|].
      destruct (fail reconnect e st1); simplify_eq. exact Hp.
    + pose proof (Inv_on_reply reconnect qf f r st HI) as Hp.
      destruct (on_reply reconnect qf f r st); simplify_eq. exact Hp.
  - destruct s as [[[c f]|]|f|qf f|r0]; try done.
    unfold on_command in Hstep. simplify_eq. by apply Inv_write.
  - destruct s as [qf|f|qf f|r0]; try done.
    pose proof (Inv_fail reconnect e _ st HI) as Hp.
    destruct (fail reconnect e st); simplify_eq. exact Hp.
  - destruct s as [qf|f|qf f|r0]; try done. simplify_eq.
    destruct HI as (Hnd & Hlt & Hw & Hinv). repeat split; try done; apply Hinv.
  - destruct s as [qf|f|qf f|r0]; simplify_eq; try done;
      pose proof (Inv_fail reconnect CancelledError _ st HI) as Hp;
      destruct (fail reconnect CancelledError st); simplify_eq; exact Hp.
Qed.

Lemma run_cons reconnect ev evs c :
  run reconnect (ev :: evs) c = step reconnect ev c ≫= run reconnect evs.
Proof. reflexivity. Qed.

Lemma run_app reconnect evs1 evs2 c :
  run reconnect (evs1 ++ evs2) c = run reconnect evs1 c ≫= run reconnect evs2.
Proof.
  revert c. induction evs1 as [|ev evs1 IH]; intros c; [done|].
  rewrite <- app_comm_cons, !run_cons.
  destruct (step reconnect ev c) as [c1|]; [apply IH|done].
Qed.

Lemma run_Inv reconnect evs s st s' st' :
  Inv s st → run reconnect evs (s, st) = Some (s', st') → Inv s' st'.
Proof.
  revert s st. induction evs as [|ev evs IH]; intros s st HI Hrun.
  - simpl in Hrun. by simplify_eq.
  - rewrite run_cons in Hrun.
    destruct (step reconnect ev (s, st)) as [[s1 st1]|] eqn:Es; [|done].
    eapply IH; [|exact Hrun]. by eapply step_Inv.
Qed.

Lemma Inv_init st : trace st = [] → _cmd_queue st = [] → Inv (AtWait None) st.
Proof.
  intros Ht Hq. unfold Inv. rewrite Ht, Hq. simpl.
  split; [constructor|]. split; [constructor|]. split.
  - by intros d f ?%elem_of_nil.
  - repeat split. constructor.
Qed.

Lemma puts_elem c f tr : EPut c f ∈ tr → f ∈ puts tr.
Proof.
  induction tr as [|e tr IH]; [by intros ?%elem_of_nil|].
  intros [He|Hin]%elem_of_cons; [subst e; by left|].
  specialize (IH Hin). destruct e; simpl; auto. by right.
Qed.

Lemma puts_unique c c' f tr :
  NoDup (puts tr) → EPut c f ∈ tr → EPut c' f ∈ tr → c = c'.
Proof.
  induction tr as [|e tr IH]; [by intros _ ?%elem_of_nil|].
  intros Hnd H1 H2.
  apply elem_of_cons in H1 as [H1|H1]; apply elem_of_cons in H2 as [H2|H2].
  - by simplify_eq.
  - subst e. simpl in Hnd. apply NoDup_cons in Hnd as [Hf _].
    exfalso. apply Hf. by eapply puts_elem.
  - subst e. simpl in Hnd. apply NoDup_cons in Hnd as [Hf _].
    exfalso. apply Hf. by eapply puts_elem.
  - apply IH; [|done|done]. destruct e; simpl in Hnd; try done.
    by apply NoDup_cons in Hnd as [_ Hnd].
Qed.

(** C2 (as amended). In every run of one loop, started on an object with
    an empty queue and nothing done before and followed up to the end of
    that loop, for two commands queued by [send_cmd] one before the other:
    if the later one is written to the transport, the earlier one was
    written before it and its result slot was resolved before that write. At
    every point of the run at most one command is in flight. What is written
    for a future is the text queued with it, followed by a carriage return.
    This does not carry across a reconnect, where the loop that is spawned
    writes the next command with the one of the ended loop unresolved. *)
Theorem fifo_single_flight reconnect evs st0 status st :
  trace st0 = [] → _cmd_queue st0 = [] →
  run reconnect evs (AtWait None, st0) = Some (status, st) →
  (∀ pre c1 f1 mid c2 f2 post before d2 after,
     trace st = pre ++ EPut c1 f1 :: mid ++ EPut c2 f2 :: post →
     trace st = before ++ EWrite d2 f2 :: after →
     ∃ a b r c, before = a ++ EWrite (c1 +:+ CR) f1 :: b ++ EResolve f1 r :: c)
  ∧ (∀ p, p `prefix_of` trace st → (length (in_flight [] p) ≤ 1)%nat)
  ∧ (∀ d f, EWrite d f ∈ trace st → ∃ c, d = c +:+ CR ∧ EPut c f ∈ trace st).
Proof.
  intros Ht Hq Hrun.
  pose proof (run_Inv reconnect evs _ _ _ _ (Inv_init st0 Ht Hq) Hrun)
    as (Hnd & Hlt & Hw & Hinv).
  assert (Hpre : writes (trace st) `prefix_of` puts (trace st)
                 ∧ is_Some (slot None (trace st))).
  { destruct status as [qf|f|qf f|r]; [| | |done];
      destruct Hinv as (Hp & Hsl & _); (split; [rewrite Hp; by eexists|by rewrite Hsl]). }
  destruct Hpre as [Hpre Hsl].
  split; [|split].
  - intros pre c1 f1 mid c2 f2 post before d2 after Hputs Hwr.
    destruct (slot_fifo (trace st) pre c1 f1 mid c2 f2 post before d2 after
                Hnd Hpre Hsl Hputs Hwr) as (a & d1 & b & r & c & ->).
    exists a, b, r, c.
    assert (Hd1 : EWrite d1 f1 ∈ trace st).
    { rewrite Hwr. apply elem_of_app. left. apply elem_of_app. right. by left. }
    destruct (Hw d1 f1 Hd1) as (c1' & -> & Hc1').
    assert (Hc1 : EPut c1 f1 ∈ trace st).
    { rewrite Hputs. apply elem_of_app. right. by left. }
    by rewrite (puts_unique _ _ _ _ Hnd Hc1 Hc1').
  - intros p Hp. by eapply slot_single_flight.
  - exact Hw.
Qed.

(** ** What holds of C1 and C7 when no store raises *)

Lemma fan_out_effects_emit d k v zs es st :
  fan_out_effects d k v zs (emit es st) = fan_out_effects d k v zs st.
Proof. reflexivity. Qed.

Lemma fan_out_effects_cons d k v z zs st :
  fan_out_effects d k v (z :: zs) st
  = match Zone_fetch_current_source z st with
    | Ret source =>
        if decide (Source_device_str source = d)
        then (fun cb => ECallback cb d k v) <$> callbacks_of (Zone_device_str z) st
        else []
    | Raise _ => []
    end ++ fan_out_effects d k v zs st.
Proof. reflexivity. Qed.

Lemma fan_out_returns d k v zs st st' :
  fan_out d k v zs st = (Ret tt, st') → st' = emit (fan_out_effects d k v zs st) st.
Proof.
  revert st. induction zs as [|z zs IH]; intros st Hf; simpl in Hf.
  - unfold ret in Hf. simplify_eq. simpl. by rewrite emit_nil.
  - rewrite fan_out_effects_cons.
    destruct (Zone_fetch_current_source z st) as [src|e]; [|done].
    unfold bind in Hf. case_decide.
    + rewrite fire_eq in Hf. apply IH in Hf.
      by rewrite Hf, fan_out_effects_emit, emit_emit.
    + unfold ret in Hf. apply IH in Hf. by rewrite Hf.
Qed.

(** When a store returns, the trace has gained the write, then the calls
    of the callbacks registered for the device, in registration order, then,
    for a device whose identifier begins with [S], the calls of the callbacks
    of every known zone whose current source has that identifier. *)
Lemma store_returns c d k v st st' :
  _store_cached_variable (String c d) k v st = (Ret tt, st') →
  trace st'
  = trace st
    ++ EStore (String c d) (Py.lower k) v
       :: ((fun cb => ECallback cb (String c d) (Py.lower k) v)
             <$> callbacks_of (String c d) st)
       ++ (if Ascii.eqb c "S"
           then fan_out_effects (String c d) (Py.lower k) v (known_zones st) st'
           else []).
Proof.
  unfold _store_cached_variable, bind, modify. simpl. rewrite emit_emit.
  destruct (Ascii.eqb c "S").
  - intros Hf. apply fan_out_returns in Hf. subst st'.
    rewrite fan_out_effects_emit. simpl. by rewrite <- app_assoc.
  - intros [= <-]. simpl. by rewrite app_nil_r.
Qed.

Lemma pass_by_run reconnect queue_future fut lines st st1 :
  pass_by lines st = Some st1 →
  run reconnect (Net ∘ RLine <$> lines) (AtRead queue_future fut, st)
  = Some (AtRead queue_future fut, st1).
Proof.
  revert st. induction lines as [|l lines IH]; intros st Hp; simpl in Hp.
  - by simplify_eq.
  - rewrite fmap_cons, run_cons. simpl. unfold on_reply.
    destruct (_process_response l st) as [[[ty value]|e] st']; [|done].
    case_decide; [done|]. simpl. by apply IH.
Qed.

Lemma quiet_step_resolved st st' :
  quiet_step st st' → resolved (trace st') = resolved (trace st).
Proof.
  intros (_ & _ & es & -> & Hes). rewrite resolved_app.
  assert (resolved es = []) as ->; [|by rewrite app_nil_r].
  induction Hes as [|e es He _ IH]; [done|]. by destruct e.
Qed.

Lemma pass_by_quiet lines st st1 : pass_by lines st = Some st1 → quiet_step st st1.
Proof.
  revert st. induction lines as [|l lines IH]; intros st Hp; simpl in Hp.
  - simplify_eq. apply quiet_step_refl.
  - pose proof (process_response_quiet l st) as Hq.
    destruct (_process_response l st) as [[[ty value]|e] st']; [|done].
    case_decide; [done|]. eapply quiet_step_trans; [exact Hq|by apply IH].
Qed.

(** Reply correlation when no store raises: after lines that leave the
    command in flight, the first line that the parser returns with tag [S],
    or that has tag [E], resolves the slot, with that line's value or
    message, and the loop is back in [asyncio.wait]; the stores of the lines
    are in the trace before the resolution, which is the only one the run
    adds. *)
Lemma reply_resolves_once reconnect queue_future fut lines last st st1 :
  pass_by lines st = Some st1 →
  (∀ value st2, _process_response last st1 = (Ret (Some "S"%char, value), st2) →
     run reconnect (Net ∘ RLine <$> lines ++ [last]) (AtRead queue_future fut, st)
     = Some (AtWait queue_future, emit [EResolve fut (ROk value)] st2)
     ∧ resolved (trace (emit [EResolve fut (ROk value)] st2))
       = resolved (trace st) ++ [fut])
  ∧ (∀ rest, Py.strip last = String "E" rest →
       run reconnect (Net ∘ RLine <$> lines ++ [last]) (AtRead queue_future fut, st)
       = Some (AtWait queue_future,
               emit [EResolve fut (RErr (Py.drop 2 (String "E" rest)))] st1)
       ∧ resolved (trace (emit [EResolve fut (RErr (Py.drop 2 (String "E" rest)))] st1))
         = resolved (trace st) ++ [fut]).
Proof.
  intros Hp. pose proof (quiet_step_resolved _ _ (pass_by_quiet _ _ _ Hp)) as Hr1.
  split.
  - intros value st2 Hl. split.
    + rewrite fmap_app, run_app, (pass_by_run _ _ _ _ _ _ Hp).
      simpl. unfold on_reply. rewrite Hl. by rewrite decide_True.
    + pose proof (quiet_step_resolved _ _ (process_response_quiet last st1)) as Hr2.
      rewrite Hl in Hr2. simpl in *. by rewrite resolved_app, Hr2, Hr1.
  - intros rest Hs. split.
    + rewrite fmap_app, run_app, (pass_by_run _ _ _ _ _ _ Hp).
      simpl. unfold on_reply, _process_response. by rewrite Hs.
    + simpl. by rewrite resolved_app, Hr1.
Qed.

End Theory.

(** * The engine on concrete sessions *)

Section Sessions.

Import RIO Scenario.

Lemma resolved_elem f r tr : EResolve f r ∈ tr → f ∈ resolved tr.
Proof.
  induction tr as [|e tr IH]; [by intros ?%elem_of_nil|].
  intros [He|Hin]%elem_of_cons; [subst e; by left|].
  specialize (IH Hin). destruct e; simpl; auto. by right.
Qed.

(** C1. The code breaks the claim on the reply to [GET S[1].name] when
    [enumerate_controllers] has run and [init_sources] has not: the command
    is written, its reply, the first line with tag [S] after the write, is
    read, the value is stored, and the source fan-out raises [KeyError] at
    zone 1, whose current source 1 is not among the sources. The loop ends
    with that exception and the command's slot is never resolved. *)
Theorem reply_lost_when_fan_out_raises :
  fst <$> run true get_source_name (AtWait None, enumerated)
  = Some (Exited (Some KeyError))
  ∧ (trace ∘ snd) <$> run true get_source_name (AtWait None, enumerated)
    = Some [EPut "GET S[1].name" 0%nat;
            EWrite ("GET S[1].name" +:+ CR) 0%nat;
            EStore "S[1]" "name" "Tuner";
            EClose; EReconnect true]
  ∧ (resolved ∘ trace ∘ snd) <$> run true get_source_name (AtWait None, enumerated)
    = Some []
  ∧ Py.strip name_reply = String "S" (Py.drop 1 name_reply).
Proof. repeat split; vm_compute; reflexivity. Qed.

(** C7. The code breaks the claim on a store for source 1 when zone 2,
    whose cached current source is 1, has callback 7 registered and zone 1,
    which comes first, is on source 2, which is not among the sources: the
    fan-out raises [KeyError] at zone 1 and callback 7 is never called. *)
Theorem fan_out_stops_at_unknown_source :
  Zone_fetch_current_source zone2 tuned = Ret (mkSource 1)
  ∧ Source_device_str (mkSource 1) = "S[1]"
  ∧ callbacks_of (Zone_device_str zone2) tuned = [7%nat]
  ∧ known_zones tuned = [zone1; zone2]
  ∧ Zone_fetch_current_source zone1 tuned = Raise KeyError
  ∧ (_store_cached_variable "S[1]" "name" "x" tuned).1 = Raise KeyError
  ∧ trace (_store_cached_variable "S[1]" "name" "x" tuned).2
    = [EStore "S[1]" "name" "x"].
Proof. repeat split; vm_compute; reflexivity. Qed.

(** C2, as stated, fails across a reconnect: the connection is reset
    with [GET C[1].Z[1].name] in flight, the loop ends without resolving its
    slot, and the loop that the reconnect spawns writes the version query
    that [connect] has queued after it. The later command is written with
    the earlier one unresolved, and two commands are in flight. *)
Lemma reconnect_writes_past_unresolved :
  trace online = [] ∧ _cmd_queue online = []
  ∧ ∃ st pending,
      session true reconnect_session ((AtWait None, online), [])
      = Some ((AtDrain 1%nat, st), pending)
      ∧ in_flight [] (trace st) = [0%nat; 1%nat]
      ∧ resolved (trace st) = []
      ∧ ¬ fifo_order (trace st)
      ∧ ¬ single_flight (trace st).
Proof.
  split; [reflexivity|]. split; [reflexivity|].
  assert (Hs : (fun s : session_state => (s.1.1, trace s.1.2))
                 <$> session true reconnect_session ((AtWait None, online), [])
               = Some (AtDrain 1%nat,
                       [EPut "GET C[1].Z[1].name" 0%nat;
                        EWrite ("GET C[1].Z[1].name" +:+ CR) 0%nat;
                        EClose; EConnection 3%nat false; EReconnect true;
                        EOpen; ESpawn true; EPut "VERSION" 1%nat;
                        EWrite ("VERSION" +:+ CR) 1%nat]))
    by (vm_compute; reflexivity).
  destruct (session true reconnect_session ((AtWait None, online), []))
    as [[[status st] pending]|]; [|discriminate].
  simpl in Hs. injection Hs as -> Htr.
  exists st, pending. split; [reflexivity|].
  split; [by rewrite Htr|]. split; [by rewrite Htr|]. split.
  - intros Hfifo.
    destruct (Hfifo [] "GET C[1].Z[1].name" 0%nat (take 6 (drop 1 (trace st)))
                "VERSION" 1%nat (drop 8 (trace st)) (take 8 (trace st))
                ("VERSION" +:+ CR) [])
      as (a & b & r & c & Hbefore); [by rewrite Htr|by rewrite Htr|].
    assert (Hin : EResolve 0%nat r ∈ take 8 (trace st)).
    { rewrite Hbefore. apply elem_of_app. right. right.
      apply elem_of_app. right. by left. }
    rewrite Htr in Hin. simpl in Hin.
    repeat (apply elem_of_cons in Hin as [Hin|Hin]; [discriminate|]).
    by apply elem_of_nil in Hin.
  - intros Hone. specialize (Hone (trace st) (reflexivity _)).
    rewrite Htr in Hone. simpl in Hone. lia.
Qed.

(** C3, as stated, fails: with [GET C[1].Z[1].name] in flight, [close]
    ends the loop and the slot of the command is not resolved. *)
Lemma close_leaves_slot_unresolved :
  run true in_flight_events (AtWait None, online)
  = Some (AtRead None 0%nat, flying_state)
  ∧ ¬ close_resolves true (AtRead None 0%nat, flying_state) 0%nat.
Proof.
  split; [reflexivity|].
  intros (s' & st' & Hc & Hin).
  assert (Hres : resolved (trace (close true (AtRead None 0%nat, flying_state)).2.2)
                 = []) by (vm_compute; reflexivity).
  rewrite Hc in Hres. simpl in Hres. rewrite Hres in Hin.
  by apply elem_of_nil in Hin.
Qed.

(** C4, as stated, fails: on the empty line of an ended stream the loop
    neither ends nor clears the connected flag, idle or with a command in
    flight. *)
Lemma end_of_stream_keeps_loop :
  ¬ end_of_stream_aborts true (AtWait None, online)
  ∧ ¬ end_of_stream_aborts true (AtRead None 0%nat, flying_state)
  ∧ run true (replicate 3 (Net (RLine ""))) (AtRead None 0%nat, flying_state)
    = Some (AtRead None 0%nat, flying_state)
  ∧ connected flying_state = true.
Proof.
  split; [|split; [|split; reflexivity]].
  - intros (r & st' & Hs & _). vm_compute in Hs. discriminate.
  - intros (r & st' & Hs & _). vm_compute in Hs. discriminate.
Qed.

(** C8, as stated, fails: the reply to [GET S[1].name] has tag [S] and a
    source-addressed payload; the parser stores the value and returns it as
    a success, two results at once. The empty line gives [(None, None)],
    which is none of the four. *)
Lemma success_and_event_together :
  ¬ one_result name_reply init ∧ ¬ one_result "" init.
Proof.
  split.
  2:{ unfold one_result, exactly_one, is_success, is_error, is_event, is_unparsed.
      assert (Hr : _process_response "" init = (Ret (None, None), init))
        by reflexivity.
      rewrite Hr. simpl.
      intros [H|[H|[H|H]]].
      - destruct H as [[v Hv] _]. discriminate.
      - destruct H as (_ & [m Hm] & _). discriminate.
      - destruct H as (_ & _ & (d & k & v & Hin) & _). by apply elem_of_nil in Hin.
      - destruct H as (_ & _ & _ & ty & Hty & _). discriminate. }
  assert (Hs : is_success (_process_response name_reply init)).
  { exists (Some "Tuner"). vm_compute. reflexivity. }
  assert (He : is_event init (_process_response name_reply init)).
  { exists "S[1]", "name", "Tuner".
    assert (Ht : drop (length (trace init)) (trace (_process_response name_reply init).2)
                 = [EStore "S[1]" "name" "Tuner"]) by (vm_compute; reflexivity).
    rewrite Ht. by left. }
  unfold one_result, exactly_one. intros [H|[H|[H|H]]]; tauto.
Qed.

(** ** The general statements at concrete inputs *)

(** [fifo_single_flight] on two commands served in turn: the second is
    written after the first was written and resolved. *)
Lemma fifo_single_flight_witness :
  trace online = [] ∧ _cmd_queue online = []
  ∧ ∃ status st,
      run true two_commands (AtWait None, online) = Some (status, st)
      ∧ trace st
        = [] ++ EPut "GET C[1].Z[1].name" 0%nat
             :: [] ++ EPut "GET C[1].Z[1].volume" 1%nat
             :: drop 2 (trace st)
      ∧ trace st
        = take 6 (trace st) ++ EWrite ("GET C[1].Z[1].volume" +:+ CR) 1%nat
                               :: drop 7 (trace st)
      ∧ (∃ a b r c,
           take 6 (trace st)
           = a ++ EWrite ("GET C[1].Z[1].name" +:+ CR) 0%nat
               :: b ++ EResolve 0%nat r :: c)
      ∧ (∀ p, p `prefix_of` trace st → (length (in_flight [] p) ≤ 1)%nat)
      ∧ (∀ d f, EWrite d f ∈ trace st → ∃ c, d = c +:+ CR ∧ EPut c f ∈ trace st).
Proof.
  split; [reflexivity|]. split; [reflexivity|].
  assert (Hrun : ∃ c, run true two_commands (AtWait None, online) = Some c
                      ∧ trace c.2
                        = [EPut "GET C[1].Z[1].name" 0%nat;
                           EPut "GET C[1].Z[1].volume" 1%nat;
                           EWrite ("GET C[1].Z[1].name" +:+ CR) 0%nat;
                           EStore "C[1].Z[1]" "bass" "2";
                           EStore "C[1].Z[1]" "name" "Kitchen";
                           EResolve 0%nat (ROk (Some "Kitchen"));
                           EWrite ("GET C[1].Z[1].volume" +:+ CR) 1%nat;
                           EResolve 1%nat (RErr "Invalid argument")])
    by (eexists; split; vm_compute; reflexivity).
  destruct Hrun as ([status st] & Hrun & Htr). simpl in Htr.
  exists status, st. split; [exact Hrun|].
  assert (Hputs : trace st
                  = [] ++ EPut "GET C[1].Z[1].name" 0%nat
                       :: [] ++ EPut "GET C[1].Z[1].volume" 1%nat
                       :: drop 2 (trace st)) by (rewrite Htr; reflexivity).
  assert (Hwr : trace st
                = take 6 (trace st)
                  ++ EWrite ("GET C[1].Z[1].volume" +:+ CR) 1%nat
                     :: drop 7 (trace st)) by (rewrite Htr; reflexivity).
  destruct (fifo_single_flight true two_commands online status st
              eq_refl eq_refl Hrun) as (Hfifo & Hone & Hw).
  split; [exact Hputs|]. split; [exact Hwr|].
  split; [exact (Hfifo _ _ _ _ _ _ _ _ _ _ Hputs Hwr)|].
  split; [exact Hone|exact Hw].
Defined.

(** [cancel_resolves_nothing] with a command in flight. *)
Lemma cancel_resolves_nothing_witness :
  running (AtRead None 0%nat)
  ∧ ∃ st', step true Cancel (AtRead None 0%nat, flying_state)
           = Some (Exited (Some CancelledError), st')
           ∧ connected st' = false
           ∧ resolved (trace st') = resolved (trace flying_state).
Proof.
  split; [exact I|].
  destruct (cancel_resolves_nothing true (AtRead None 0%nat) flying_state I)
    as [(st' & Hstep & Hc & _ & Hres & _) _].
  exists st'. split; [exact Hstep|]. split; [exact Hc|exact Hres].
Defined.

(** [read_failure_ends_loop] on a connection reset and on an empty line. *)
Lemma read_failure_ends_loop_witness :
  reading (AtWait None) ∧ Py.strip "" = ""
  ∧ (∃ es, step true (Net (RFail ConnectionResetError)) (AtWait None, online)
           = Some (Exited None, emit es (with_connected false online))
           ∧ EClose ∈ es)
  ∧ step true (Net (RLine "")) (AtWait None, online) = Some (AtWait None, online).
Proof.
  split; [exact I|]. split; [reflexivity|].
  destruct (read_failure_ends_loop true online ConnectionResetError)
    as (Hfail & _ & Hblank).
  split.
  - destruct (Hfail (AtWait None) I) as (es & Hstep & Hclose & _).
    exists es. split; [exact Hstep|exact Hclose].
  - exact (proj1 (Hblank "" eq_refl)).
Defined.

(** [version_gate] on a device that reports version 1.02.00. *)
Lemma version_gate_witness :
  is_fw_version_higher (Some "1.02.00") MINIMUM_API_SUPPORT = Ret false
  ∧ ∃ st3, drive (connect true (Ret tt) init) [ROk (Some "1.02.00")]
           = (Finished (Raise UnsupportedFeatureError) st3, [])
           ∧ connected st3 = false
           ∧ _cmd_queue st3 = [("VERSION", 0%nat)].
Proof.
  assert (Hlow : is_fw_version_higher (Some "1.02.00") MINIMUM_API_SUPPORT
                 = Ret false) by (vm_compute; reflexivity).
  split; [exact Hlow|].
  destruct (version_gate true init "1.02.00" Hlow) as (_ & _ & _ & Hdrive).
  destruct (Hdrive []) as (st3 & Hd & Hc & _ & Hq & _).
  exists st3. split; [exact Hd|]. split; [exact (Hc eq_refl)|exact Hq].
Defined.

(** [cache_round_trip] on the volume of zone 1. *)
Lemma cache_round_trip_witness :
  Py.lower "VOLUME" = Py.lower "Volume"
  ∧ _retrieve_cached_variable "C[1].Z[1]" "VOLUME"
      (_store_cached_variable "C[1].Z[1]" "Volume" "10" init).2 = Ret "10"
  ∧ ("S[1]", Py.lower "volume") ≠ ("C[1].Z[1]", Py.lower "Volume")
  ∧ _retrieve_cached_variable "S[1]" "volume"
      (_store_cached_variable "C[1].Z[1]" "Volume" "10" init).2
    = _retrieve_cached_variable "S[1]" "volume" init
  ∧ _state init = ∅
  ∧ Forall (fun '(D', K', _) => ("S[1]", Py.lower "volume") ≠ (D', Py.lower K'))
      [("C[1].Z[1]", "Volume", "10")]
  ∧ get_cached_variable "S[1]" "volume" (Some "0")
      (store_each [("C[1].Z[1]", "Volume", "10")] init) = Some "0".
Proof.
  destruct cache_round_trip as (Hread & Hother & Hnever & _).
  assert (Hne : ("S[1]", Py.lower "volume") ≠ ("C[1].Z[1]", Py.lower "Volume"))
    by (vm_compute; discriminate).
  assert (Hall : Forall (fun '(D', K', _) =>
                           ("S[1]", Py.lower "volume") ≠ (D', Py.lower K'))
                   [("C[1].Z[1]", "Volume", "10")])
    by (constructor; [exact Hne|constructor]).
  split; [reflexivity|].
  split; [exact (proj1 (Hread init "C[1].Z[1]" "Volume" "VOLUME" "10" eq_refl))|].
  split; [exact Hne|].
  split; [exact (Hother init "C[1].Z[1]" "Volume" "10" "S[1]" "volume" Hne)|].
  split; [reflexivity|]. split; [exact Hall|].
  exact (proj2 (Hnever init [("C[1].Z[1]", "Volume", "10")] "S[1]" "volume"
                  (Some "0") eq_refl Hall)).
Defined.

(** [parser_outcomes] on a blank line, an error line and a reply line. *)
Lemma parser_outcomes_witness :
  Py.strip "  " = ""
  ∧ _process_response "  " init = (Ret (None, None), init)
  ∧ Py.strip (line "E" "Invalid argument") = String "E" " Invalid argument"
  ∧ _process_response (line "E" "Invalid argument") init
    = (Raise (CommandError "Invalid argument"), init)
  ∧ Py.strip name_reply = String "S" (Py.drop 1 name_reply)
  ∧ addressed (Py.drop 2 (String "S" (Py.drop 1 name_reply))) "S[1]" "name" "Tuner"
  ∧ _retrieve_cached_variable "S[1]" "name" (_process_response name_reply init).2
    = Ret "Tuner".
Proof.
  destruct (parser_outcomes "  " init) as [Hblank _].
  destruct (parser_outcomes (line "E" "Invalid argument") init) as [_ Herr].
  destruct (parser_outcomes name_reply init) as [_ Hname].
  assert (Haddr : addressed (Py.drop 2 (String "S" (Py.drop 1 name_reply)))
                    "S[1]" "name" "Tuner").
  { left. exists "1", 1. repeat split; vm_compute; reflexivity. }
  split; [reflexivity|]. split; [exact (Hblank eq_refl)|].
  split; [reflexivity|].
  split; [exact (proj1 (Herr "E"%char " Invalid argument" eq_refl) eq_refl)|].
  split; [reflexivity|]. split; [exact Haddr|].
  destruct (Hname "S"%char (Py.drop 1 name_reply) eq_refl) as (_ & _ & _ & Hev & _).
  assert (Hty : "S"%char ≠ "E"%char) by discriminate.
  exact (proj1 (proj2 (Hev Hty "S[1]" "name" "Tuner" Haddr))).
Defined.

(** [remove_callback_every_list] with two devices of one callback each. *)
Lemma remove_callback_every_list_witness :
  _callbacks registered = [("C[1].Z[1]", [1%nat])] ++ ("C[1].Z[2]", [2%nat]) :: []
  ∧ Forall (fun kv => 1%nat ∈ kv.2) [("C[1].Z[1]", [1%nat])]
  ∧ (1%nat ∉ [2%nat])
  ∧ remove_callback 1%nat registered
    = (Raise ValueError,
       with_callbacks [("C[1].Z[1]", []); ("C[1].Z[2]", [2%nat])] registered)
  ∧ ∃ st', remove_callback 2%nat registered = (Raise ValueError, st').
Proof.
  assert (Hpre : Forall (fun kv : string * list callback => 1%nat ∈ kv.2)
                   [("C[1].Z[1]", [1%nat])]).
  { constructor; [by left|constructor]. }
  assert (Hl : 1%nat ∉ [2%nat]).
  { intros Hin. apply list_elem_of_singleton in Hin. discriminate. }
  split; [reflexivity|]. split; [exact Hpre|]. split; [exact Hl|].
  destruct (remove_callback_every_list 1%nat registered) as (_ & Hstop & _).
  destruct (remove_callback_every_list 2%nat registered) as (_ & _ & Honly).
  split.
  - exact (Hstop [("C[1].Z[1]", [1%nat])] "C[1].Z[2]" [2%nat] [] eq_refl Hpre Hl).
  - apply (Honly "C[1].Z[2]" "C[1].Z[1]" [1%nat]); [|discriminate|reflexivity].
    intros k l Hin Hl2. simpl in Hin.
    apply elem_of_cons in Hin as [Hin|Hin].
    + injection Hin as -> ->. apply list_elem_of_singleton in Hl2. discriminate.
    + apply list_elem_of_singleton in Hin. by injection Hin as -> ->.
Defined.

(** [watch_registry] on zone 1 of a fresh client. *)
Lemma watch_registry_witness :
  ODict.get "C[1].Z[1]" (_watched_devices init) = None
  ∧ unwatch "C[1].Z[1]" init = Finished (Raise KeyError) init
  ∧ is_fw_version_higher (Some "1.05.00") MINIMUM_API_SUPPORT = Ret true
  ∧ length [@None string] = length (_watched_devices (watching "C[1].Z[1]" init))
  ∧ ∃ st', drive (connect true (Ret tt) (watching "C[1].Z[1]" init))
             (ROk (Some "1.05.00") :: (ROk <$> [None]))
           = (Finished (Ret tt) st', [])
           ∧ (_cmd_queue st').*1
             = ["WATCH C[1].Z[1] ON"; "VERSION"; "WATCH C[1].Z[1] ON"].
Proof.
  destruct (watch_registry "C[1].Z[1]" init) as (Hun & _ & _ & _ & _ & _ & Hre).
  split; [reflexivity|]. split; [exact (Hun eq_refl)|].
  assert (Hok : is_fw_version_higher (Some "1.05.00") MINIMUM_API_SUPPORT
                = Ret true) by (vm_compute; reflexivity).
  split; [exact Hok|]. split; [reflexivity|].
  destruct (Hre true (Some "1.05.00") [None] Hok eq_refl)
    as (st' & Hd & Hq & _).
  exists st'. split; [exact Hd|exact Hq].
Defined.

End Sessions.

(** * Properties of the rest of the client *)

Section Theory_client.

Context `{Imports} `{Tables}.

(** ** The parser and the loop *)

Lemma fan_out_raises d k v zs st e st' :
  fan_out d k v zs st = (Raise e, st') → e = ValueError ∨ e = KeyError.
Proof.
  revert st. induction zs as [|z zs IH]; intros st Hf; simpl in Hf; [done|].
  unfold Zone_fetch_current_source in Hf.
  destruct (Py.int (Zone_current_source z st)) as [n|]; [|simplify_eq; by left].
  destruct (sources st !! n) as [src|]; [|simplify_eq; by right].
  unfold bind in Hf. case_decide.
  - rewrite fire_eq in Hf. by apply IH in Hf.
  - unfold ret in Hf. by apply IH in Hf.
Qed.

Lemma store_raises d k v st e st' :
  _store_cached_variable d k v st = (Raise e, st') → store_error e.
Proof.
  unfold _store_cached_variable, bind, modify. simpl.
  destruct d as [|c d']; [intros [= <- _]; by right; right|].
  destruct (Ascii.eqb c "S"); [|done].
  intros [->| ->]%fan_out_raises; [by left|by right; left].
Qed.

(* The ways the parser raises. *)
Lemma process_response_raise_cases res st e st' :
  _process_response res st = (Raise e, st') →
  (∃ rest, Py.strip res = String "E" rest
           ∧ e = CommandError (Py.drop 2 (String "E" rest)) ∧ st' = st)
  ∨ (store_error e ∧ ∀ rest, Py.strip res ≠ String "E" rest).
Proof.
  unfold _process_response.
  destruct (Py.strip res) as [|ty rest] eqn:Hs; [done|].
  destruct (Ascii.eqb ty "E") eqn:Hty.
  - apply Ascii.eqb_eq in Hty as ->. intros [= <- <-]. left. by exists rest.
  - apply Ascii.eqb_neq in Hty. intros Hp. right.
    split; [|intros rest' [= -> _]; done].
    destruct (RESPONSE_REGEX_match _) as [[src var val|c z var val|a b]|];
      [| |done|done]; unfold bind, raise, ret in Hp.
    + destruct (Py.truthy src); [|done].
      destruct (Py.int src) as [id|]; [|simplify_eq; by left].
      destruct (_store_cached_variable _ _ _ _) as [[[]|e0] st0] eqn:Est; [done|].
      simplify_eq. by eapply store_raises.
    + destruct (Py.truthy z); [|done].
      destruct (Py.int c) as [cid|]; [|simplify_eq; by left].
      destruct (Py.int z) as [zid|]; [|simplify_eq; by left].
      destruct (_store_cached_variable _ _ _ _) as [[[]|e0] st0] eqn:Est; [done|].
      simplify_eq. by eapply store_raises.
Qed.

Lemma registries_kept_refl st : registries_kept st st.
Proof. by repeat split. Qed.

Lemma registries_kept_trans st1 st2 st3 :
  registries_kept st1 st2 → registries_kept st2 st3 → registries_kept st1 st3.
Proof.
  intros (?&?&?&?&?&?&?) (?&?&?&?&?&?&?). repeat split; congruence.
Qed.

(* What the parser can change. *)
Lemma process_response_footprint res st :
  let st' := (_process_response res st).2 in
  registries_kept st st'
  ∧ _cmd_queue st' = _cmd_queue st
  ∧ connected st' = connected st
  ∧ next_future st' = next_future st
  ∧ (_state st' = _state st
     ∨ ∃ d k v, _state st' = <[d := <[k := v]> (default ∅ (_state st !! d))]> (_state st)).
Proof.
  assert (Hstore : ∀ d k v (f : outcome unit → outcome (option ascii * option string)),
    let st' := (let '(o, st') := _store_cached_variable d k v st in (f o, st')).2 in
    registries_kept st st' ∧ _cmd_queue st' = _cmd_queue st
    ∧ connected st' = connected st ∧ next_future st' = next_future st
    ∧ (_state st' = _state st
       ∨ ∃ d k v, _state st'
                  = <[d := <[k := v]> (default ∅ (_state st !! d))]> (_state st))).
  { intros d k v f. destruct (store_frame d k v st) as (es & Hes & _).
    destruct (_store_cached_variable d k v st) as [o st1]. simpl in *. subst st1.
    split; [by repeat split|]. repeat split. right. eauto. }
  assert (Hid : registries_kept st st ∧ _cmd_queue st = _cmd_queue st
                ∧ connected st = connected st ∧ next_future st = next_future st
                ∧ (_state st = _state st
                   ∨ ∃ d k v, _state st
                       = <[d := <[k := v]> (default ∅ (_state st !! d))]> (_state st))).
  { split; [apply registries_kept_refl|]. repeat split. by left. }
  unfold _process_response.
  destruct (Py.strip res) as [|ty rest]; [exact Hid|].
  destruct (Ascii.eqb ty "E"); [exact Hid|].
  destruct (RESPONSE_REGEX_match _) as [[src var val|c z var val|a b]|]; try exact Hid.
  - unfold bind. destruct (Py.truthy src); [|exact Hid].
    destruct (Py.int src) as [id|]; [|exact Hid].
    pose proof (Hstore (source_device_str id) var val
                  (fun o => match o with
                            | Ret _ => Ret (Some ty, Py.or_ (Some val) None)
                            | Raise e => Raise e end)) as Hst.
    by destruct (_store_cached_variable _ _ _ _) as [[[]|e] st1].
  - unfold bind. destruct (Py.truthy z); [|exact Hid].
    destruct (Py.int c) as [cid|]; [|exact Hid].
    destruct (Py.int z) as [zid|]; [|exact Hid].
    pose proof (Hstore (zone_device_str cid zid) var val
                  (fun o => match o with
                            | Ret _ => Ret (Some ty, Py.or_ (Some val) None)
                            | Raise e => Raise e end)) as Hst.
    by destruct (_store_cached_variable _ _ _ _) as [[[]|e] st1].
Qed.

(** X1. The parser raises [CommandError] on a line with tag [E] and on no
    other line, then with the payload and without changing anything; any
    other exception it raises comes from an addressed line, from the
    reading of its address or from the store, and is a [ValueError], a
    [KeyError] or an [IndexError]. *)
Theorem process_response_raises res st e st' :
  _process_response res st = (Raise e, st') →
  (∃ rest, Py.strip res = String "E" rest
           ∧ e = CommandError (Py.drop 2 (String "E" rest)) ∧ st' = st)
  ∨ (store_error e ∧ ∀ rest, Py.strip res ≠ String "E" rest).
Proof. apply process_response_raise_cases. Qed.

(** X2. The parser changes the cache in at most one cell and otherwise only
    the trace: the queue, the flag and the registries stay as they are. *)
Theorem process_response_changes_cache_only res st :
  let st' := (_process_response res st).2 in
  registries_kept st st'
  ∧ _cmd_queue st' = _cmd_queue st
  ∧ connected st' = connected st
  ∧ next_future st' = next_future st
  ∧ (_state st' = _state st
     ∨ ∃ d k v, _state st' = <[d := <[k := v]> (default ∅ (_state st !! d))]> (_state st)).
Proof. apply process_response_footprint. Qed.

Lemma fail_registries reconnect e st : registries_kept st (fail reconnect e st).2.
Proof. destruct (fail_frame reconnect e st) as (es & -> & _). by repeat split. Qed.

Lemma on_push_registries r st : registries_kept st (on_push r st).2.
Proof.
  destruct r as [res|e]; simpl; [|apply registries_kept_refl].
  pose proof (process_response_footprint res st) as [Hk _].
  by destruct (_process_response res st) as [[a|[]] st'].
Qed.

(** X3. A loop that does not end into a reconnect never touches the
    registries: whether it is still running or has ended, with or without
    an exception, no event has changed the callbacks, the connection
    callbacks, the watch set, the controllers, the sources, the recorded
    version or the started flag. (A loop that ends into a reconnect goes on
    with [connect], which sets the started flag and records the version.) *)
Theorem run_keeps_registries reconnect evs c c' :
  run reconnect evs c = Some c' → reconnect_due reconnect c' = false →
  registries_kept c.2 c'.2.
Proof.
  intros Hrun _. revert c Hrun. induction evs as [|ev evs IH]; intros c Hrun.
  - simpl in Hrun. simplify_eq. apply registries_kept_refl.
  - rewrite run_cons in Hrun.
    destruct (step reconnect ev c) as [c1|] eqn:Hstep; [|done]. simpl in Hrun.
    eapply registries_kept_trans; [|by apply IH]. clear IH Hrun.
    destruct c as [s st]. unfold step in Hstep.
    destruct ev as [cmd| |r| |[e|]|].
    + simplify_eq. by repeat split.
    + destruct s as [[item|]|f|[item|] f|r]; try done;
        unfold take_head in Hstep; destruct (_cmd_queue st);
        simpl in Hstep; simplify_eq; by repeat split.
    + destruct s as [[[c0 f]|]|f|qf f|r0]; try done.
      * pose proof (on_push_registries r st) as Hp.
        destruct (on_push r st) as [[[]|e] st1]; simplify_eq; simpl in *.
        -- exact Hp.
        -- eapply registries_kept_trans; [exact Hp|apply fail_registries].
      * pose proof (on_push_registries r st) as Hp.
        destruct (on_push r st) as [[[]|e] st1]; simplify_eq; simpl in *.
        -- exact Hp.
        -- eapply registries_kept_trans; [exact Hp|apply fail_registries].
      * simplify_eq. unfold on_reply. destruct r as [res|e]; [|apply fail_registries].
        pose proof (process_response_footprint res st) as [Hk _].
        destruct (_process_response res st) as [[[ty value]|e] st1]; simpl in *.
        -- by case_decide.
        -- destruct e; try (eapply registries_kept_trans;
                             [exact Hk|apply fail_registries]).
           exact Hk.
    + destruct s as [[[c0 f]|]|f|qf f|r0]; try done. simplify_eq.
      by repeat split.
    + destruct s as [qf|f|qf f|r0]; try done. simplify_eq. apply fail_registries.
    + destruct s as [qf|f|qf f|r0]; try done. simplify_eq. apply registries_kept_refl.
    + destruct s as [qf|f|qf f|r0]; simplify_eq;
        apply fail_registries || apply registries_kept_refl.
Qed.

Lemma cache_effects_resolved es : Forall cache_effect es → resolved es = [].
Proof. induction 1 as [|e es He _ IH]; [done|]. by destruct e. Qed.

(** X4. A line read in [asyncio.wait] resolves no future, whatever its tag:
    it is parsed, and when the next command has just been taken from the
    queue the command is written after it, so a line with tag [S] or [E] that
    arrives then is not taken as the reply. A line with tag [E] that arrives
    with nothing taken from the queue changes nothing at all. *)
Theorem line_in_wait_resolves_nothing reconnect queue_future l st s' st' :
  step reconnect (Net (RLine l)) (AtWait queue_future, st) = Some (s', st') →
  resolved (trace st') = resolved (trace st)
  ∧ _cmd_queue st' = _cmd_queue st
  ∧ ((∃ es, Forall cache_effect es
            ∧ match queue_future with
              | None => s' = AtWait None ∧ trace st' = trace st ++ es
              | Some (cmd, fut) =>
                  s' = AtDrain fut
                  ∧ trace st' = trace st ++ es ++ [EWrite (cmd +:+ CR) fut]
              end)
     ∨ (∃ e, store_error e ∧ s' = Exited (Some e)))
  ∧ (queue_future = None → ∀ rest, Py.strip l = String "E" rest →
       s' = AtWait None ∧ st' = st).
Proof.
  intros Hstep.
  destruct (process_response_frame l st) as (es & m & Hst1 & Hes).
  pose proof (process_response_raise_cases l st) as Hraise.
  assert (Herr : ∀ rest, Py.strip l = String "E" rest →
            _process_response l st
            = (Raise (CommandError (Py.drop 2 (String "E" rest))), st)).
  { intros rest Hs. unfold _process_response. by rewrite Hs. }
  assert (Hcase :
    (∃ st1, on_push (RLine l) st = (Ret tt, st1) ∧ st1 = emit es (with_state m st))
    ∨ (∃ e st1, on_push (RLine l) st = (Raise e, st1) ∧ store_error e
                ∧ st1 = emit es (with_state m st))).
  { simpl. destruct (_process_response l st) as [[a|e] st1] eqn:Hp; simpl in Hst1.
    - left. eauto.
    - destruct (Hraise e st1 eq_refl) as [(rest & Hs & -> & ->)|[He _]].
      + left. eauto.
      + right. exists e, st1. destruct He as [->|[->| ->]];
          (split; [done|]); (split; [|done]); unfold store_error; auto. }
  destruct Hcase as [(st1 & Hpush & ->)|(e & st1 & Hpush & He & ->)].
  - simpl in Hstep. destruct queue_future as [[cmd fut]|].
    + unfold on_push in Hpush. rewrite Hpush in Hstep. simpl in Hstep. simplify_eq.
      split; [|split; [done|split]].
      * simpl. rewrite !resolved_app, (cache_effects_resolved es Hes).
        simpl. by rewrite !app_nil_r.
      * left. exists es. split; [done|]. split; [done|]. simpl.
        by rewrite <- app_assoc.
      * done.
    + unfold on_push in Hpush. rewrite Hpush in Hstep. simplify_eq.
      split; [|split; [done|split]].
      * simpl. rewrite !resolved_app, (cache_effects_resolved es Hes).
        by rewrite !app_nil_r.
      * left. exists es. done.
      * intros _ rest Hs. split; [done|].
        rewrite (Herr rest Hs) in Hpush. by simplify_eq.
  - destruct (fail_frame reconnect e (emit es (with_state m st)))
      as (es' & Hf & Hes' & _).
    assert (Hsw : swallowed e = false) by (by destruct He as [->|[->| ->]]).
    rewrite Hsw in Hf.
    assert (Hres : Some (s', st') = Some (fail reconnect e (emit es (with_state m st)))).
    { simpl in Hstep. unfold on_push in Hpush.
      destruct queue_future as [[cmd fut]|]; by rewrite Hpush in Hstep. }
    rewrite Hf in Hres. simplify_eq.
    split; [|split; [done|split]].
    + simpl. rewrite !resolved_app, (cache_effects_resolved es Hes),
        (exit_effects_resolve es' Hes'). by rewrite !app_nil_r.
    + right. eauto.
    + intros -> rest Hs. simpl in Hpush. rewrite (Herr rest Hs) in Hpush. done.
Qed.

Lemma slot_writes cur tr o :
  slot cur tr = Some o →
  option_list cur ++ writes tr = resolved tr ++ option_list o.
Proof.
  revert cur. induction tr as [|e tr IH]; intros cur Hs; simpl in Hs.
  - simplify_eq. simpl. by rewrite app_nil_r.
  - destruct e; try (by apply IH).
    + destruct cur; [done|]. apply IH in Hs. simpl in *. exact Hs.
    + destruct cur as [g|]; [|done]. case_decide; [|done]. subst.
      apply IH in Hs. simpl in *. by rewrite Hs.
Qed.

(** X5. In every run of the loop from a fresh session, the futures resolved
    are the futures written, in the order of the writes, up to the one in
    flight; no future is resolved twice, and a resolved future was queued by
    a [send_cmd]. *)
Theorem resolutions_follow_writes reconnect evs st0 status st :
  trace st0 = [] → _cmd_queue st0 = [] →
  run reconnect evs (AtWait None, st0) = Some (status, st) →
  writes (trace st) = resolved (trace st) ++ in_flight [] (trace st)
  ∧ NoDup (resolved (trace st))
  ∧ (∀ f, f ∈ resolved (trace st) → ∃ c, EPut c f ∈ trace st).
Proof.
  intros Ht Hq Hrun.
  pose proof (run_Inv reconnect evs _ _ _ _ (Inv_init st0 Ht Hq) Hrun)
    as (Hnd & Hlt & Hw & Hinv).
  assert (Hpre : writes (trace st) `prefix_of` puts (trace st)
                 ∧ ∃ o, slot None (trace st) = Some o).
  { destruct status as [qf|f|qf f|r]; [| | |done];
      destruct Hinv as (Hp & Hsl & _); (split; [rewrite Hp; by eexists|eauto]). }
  destruct Hpre as [[k Hk] [o Ho]].
  pose proof (slot_writes None _ _ Ho) as Hwr. simpl in Hwr.
  pose proof (slot_in_flight None _ _ Ho) as Hfl. simpl in Hfl.
  assert (Hndw : NoDup (writes (trace st))).
  { rewrite Hk in Hnd. by apply NoDup_app in Hnd as [? _]. }
  split; [by rewrite Hfl|]. split.
  - rewrite Hwr in Hndw. by apply NoDup_app in Hndw as [? _].
  - intros f Hf.
    assert (Hfw : f ∈ writes (trace st)).
    { rewrite Hwr. apply elem_of_app. by left. }
    destruct (writes_elem _ _ Hfw) as (a & d & b & Htr).
    destruct (Hw d f) as (c & _ & Hc); [|eauto].
    rewrite Htr. apply elem_of_app. right. by left.
Qed.



(** ** The registries *)

Lemma ODict_get_set_ne {V} (k k' : string) (v : V) d :
  k' ≠ k → ODict.get k' (ODict.set k v d) = ODict.get k' d.
Proof.
  intros Hne. induction d as [|[k0 v0] d IH]; simpl.
  - by rewrite decide_False.
  - destruct (decide (k0 = k)) as [->|Hk]; simpl.
    + by rewrite !decide_False.
    + by rewrite IH.
Qed.

Lemma list_remove_Some x l :
  x ∈ l → ∃ l1 l2, l = l1 ++ x :: l2 ∧ (x ∉ l1) ∧ list_remove x l = Some (l1 ++ l2).
Proof.
  induction l as [|y l IH]; [by intros ?%elem_of_nil|].
  intros Hin. simpl. destruct (decide (y = x)) as [->|Hne].
  - exists [], l. split; [done|]. split; [|done]. by intros ?%elem_of_nil.
  - apply elem_of_cons in Hin as [->|Hin]; [done|].
    destruct (IH Hin) as (l1 & l2 & -> & Hl1 & ->).
    exists (y :: l1), l2. split; [done|]. split; [|done].
    intros [->|?]%elem_of_cons; done.
Qed.

Lemma store_trace d k v st :
  ∃ es, trace (_store_cached_variable d k v st).2
        = trace st
          ++ EStore d (Py.lower k) v
             :: ((fun c => ECallback c d (Py.lower k) v) <$> callbacks_of d st) ++ es
        ∧ Forall callback_effect es.
Proof.
  unfold _store_cached_variable, bind, modify. simpl. rewrite emit_emit.
  set (direct := (fun cb => ECallback cb d (Py.lower k) v) <$> callbacks_of d st).
  destruct d as [|c d'].
  - exists []. simpl. split; [|constructor]. by rewrite app_nil_r.
  - destruct (Ascii.eqb c "S").
    + match goal with
      | |- context [fan_out ?a ?b ?c ?zs ?s] =>
          destruct (fan_out_frame a b c zs s) as (es & -> & Hes)
      end.
      exists es. split; [|done]. simpl. by rewrite <- !app_assoc.
    + exists []. simpl. split; [|constructor]. by rewrite app_nil_r.
Qed.

(** X9. [add_callback] appends to the list of its device and leaves the
    other devices alone; a store then calls the callbacks of the device in
    registration order, the new one last, right after the write and before
    the source fan-out, also when the fan-out goes on to raise. *)
Theorem store_calls_registered d cb k v st :
  callbacks_of d (add_callback d cb st) = callbacks_of d st ++ [cb]
  ∧ (∀ d', d' ≠ d → callbacks_of d' (add_callback d cb st) = callbacks_of d' st)
  ∧ ∃ es, trace (_store_cached_variable d k v (add_callback d cb st)).2
          = trace st
            ++ EStore d (Py.lower k) v
               :: ((fun c => ECallback c d (Py.lower k) v) <$> callbacks_of d st)
               ++ [ECallback cb d (Py.lower k) v] ++ es
          ∧ Forall callback_effect es.
Proof.
  assert (Hown : callbacks_of d (add_callback d cb st) = callbacks_of d st ++ [cb]).
  { unfold callbacks_of at 1. simpl. by rewrite ODict_get_set. }
  split; [exact Hown|]. split.
  { intros d' Hne. unfold callbacks_of. simpl. by rewrite ODict_get_set_ne. }
  destruct (store_trace d k v (add_callback d cb st)) as (es & Heq & Hes).
  exists es. split; [|done]. rewrite Heq, Hown, fmap_app. simpl.
  by rewrite <- !app_assoc.
Qed.

(** X10. Once the list of some device is empty, as it is after the only
    callback of a device has been removed, [remove_callback] raises
    [ValueError] for every callback: on a registry with one registration,
    removing it returns and leaves the device with an empty list. *)
Theorem remove_callback_after_last :
  (∀ st k cb, (k, []) ∈ _callbacks st →
     ∃ st', remove_callback cb st = (Raise ValueError, st'))
  ∧ (∀ st d cb, _callbacks st = [] →
       remove_callback cb (add_callback d cb st)
       = (Ret tt, with_callbacks [(d, [])] st)).
Proof.
  split.
  - intros st k cb Hin. unfold remove_callback.
    destruct (first_without cb (_callbacks st))
      as [Hall|(pre & k' & l & post & Hd & Hpre & Hl)].
    + rewrite Forall_forall in Hall. specialize (Hall _ Hin). simpl in Hall.
      by apply elem_of_nil in Hall.
    + rewrite Hd, remove_from_each_stops by done. eauto.
  - intros st d cb Hnil. unfold remove_callback, add_callback, callbacks_of.
    rewrite Hnil. simpl. rewrite decide_True by done.
    by destruct st.
Qed.

(** X11. [remove_connection_callback] raises [ValueError] and changes nothing
    when the callback is not registered, and otherwise drops its first
    registration only; it undoes an [add_connection_callback] of a callback
    that was not registered before. [_set_connected] calls the registered
    callbacks in registration order, a newly added one last. *)
Theorem connection_callback_registry cb st :
  (cb ∉ _connection_callbacks st →
     remove_connection_callback cb st = (Raise ValueError, st)
     ∧ remove_connection_callback cb (add_connection_callback cb st) = (Ret tt, st))
  ∧ (cb ∈ _connection_callbacks st →
       ∃ l1 l2, _connection_callbacks st = l1 ++ cb :: l2 ∧ (cb ∉ l1)
                ∧ remove_connection_callback cb st
                  = (Ret tt, with_connection_callbacks (l1 ++ l2) st))
  ∧ (∀ b, connection_calls (trace (_set_connected b (add_connection_callback cb st)))
          = connection_calls (trace st)
            ++ ((fun c => (c, b)) <$> _connection_callbacks st) ++ [(cb, b)]).
Proof.
  split; [|split].
  - intros Hout. split.
    + unfold remove_connection_callback. by rewrite list_remove_None.
    + unfold remove_connection_callback, add_connection_callback. simpl.
      assert (Hin : cb ∈ _connection_callbacks st ++ [cb]).
      { apply elem_of_app. right. by left. }
      destruct (list_remove_Some _ _ Hin) as (l1 & l2 & Heq & Hl1 & ->).
      assert (l1 = _connection_callbacks st ∧ l2 = []) as [-> ->].
      { clear -Heq Hl1 Hout. revert l1 Heq Hl1.
        induction (_connection_callbacks st) as [|y l IH]; intros l1 Heq Hl1.
        - destruct l1 as [|z l1]; simpl in Heq.
          + by injection Heq as <-.
          + injection Heq as <- Heq. exfalso. apply Hl1. by left.
        - apply not_elem_of_cons in Hout as [Hy Hout].
          destruct l1 as [|z l1]; simpl in Heq.
          + injection Heq as -> Heq. done.
          + injection Heq as <- Heq.
            apply not_elem_of_cons in Hl1 as [_ Hl1].
            destruct (IH Hout l1 Heq Hl1) as [-> ->]. done. }
      rewrite app_nil_r. by destruct st.
  - intros Hin. destruct (list_remove_Some _ _ Hin) as (l1 & l2 & Heq & Hl1 & Hrm).
    exists l1, l2. split; [done|]. split; [done|].
    unfold remove_connection_callback. by rewrite Hrm.
  - intros b. simpl. unfold connection_calls. rewrite omap_app, fmap_app. simpl.
    f_equal. rewrite omap_app. simpl. f_equal.
    induction (_connection_callbacks st) as [|y l IH]; [done|].
    rewrite !fmap_cons. simpl. by f_equal.
Qed.


(** ** Reading and writing variables *)

(** X12. [get_variable] answers from the cache when it can: it then finishes
    at once with the cached value and queues nothing. This is the case after
    the parser has stored an addressed line for the device under a key of
    the same lower-case form. On a miss it queues [GET device.key], with
    the key as given, and finishes with the reply to that command; it does
    not write the reply to the cache itself. *)
Theorem get_variable_cache_first d k st :
  (∀ v, _retrieve_cached_variable d k st = Ret v →
     get_variable d k st = Finished (Ret (Some v)) st)
  ∧ (∀ e, _retrieve_cached_variable d k st = Raise e →
       ∀ r, ∃ st1,
         drive (get_variable d k st) [r] = (Finished (reply_outcome r) st1, [])
         ∧ _cmd_queue st1
           = _cmd_queue st ++ [("GET " +:+ d +:+ "." +:+ k, next_future st)]
         ∧ _state st1 = _state st
         ∧ trace st1
           = trace st ++ [EPut ("GET " +:+ d +:+ "." +:+ k) (next_future st)])
  ∧ (∀ res ty rest var val,
       Py.strip res = String ty rest → ty ≠ "E"%char →
       addressed (Py.drop 2 (String ty rest)) d var val →
       Py.lower k = Py.lower var →
       get_variable d k (_process_response res st).2
       = Finished (Ret (Some val)) (_process_response res st).2).
Proof.
  split; [|split].
  - intros v Hv. unfold get_variable. by rewrite Hv.
  - intros e He r. unfold get_variable. rewrite He.
    eexists. split; [reflexivity|]. done.
  - intros res ty rest var val Hs Hty Haddr Hk.
    rewrite (process_response_addressed res st ty rest d var val Hs Hty Haddr).
    unfold get_variable, after_store. simpl.
    rewrite retrieve_after_store, decide_True; [done|by rewrite Hk].
Qed.

(** [set_variable] sends nothing: it finishes at once, with the object
    unchanged, and its result is the [send_cmd] coroutine not yet started.
    Only running that result queues the [SET] command. *)
Lemma set_variable_defers d k v st :
  ∃ c, set_variable d k v st = Finished (Ret c) st
       ∧ ∀ st1 r, ∃ st2,
           drive (c st1) [r] = (Finished (reply_outcome r) st2, [])
           ∧ _cmd_queue st2 = _cmd_queue st1 ++ [(set_cmd d k v, next_future st1)].
Proof.
  eexists. split; [reflexivity|]. intros st1 r. eexists. split; reflexivity.
Qed.

(** ** The watch set *)

Lemma ODict_del_Some {V} (k : string) (v : V) d :
  ODict.get k d = Some v →
  ∃ d1 d2, d = d1 ++ (k, v) :: d2 ∧ (k ∉ ODict.keys d1)
           ∧ ODict.del k d = Some (d1 ++ d2).
Proof.
  induction d as [|[k' v'] d IH]; simpl; [done|].
  case_decide as Hk.
  - intros [= ->]. subst k'. exists [], d. split; [done|]. split; [|done].
    by intros ?%elem_of_nil.
  - intros Hg. destruct (IH Hg) as (d1 & d2 & -> & Hd1 & ->).
    exists ((k', v') :: d1), d2. split; [done|]. split; [|done].
    unfold ODict.keys in *. rewrite fmap_cons. simpl.
    intros [->|?]%elem_of_cons; done.
Qed.

Lemma ODict_del_set {V} (k : string) (v : V) d :
  ODict.get k d = None → ODict.del k (ODict.set k v d) = Some d.
Proof.
  induction d as [|[k' v'] d IH]; simpl.
  - by rewrite decide_True.
  - case_decide as Hk; [done|]. intros Hg. simpl.
    rewrite decide_False by done. by rewrite IH.
Qed.

(** X13. [unwatch] of a watched device takes its first entry out of the watch
    set, the other entries keeping their order, then queues
    [WATCH device OFF] and finishes with the reply to it; the entry stays
    out when the device rejects the command. *)
Theorem unwatch_watched dev b st :
  ODict.get dev (_watched_devices st) = Some b →
  ∃ w1 w2, _watched_devices st = w1 ++ (dev, b) :: w2
    ∧ (dev ∉ ODict.keys w1)
    ∧ ∀ r, ∃ st1,
        drive (unwatch dev st) [r] = (Finished (reply_outcome r) st1, [])
        ∧ _watched_devices st1 = w1 ++ w2
        ∧ _cmd_queue st1
          = _cmd_queue st ++ [("WATCH " +:+ dev +:+ " OFF", next_future st)].
Proof.
  intros Hg. destruct (ODict_del_Some _ _ _ Hg) as (w1 & w2 & Hw & Hw1 & Hdel).
  exists w1, w2. split; [done|]. split; [done|].
  intros r. unfold unwatch. rewrite Hdel. eexists. split; [reflexivity|]. done.
Qed.

(** X14. [watch] then [unwatch] of a device that was not watched gives the
    watch set back as it was, and has queued the two commands in this
    order; the second call is reached only when the first is not
    rejected. *)
Theorem watch_unwatch_round_trip dev st v r :
  ODict.get dev (_watched_devices st) = None →
  ∃ st',
    drive (task_bind (watch dev st) (fun _ => unwatch dev)) [ROk v; r]
    = (Finished (reply_outcome r) st', [])
    ∧ _watched_devices st' = _watched_devices st
    ∧ put_commands (trace st')
      = put_commands (trace st)
        ++ ["WATCH " +:+ dev +:+ " ON"; "WATCH " +:+ dev +:+ " OFF"]
    ∧ ∀ msg, drive (task_bind (watch dev st) (fun _ => unwatch dev))
                   [RErr msg; r]
             = (Finished (Raise (CommandError msg)) (watching dev st), [r]).
Proof.
  intros Hg.
  assert (Hdel : ODict.del dev (_watched_devices (watching dev st))
                 = Some (_watched_devices st)).
  { simpl. by apply ODict_del_set. }
  assert (Hd : drive (task_bind (watch dev st) (fun _ => unwatch dev)) [ROk v; r]
               = drive (unwatch dev (watching dev st)) [r]) by reflexivity.
  rewrite Hd. unfold unwatch. rewrite Hdel.
  eexists. split; [reflexivity|]. split; [reflexivity|]. split; [|done].
  simpl. unfold put_commands. rewrite !omap_app. simpl. by rewrite <- app_assoc.
Qed.

(** ** The getters of a zone *)

(** X15. With nothing cached for the zone, [volume] is ["0"], [status] is
    ["OFF"], the current source is ["1"] and the turn-on volume is
    absent; once a value is stored for the zone under any spelling of the
    key, the getter returns that value. *)
Theorem zone_getters z st :
  (_state st !! Zone_device_str z = None →
     Zone_volume z st = Some "0" ∧ Zone_status z st = Some "OFF"
     ∧ Zone_turn_on_volume z st = None ∧ Zone_current_source z st = "1")
  ∧ (∀ k v, Py.lower k = "volume" →
       Zone_volume z (_store_cached_variable (Zone_device_str z) k v st).2 = Some v)
  ∧ (∀ k v, Py.lower k = "status" →
       Zone_status z (_store_cached_variable (Zone_device_str z) k v st).2 = Some v)
  ∧ (∀ k v, Py.lower k = "turnonvolume" →
       Zone_turn_on_volume z (_store_cached_variable (Zone_device_str z) k v st).2
       = Some v)
  ∧ (∀ k v, Py.lower k = "currentsource" →
       Zone_current_source z (_store_cached_variable (Zone_device_str z) k v st).2
       = v).
Proof.
  split; [|split; [|split; [|split]]].
  - intros Hnone.
    unfold Zone_volume, Zone_status, Zone_turn_on_volume, Zone_current_source,
      Zone__get, get_cached_variable, _retrieve_cached_variable.
    rewrite Hnone. done.
  - intros k v Hk. unfold Zone_volume, Zone__get, get_cached_variable.
    rewrite retrieve_after_store, decide_True; [done|by rewrite Hk].
  - intros k v Hk. unfold Zone_status, Zone__get, get_cached_variable.
    rewrite retrieve_after_store, decide_True; [done|by rewrite Hk].
  - intros k v Hk. unfold Zone_turn_on_volume, Zone__get, get_cached_variable.
    rewrite retrieve_after_store, decide_True; [done|by rewrite Hk].
  - intros k v Hk. unfold Zone_current_source, get_cached_variable.
    rewrite retrieve_after_store, decide_True; [done|by rewrite Hk].
Qed.


(** ** Connecting *)

Lemma watching_trace d st :
  trace (watching d st) = trace st ++ [EPut (watch_cmd d) (next_future st)].
Proof. reflexivity. Qed.

Lemma replayed_snoc ds d st : replayed (ds ++ [d]) st = watching d (replayed ds st).
Proof. unfold replayed. by rewrite foldl_app. Qed.

(** The replay queues its commands and does nothing else. *)
Lemma replayed_frame ds st :
  ∃ es, trace (replayed ds st) = trace st ++ es
        ∧ put_commands es = watch_cmd <$> ds
        ∧ connection_calls es = []
        ∧ _connection_callbacks (replayed ds st) = _connection_callbacks st
        ∧ connected (replayed ds st) = connected st
        ∧ rio_version (replayed ds st) = rio_version st
        ∧ _connection_started (replayed ds st) = _connection_started st.
Proof.
  induction ds as [|d ds IH] using rev_ind.
  - exists []. simpl. by rewrite app_nil_r.
  - destruct IH as (es & Htr & Hp & Hc & Hcb & Hcon & Hv & Hs).
    rewrite replayed_snoc.
    exists (es ++ [EPut (watch_cmd d) (next_future (replayed ds st))]).
    rewrite watching_trace, Htr. unfold put_commands, connection_calls in *.
    rewrite !omap_app, Hp, Hc, fmap_app, <- app_assoc. simpl.
    repeat split; done.
Qed.

(** The replay loop, run against results of which one is a rejection. *)
Lemma watch_from_drive_fail {B} todo i st (K : unit → Async B) vs msg rs :
  (i + length vs < length (_watched_devices st))%nat →
  (length (_watched_devices st) - i < todo)%nat →
  drive (task_bind (watch_from todo (length (_watched_devices st)) i st) K)
        ((ROk <$> vs) ++ RErr msg :: rs)
  = (Finished (Raise (CommandError msg))
       (replayed (take (S (length vs)) (drop i (ODict.keys (_watched_devices st)))) st),
     rs).
Proof.
  revert i st vs. induction todo as [|todo IH]; intros i st vs Hi Htodo; [lia|].
  rewrite watch_from_S, decide_True by done.
  destruct (ODict.keys (_watched_devices st) !! i) as [device|] eqn:Ei.
  - assert (Hin : device ∈ ODict.keys (_watched_devices st)).
    { by eapply list_elem_of_lookup_2. }
    pose proof (watching_keys device st Hin) as Hkeys.
    assert (Hlen : length (_watched_devices (watching device st))
                   = length (_watched_devices st)).
    { by rewrite <- !keys_length, Hkeys. }
    rewrite (drop_S _ _ _ Ei).
    destruct vs as [|v vs].
    + reflexivity.
    + rewrite fmap_cons. simpl app. rewrite watch_then_drive.
      rewrite <- Hlen. rewrite IH; [|rewrite Hlen; simpl in Hi; lia|rewrite Hlen; lia].
      rewrite Hkeys. reflexivity.
  - apply lookup_ge_None in Ei. rewrite keys_length in Ei. lia.
Qed.

(** X16. The ways [connect] fails before the client counts as connected.
    When the transport cannot be opened the exception of the open is
    raised, nothing is queued and no loop is started, yet the started flag
    stays set. When the device rejects [VERSION], or rejects one of the
    [WATCH] commands of the replay, [connect] raises that [CommandError]:
    the replay stops at the rejected command, the devices after it are not
    queued, the connected flag keeps its value and no connection callback
    is called. *)
Theorem connect_failures reconnect st :
  (∀ e, ∃ st', connect reconnect (Raise e) st = Finished (Raise e) st'
               ∧ trace st' = trace st ∧ _cmd_queue st' = _cmd_queue st
               ∧ connected st' = connected st ∧ _connection_started st' = true)
  ∧ (∀ msg, ∃ st',
       drive (connect reconnect (Ret tt) st) [RErr msg]
       = (Finished (Raise (CommandError msg)) st', [])
       ∧ connected st' = connected st
       ∧ rio_version st' = rio_version st
       ∧ put_commands (trace st') = put_commands (trace st) ++ ["VERSION"]
       ∧ connection_calls (trace st') = connection_calls (trace st))
  ∧ (∀ version vs msg,
       is_fw_version_higher version MINIMUM_API_SUPPORT = Ret true →
       (length vs < length (_watched_devices st))%nat →
       ∃ st',
         drive (connect reconnect (Ret tt) st)
               (ROk version :: (ROk <$> vs) ++ [RErr msg])
         = (Finished (Raise (CommandError msg)) st', [])
         ∧ connected st' = connected st
         ∧ rio_version st' = version
         ∧ put_commands (trace st')
           = put_commands (trace st)
             ++ "VERSION"
                :: (watch_cmd <$> take (S (length vs))
                                      (ODict.keys (_watched_devices st)))
         ∧ connection_calls (trace st') = connection_calls (trace st)).
Proof.
  split; [|split].
  - intros e. eexists. split; [reflexivity|]. done.
  - intros msg. eexists. split; [reflexivity|]. simpl.
    unfold put_commands, connection_calls. rewrite !omap_app. simpl.
    by rewrite !app_nil_r.
  - intros version vs msg Hver Hvs.
    rewrite connect_drive, Hver. unfold _watch_cached_devices.
    set (st2 := versioned reconnect version st).
    assert (Hw : _watched_devices st2 = _watched_devices st) by reflexivity.
    rewrite watch_from_drive_fail; [|rewrite Hw; lia|lia].
    rewrite drop_0, Hw.
    set (ds := take _ _).
    destruct (replayed_frame ds st2) as (es & Htr & Hp & Hc & _ & Hcon & Hv & _).
    eexists. split; [reflexivity|].
    rewrite Hcon, Hv, Htr. unfold st2. simpl.
    unfold put_commands, connection_calls in *.
    rewrite !omap_app, Hp, Hc. simpl. rewrite !app_nil_r.
    rewrite <- app_assoc. done.
Qed.

(** X17. A [connect] that succeeds does its work in this order: it opens the
    transport and starts the loop, queues [VERSION], queues one [WATCH]
    command per watched device in the order of the watch set, and only
    then sets the flag and calls the connection callbacks, each once with
    true, in registration order. *)
Theorem connect_order reconnect st version vs :
  is_fw_version_higher version MINIMUM_API_SUPPORT = Ret true →
  length vs = length (_watched_devices st) →
  ∃ st' es,
    drive (connect reconnect (Ret tt) st) (ROk version :: (ROk <$> vs))
    = (Finished (Ret tt) st', [])
    ∧ trace st'
      = trace st ++ [EOpen; ESpawn reconnect; EPut "VERSION" (next_future st)]
        ++ es ++ ((fun cb => EConnection cb true) <$> _connection_callbacks st)
    ∧ put_commands es = watch_cmd <$> ODict.keys (_watched_devices st)
    ∧ connection_calls es = []
    ∧ connected st' = true ∧ rio_version st' = version
    ∧ _connection_started st' = true.
Proof.
  intros Hver Hvs.
  rewrite connect_drive, Hver. unfold _watch_cached_devices.
  set (st2 := versioned reconnect version st).
  assert (Hw : _watched_devices st2 = _watched_devices st) by reflexivity.
  rewrite <- (app_nil_r (ROk <$> vs)).
  rewrite watch_from_drive; [|lia|lia|rewrite Hw; lia].
  rewrite drop_0, Hw.
  destruct (replayed_frame (ODict.keys (_watched_devices st)) st2)
    as (es & Htr & Hp & Hc & Hcb & Hcon & Hv & Hs).
  eexists _, es. split; [reflexivity|].
  split; [|split; [done|split; [done|split; [done|split]]]].
  - simpl. rewrite Htr, Hcb. unfold st2. simpl. by rewrite <- !app_assoc.
  - simpl. by rewrite Hv.
  - simpl. by rewrite Hs.
Qed.


(** ** The discovery loops *)

Lemma wp_mono {A} R (Q Q' : outcome A → Russound → Prop) t :
  (∀ o st, Q o st → Q' o st) → wp R Q t → wp R Q' t.
Proof.
  intros HQ Hwp. induction Hwp as [o st Ho|fut st k _ IH].
  - constructor. by apply HQ.
  - constructor. intros r st' Hr. by apply IH.
Qed.

Lemma wp_bind {A B} R (Q : outcome B → Russound → Prop) (t : task A)
    (f : A → Async B) :
  wp R (fun o st => match o with
                    | Ret a => wp R Q (f a st)
                    | Raise e => Q (Raise e) st
                    end) t →
  wp R Q (task_bind t f).
Proof.
  intros Hwp. induction Hwp as [o st Ho|fut st k _ IH].
  - destruct o as [a|e]; simpl; [done|by constructor].
  - simpl. constructor. intros r st' Hr. by apply IH.
Qed.

Lemma wp_try {A B} R (Q : outcome B → Russound → Prop) (t : task A)
    (ok : A → Async B) (handler : exn → Async B) :
  wp R (fun o st => match o with
                    | Ret a => wp R Q (ok a st)
                    | Raise e => wp R Q (handler e st)
                    end) t →
  wp R Q (task_try t ok handler).
Proof.
  intros Hwp. induction Hwp as [o st Ho|fut st k _ IH].
  - destruct o as [a|e]; simpl; done.
  - simpl. constructor. intros r st' Hr. by apply IH.
Qed.

(** A task that [wp] accepts finishes: on every supply of results it
    stops after finitely many of them, with a result that satisfies the
    postcondition. *)
Lemma wp_finishes {A} R (Q : outcome A → Russound → Prop) (t : task A) :
  (∀ st, R st st) → wp R Q t →
  ∀ supply : nat → reply, ∃ n o st',
    drive t (supply <$> seq 0 n) = (Finished o st', []) ∧ Q o st'.
Proof.
  intros Hrefl Hwp. induction Hwp as [o st Ho|fut st k _ IH]; intros supply.
  - exists 0%nat, o, st. done.
  - destruct (IH (supply 0%nat) st (Hrefl st) (fun n => supply (S n)))
      as (n & o & st' & Hd & Ho).
    exists (S n), o, st'. split; [|done].
    rewrite <- Hd. simpl. rewrite <- fmap_S_seq, <- list_fmap_compose. done.
Qed.

Lemma cmd_put_registries cmd st : registries_kept st (cmd_put cmd st).2.
Proof. by repeat split. Qed.

Lemma wp_get_variable R (Q : outcome (option string) → Russound → Prop) d k st :
  (∀ v, _retrieve_cached_variable d k st = Ret v → Q (Ret (Some v)) st) →
  (∀ r st', R (cmd_put (get_cmd d k) st).2 st' → Q (reply_outcome r) st') →
  wp R Q (get_variable d k st).
Proof.
  intros Hhit Hmiss. unfold get_variable.
  destruct (_retrieve_cached_variable d k st) as [v|e].
  - constructor. by apply Hhit.
  - constructor. intros r st' Hr. constructor. by apply Hmiss.
Qed.

Lemma fetch_each_wp d props st0 st :
  registries_kept st0 st →
  wp registries_kept (fun o st' => o = Ret tt ∧ registries_kept st0 st')
     (fetch_each d props st).
Proof.
  revert st. induction props as [|p ps IH]; intros st Hst.
  - by constructor.
  - simpl. apply wp_try. apply wp_get_variable.
    + intros v _. by apply IH.
    + intros r st' Hr.
      assert (Hst' : registries_kept st0 st').
      { eapply registries_kept_trans; [exact Hst|].
        eapply registries_kept_trans; [apply cmd_put_registries|exact Hr]. }
      destruct r as [v|msg]; simpl; by apply IH.
Qed.

Lemma cached_state d k st st' : _state st' = _state st → cached d k st' = cached d k st.
Proof. intros Hs. unfold cached, _retrieve_cached_variable. by rewrite Hs. Qed.

Lemma asked_state d props st st' :
  _state st' = _state st → asked d props st' = asked d props st.
Proof.
  intros Hs. unfold asked. induction props as [|p ps IH]; [done|].
  rewrite !filter_cons, IH, (cached_state d p st st' Hs). done.
Qed.

Lemma fetch_each_drive d props st rs :
  (length (asked d props st) ≤ length rs)%nat →
  ∃ st', drive (fetch_each d props st) rs
         = (Finished (Ret tt) st', drop (length (asked d props st)) rs)
         ∧ _state st' = _state st
         ∧ put_commands (trace st')
           = put_commands (trace st) ++ (get_cmd d <$> asked d props st).
Proof.
  revert st rs. induction props as [|p ps IH]; intros st rs Hlen.
  - exists st. simpl. rewrite drop_0. unfold asked. simpl. by rewrite app_nil_r.
  - unfold asked in Hlen |- *. rewrite filter_cons in Hlen |- *.
    fold (asked d ps st) in Hlen |- *.
    simpl fetch_each. unfold get_variable.
    destruct (_retrieve_cached_variable d p st) as [v|e] eqn:E.
    + assert (Hc : cached d p st ≠ false) by (unfold cached; by rewrite E).
      rewrite decide_False in Hlen |- * by done. simpl task_try.
      by apply IH.
    + assert (Hc : cached d p st = false) by (unfold cached; by rewrite E).
      rewrite decide_True in Hlen |- * by done.
      destruct rs as [|r rs]; [simpl in Hlen; lia|].
      set (st1 := (cmd_put ("GET " +:+ d +:+ "." +:+ p) st).2).
      assert (Hs : _state st1 = _state st) by reflexivity.
      assert (Hd : drive (task_try (send_cmd ("GET " +:+ d +:+ "." +:+ p) st)
                            (fun _ => fetch_each d ps)
                            (fun e st =>
                               match e with
                               | CommandError _ => fetch_each d ps st
                               | _ => Finished (Raise e) st
                               end)) (r :: rs)
                   = drive (fetch_each d ps st1) rs).
      { destruct r; reflexivity. }
      rewrite Hd. simpl in Hlen.
      destruct (IH st1 rs) as (st' & Hdr & Hst' & Hp).
      { rewrite (asked_state d ps st st1 Hs). lia. }
      rewrite (asked_state d ps st st1 Hs) in Hdr, Hp.
      exists st'. split; [exact Hdr|]. split; [by rewrite Hst'|].
      rewrite Hp. unfold st1, put_commands. simpl. rewrite omap_app. simpl.
      by rewrite <- app_assoc.
Qed.


(** X18. [fetch_configuration], of a source and of a zone, never raises and
    leaves the registries alone, whatever the device answers and while
    the object changes under it only in what is not a registry. Left to
    itself it asks for each property of the table that the cache lacks,
    once and in the order of the table, a rejected property not keeping
    it from the next; the replies are handed to no one and the cache is
    as before. *)
Theorem fetch_configuration_skips_rejections (s : Source) (z : Zone) st :
  wp registries_kept (fun o st' => o = Ret tt ∧ registries_kept st st')
     (Source_fetch_configuration s st)
  ∧ wp registries_kept (fun o st' => o = Ret tt ∧ registries_kept st st')
       (Zone_fetch_configuration z st)
  ∧ (∀ rs,
       (length (asked (Source_device_str s) SOURCE_PROPERTIES st) ≤ length rs)%nat →
       ∃ st', drive (Source_fetch_configuration s st) rs
              = (Finished (Ret tt) st',
                 drop (length (asked (Source_device_str s) SOURCE_PROPERTIES st)) rs)
              ∧ _state st' = _state st
              ∧ put_commands (trace st')
                = put_commands (trace st)
                  ++ (get_cmd (Source_device_str s)
                        <$> asked (Source_device_str s) SOURCE_PROPERTIES st))
  ∧ (∀ rs,
       (length (asked (Zone_device_str z) ZONE_PROPERTIES st) ≤ length rs)%nat →
       ∃ st', drive (Zone_fetch_configuration z st) rs
              = (Finished (Ret tt) st',
                 drop (length (asked (Zone_device_str z) ZONE_PROPERTIES st)) rs)
              ∧ _state st' = _state st
              ∧ put_commands (trace st')
                = put_commands (trace st)
                  ++ (get_cmd (Zone_device_str z)
                        <$> asked (Zone_device_str z) ZONE_PROPERTIES st)).
Proof.
  split; [|split; [|split]].
  - apply fetch_each_wp, registries_kept_refl.
  - apply fetch_each_wp, registries_kept_refl.
  - intros rs Hrs. by apply fetch_each_drive.
  - intros rs Hrs. by apply fetch_each_drive.
Qed.

Lemma registries_kept_but_sources_step st0 st st' :
  registries_kept_but_sources st0 st → registries_kept st st' →
  registries_kept_but_sources st0 st'.
Proof.
  intros (?&?&?&?&?&?) (?&?&?&?&?&?&?). repeat split; congruence.
Qed.

Lemma sources_ok_insert m id :
  1 ≤ id < MAX_SOURCE → sources_ok m → sources_ok (<[id := mkSource id]> m).
Proof.
  intros Hid Hm k s. destruct (decide (k = id)) as [->|Hne].
  - rewrite lookup_insert_eq. by intros [= <-].
  - rewrite lookup_insert_ne by done. apply Hm.
Qed.

Lemma init_sources_from_wp ids st0 st :
  (∀ id, id ∈ ids → 1 ≤ id < MAX_SOURCE) →
  registries_kept_but_sources st0 st → sources_ok (sources st) →
  wp registries_kept
     (fun o st' => o = Ret tt ∧ registries_kept_but_sources st0 st'
                   ∧ sources_ok (sources st'))
     (init_sources_from ids st).
Proof.
  revert st. induction ids as [|id ids IH]; intros st Hids Hst Hok.
  - by constructor.
  - assert (Hid : 1 ≤ id < MAX_SOURCE) by (apply Hids; by left).
    assert (Hids' : ∀ x, x ∈ ids → 1 ≤ x < MAX_SOURCE).
    { intros x Hx. apply Hids. by right. }
    simpl. apply wp_try, wp_bind.
    assert (Hname : ∀ name st1,
      registries_kept st st1 →
      wp registries_kept
        (fun o st2 =>
           match o with
           | Ret a => wp registries_kept
                        (fun o st' => o = Ret tt ∧ registries_kept_but_sources st0 st'
                                      ∧ sources_ok (sources st'))
                        (init_sources_from ids st2)
           | Raise e => wp registries_kept
                          (fun o st' => o = Ret tt ∧ registries_kept_but_sources st0 st'
                                        ∧ sources_ok (sources st'))
                          match e with
                          | CommandError _ => Finished (Ret tt) st2
                          | _ => Finished (Raise e) st2
                          end
           end)
        (if truthy_opt name
         then task_bind (Source_fetch_configuration (mkSource id) st1)
                (fun _ st =>
                   Finished (Ret tt)
                     (with_sources (<[id := mkSource id]> (sources st)) st))
         else Finished (Ret tt) st1)).
    { intros name st1 Hst1.
      assert (Hst01 : registries_kept_but_sources st0 st1)
        by (eapply registries_kept_but_sources_step; eauto).
      assert (Hok1 : sources_ok (sources st1)).
      { destruct Hst1 as (_&_&_&_&Hsrc&_). by rewrite Hsrc. }
      destruct (truthy_opt name).
      - apply wp_bind.
        eapply wp_mono; [|apply (fetch_each_wp _ _ st1 st1), registries_kept_refl].
        intros o st2 [-> Hst2]. constructor. apply IH; [done| |].
        + destruct Hst01 as (?&?&?&?&?&?).
          destruct Hst2 as (?&?&?&?&?&?&?).
          repeat split; simpl; congruence.
        + simpl. apply sources_ok_insert; [done|].
          destruct Hst2 as (_&_&_&_&Hsrc&_). by rewrite Hsrc.
      - constructor. by apply IH. }
    apply wp_get_variable.
    + intros v _. apply Hname, registries_kept_refl.
    + intros r st' Hr.
      assert (Hst' : registries_kept st st').
      { eapply registries_kept_trans; [apply cmd_put_registries|exact Hr]. }
      destruct r as [v|msg]; simpl.
      * by apply Hname.
      * constructor. split; [done|]. split.
        -- eapply registries_kept_but_sources_step; eauto.
        -- destruct Hst' as (_&_&_&_&Hsrc&_). by rewrite Hsrc.
Qed.

Lemma uncached_raises d k st :
  cached d k st = false → ∃ e, _retrieve_cached_variable d k st = Raise e.
Proof.
  unfold cached. destruct (_retrieve_cached_variable d k st) as [v|e]; [done|eauto].
Qed.

(** X19. [init_sources] cannot raise, and it ends once the replies it
    awaits have come: whatever the device answers, and while the object
    changes under it only in what is not a registry, it can only finish
    normally, with the other registries as they were and with a fresh
    collection in which every source sits under its own index, within the
    bounds of the table (the sources known before the call are dropped);
    on every supply of replies it finishes after finitely many of them.
    It does not end without them: when the name of source 1 is not cached
    it is suspended on the future of [GET S[1].name] until that future is
    resolved. *)
Theorem init_sources_collects st :
  wp registries_kept
     (fun o st' => o = Ret tt ∧ registries_kept_but_sources st st'
                   ∧ sources_ok (sources st'))
     (init_sources st)
  ∧ (∀ supply : nat → reply, ∃ n st',
       drive (init_sources st) (supply <$> seq 0 n) = (Finished (Ret tt) st', [])
       ∧ registries_kept_but_sources st st' ∧ sources_ok (sources st'))
  ∧ (1 < MAX_SOURCE → cached (source_device_str 1) "name" st = false →
       ∃ k, init_sources st
            = Awaiting (next_future st)
                (cmd_put (get_cmd (source_device_str 1) "name")
                   (with_sources ∅ st)).2 k).
Proof.
  assert (Hwp : wp registries_kept
                  (fun o st' => o = Ret tt ∧ registries_kept_but_sources st st'
                                ∧ sources_ok (sources st'))
                  (init_sources st)).
  { apply init_sources_from_wp.
    - intros id Hid. apply elem_of_seqZ in Hid. lia.
    - by repeat split.
    - intros id s. simpl. by rewrite lookup_empty. }
  split; [exact Hwp|]. split.
  - intros supply.
    destruct (wp_finishes _ _ _ registries_kept_refl Hwp supply)
      as (n & o & st' & Hd & -> & Hk & Hok).
    by exists n, st'.
  - intros Hmax Hc. destruct (uncached_raises _ _ _ Hc) as [e He].
    unfold init_sources. rewrite (seqZ_cons 1) by lia.
    simpl init_sources_from. unfold get_variable.
    change (_retrieve_cached_variable (source_device_str 1) "name"
              (with_sources ∅ st))
      with (_retrieve_cached_variable (source_device_str 1) "name" st).
    rewrite He. eexists. reflexivity.
Qed.





(** X21. Discovery ends at the first index whose name query the device
    rejects: the indices after it are not asked for, and the call returns
    normally with what was collected before. A name that is absent or
    empty skips the index, without a fetch of its configuration, and the
    loop goes on to the next. *)
Theorem discovery_stops_at_rejection st msg rs :
  (1 < MAX_SOURCE → cached (source_device_str 1) "name" st = false →
     ∃ st', drive (init_sources st) (RErr msg :: rs) = (Finished (Ret tt) st', rs)
            ∧ sources st' = ∅
            ∧ put_commands (trace st')
              = put_commands (trace st) ++ [get_cmd (source_device_str 1) "name"])
  ∧ (∀ v, 2 < MAX_SOURCE → truthy_opt v = false →
       cached (source_device_str 1) "name" st = false →
       cached (source_device_str 2) "name" st = false →
       ∃ st', drive (init_sources st) (ROk v :: RErr msg :: rs)
              = (Finished (Ret tt) st', rs)
              ∧ sources st' = ∅
              ∧ put_commands (trace st')
                = put_commands (trace st)
                  ++ [get_cmd (source_device_str 1) "name";
                      get_cmd (source_device_str 2) "name"])
  ∧ (∀ controller_id max_zones, 1 ≤ max_zones →
       cached (zone_device_str controller_id 1) "name" st = false →
       ∃ st', drive (Controller__init_zones controller_id max_zones st)
                    (RErr msg :: rs)
              = (Finished (Ret []) st', rs)
              ∧ put_commands (trace st')
                = put_commands (trace st)
                  ++ [get_cmd (zone_device_str controller_id 1) "name"]).
Proof.
  split; [|split].
  - intros Hmax Hc. destruct (uncached_raises _ _ _ Hc) as [e He].
    unfold init_sources. rewrite (seqZ_cons 1) by lia.
    simpl init_sources_from. unfold get_variable.
    change (_retrieve_cached_variable (source_device_str 1) "name"
              (with_sources ∅ st))
      with (_retrieve_cached_variable (source_device_str 1) "name" st).
    rewrite He. eexists. split; [reflexivity|]. split; [done|].
    simpl. unfold put_commands. rewrite omap_app. done.
  - intros v Hmax Hv Hc1 Hc2.
    destruct (uncached_raises _ _ _ Hc1) as [e1 He1].
    destruct (uncached_raises _ _ _ Hc2) as [e2 He2].
    unfold init_sources. rewrite (seqZ_cons 1) by lia.
    rewrite (seqZ_cons (Z.succ 1)) by lia.
    change (Z.succ 1) with 2.
    simpl init_sources_from. unfold get_variable.
    change (_retrieve_cached_variable (source_device_str 1) "name"
              (with_sources ∅ st))
      with (_retrieve_cached_variable (source_device_str 1) "name" st).
    rewrite He1. simpl. rewrite Hv. simpl.
    change (_retrieve_cached_variable (source_device_str 2) "name" ?s)
      with (_retrieve_cached_variable (source_device_str 2) "name" st).
    rewrite He2. eexists. split; [reflexivity|]. split; [done|].
    simpl. unfold put_commands. rewrite !omap_app. simpl.
    by rewrite <- app_assoc.
  - intros cid max Hmax Hc. destruct (uncached_raises _ _ _ Hc) as [e He].
    unfold Controller__init_zones. rewrite (seqZ_cons 1) by lia.
    simpl init_zones_from. unfold get_variable. rewrite He.
    eexists. split; [reflexivity|].
    simpl. unfold put_commands. rewrite omap_app. done.
Qed.


(** ** Sessions across reconnects *)

Lemma resolution_app f a b :
  resolution f (a ++ b)
  = match resolution f a with Some r => Some r | None => resolution f b end.
Proof.
  induction a as [|e a IH]; [done|].
  destruct e; simpl; try done. by case_decide.
Qed.

Lemma resolution_quiet f es : Forall quiet es → resolution f es = None.
Proof. induction 1 as [|e es He _ IH]; [done|]. by destruct e. Qed.

Lemma unserved_frame f st st' es :
  _cmd_queue st' = _cmd_queue st → next_future st' = next_future st →
  trace st' = trace st ++ es → resolution f es = None →
  unserved f st → unserved f st'.
Proof.
  intros Hq Hn Ht Hes (Hlt & Hin & Hres). unfold unserved.
  rewrite Hq, Hn, Ht, resolution_app, Hres. done.
Qed.

Lemma unserved_quiet f st st' : quiet_step st st' → unserved f st → unserved f st'.
Proof.
  intros (Hq & Hn & es & Ht & Hes). eapply unserved_frame; try done.
  by apply resolution_quiet.
Qed.

Lemma unserved_put f cmd st : unserved f st → unserved f (cmd_put cmd st).2.
Proof.
  intros (Hlt & Hin & Hres). unfold unserved. simpl.
  split; [lia|]. split.
  - rewrite fmap_app. simpl. intros [?|Hf]%elem_of_app; [done|].
    apply list_elem_of_singleton in Hf. lia.
  - by rewrite resolution_app, Hres.
Qed.

Lemma fail_lost reconnect e st f :
  unserved f st → lost f (fail reconnect e st).
Proof.
  intros Hun. pose proof (fail_quiet reconnect e st) as Hq.
  destruct (fail_frame reconnect e st) as (es & Hf & _).
  rewrite Hf in Hq |- *. split; [by eapply unserved_quiet|]. simpl.
  split; [by intros ?%elem_of_nil|done].
Qed.

Lemma on_command_lost item st f :
  unserved f st → f ≠ item.2 → lost f (on_command item st).
Proof.
  intros Hun Hne. destruct item as [cmd fut]. simpl in *.
  split; [|split; [by intros ?%elem_of_nil|simpl; congruence]].
  by eapply (unserved_frame f st _ [EWrite (cmd +:+ CR) fut]).
Qed.

Lemma step_lost reconnect ev c c' f :
  step reconnect ev c = Some c' → lost f c → lost f c'.
Proof.
  destruct c as [s st]. intros Hstep (Hun & Hheld & Hfly). simpl in *.
  unfold step in Hstep. destruct ev as [cmd| |r| |[e|]|].
  - simplify_eq. split; [by apply unserved_put|done].
  - assert (Hget : ∀ item q, _cmd_queue st = item :: q →
              unserved f (with_cmd_queue q st) ∧ (f ∉ [item].*2)).
    { intros item q Hq. destruct Hun as (Hlt & Hin & Hres).
      rewrite Hq, fmap_cons in Hin. apply not_elem_of_cons in Hin as [Hi Hin].
      split; [done|]. simpl. by intros ?%list_elem_of_singleton. }
    destruct s as [[item|]|f0|[item|] f0|r0]; try done;
      unfold take_head in Hstep; destruct (_cmd_queue st) as [|item q] eqn:Hq;
      simpl in Hstep; simplify_eq;
      destruct (Hget item q eq_refl) as [Hun' Hitem]; by split.
  - destruct s as [[item|]|f0|qf f0|r0]; try done.
    + pose proof (on_push_quiet r st) as Hq.
      destruct (on_push r st) as [[[]|e] st1]; simplify_eq; simpl in *.
      * apply on_command_lost; [by eapply unserved_quiet|].
        intros ->. apply Hheld. simpl. by left.
      * apply fail_lost. by eapply unserved_quiet.
    + pose proof (on_push_quiet r st) as Hq.
      destruct (on_push r st) as [[[]|e] st1]; simplify_eq; simpl in *.
      * split; [by eapply unserved_quiet|done].
      * apply fail_lost. by eapply unserved_quiet.
    + simplify_eq. unfold on_reply. destruct r as [res|e]; [|by apply fail_lost].
      pose proof (process_response_quiet res st) as Hq.
      assert (Hne : f0 ≠ f) by (simpl in Hfly; congruence).
      assert (Hres : ∀ st1 r, unserved f st1 →
                lost f (AtWait qf, emit [EResolve f0 r] st1)).
      { intros st1 r Hun1. split; [|by destruct qf].
        eapply (unserved_frame f st1 _ [EResolve f0 r]); try done.
        simpl. by rewrite decide_False. }
      destruct (_process_response res st) as [[[ty value]|e] st1]; simpl in *.
      * case_decide.
        -- apply Hres. by eapply unserved_quiet.
        -- split; [by eapply unserved_quiet|done].
      * destruct e; try (apply fail_lost; by eapply unserved_quiet).
        apply Hres. by eapply unserved_quiet.
  - destruct s as [[item|]|f0|qf f0|r0]; try done. simplify_eq.
    apply on_command_lost; [done|]. intros ->. apply Hheld. simpl. by left.
  - destruct s as [qf|f0|qf f0|r0]; try done. simplify_eq. by apply fail_lost.
  - destruct s as [qf|f0|qf f0|r0]; try done. simplify_eq.
    split; [done|]. split; [by intros ?%elem_of_nil|done].
  - destruct s as [qf|f0|qf f0|r0]; simplify_eq; try by apply fail_lost.
    by split.
Qed.

Lemma keeps_bind {A B} P (t : task A) (K : A → Async B) :
  keeps P t → (∀ a st, P st → keeps P (K a st)) → keeps P (task_bind t K).
Proof.
  intros Ht HK. induction Ht as [o st Hst|fut st k Hst _ IH].
  - destruct o as [a|e]; simpl; [by apply HK|by constructor].
  - simpl. constructor; [done|]. intros r st' Hst'. by apply IH.
Qed.

Lemma keeps_state {A} P (t : task A) : keeps P t → P (task_state t).
Proof. by destruct 1. Qed.

Lemma send_cmd_unserved f cmd st :
  unserved f st → keeps (unserved f) (send_cmd cmd st).
Proof.
  intros Hun. unfold send_cmd. simpl. constructor; [by apply unserved_put|].
  intros r st' Hst'. by constructor.
Qed.

Lemma unserved_same f st st' :
  _cmd_queue st' = _cmd_queue st → next_future st' = next_future st →
  trace st' = trace st → unserved f st → unserved f st'.
Proof.
  intros Hq Hn Ht. apply (unserved_frame f st st' []); try done.
  by rewrite app_nil_r.
Qed.

Lemma watch_from_unserved f todo used i st :
  unserved f st → keeps (unserved f) (watch_from todo used i st).
Proof.
  revert i st. induction todo as [|todo IH]; intros i st Hun;
    [by constructor|].
  rewrite watch_from_S. case_decide; [|by constructor].
  destruct (ODict.keys (_watched_devices st) !! i) as [device|]; [|by constructor].
  apply keeps_bind; [|intros _ st'; apply IH].
  unfold watch. apply send_cmd_unserved. by eapply unserved_same.
Qed.

Lemma connect_unserved f reconnect transport st :
  unserved f st → keeps (unserved f) (connect reconnect transport st).
Proof.
  intros Hun. unfold connect.
  assert (Hun0 : unserved f (with_connection_started true st))
    by (by eapply unserved_same).
  destruct transport as [[]|e]; [|by constructor].
  apply keeps_bind.
  - apply send_cmd_unserved.
    by apply (unserved_frame f (with_connection_started true st) _
                [EOpen; ESpawn reconnect]).
  - intros version st1 Hun1.
    assert (Hun2 : unserved f (with_rio_version version st1))
      by (by eapply unserved_same).
    destruct (is_fw_version_higher version MINIMUM_API_SUPPORT) as [[]|e];
      [|by constructor|by constructor].
    apply keeps_bind; [by apply watch_from_unserved|].
    intros _ st2 Hun3. constructor.
    eapply (unserved_frame f st2 _
              ((fun cb => EConnection cb true) <$> _connection_callbacks st2));
      try done.
    apply resolution_quiet, Forall_fmap, Forall_forall. by intros.
Qed.

Lemma session_step_lost reconnect sev s s' f :
  session_step reconnect sev s = Some s' →
  lost f s.1 → Forall (keeps (unserved f)) s.2 →
  lost f s'.1 ∧ Forall (keeps (unserved f)) s'.2.
Proof.
  destruct s as [c pending]. simpl. intros Hstep Hlost Hpend.
  destruct sev as [ev|transport|i]; simpl in Hstep.
  - assert (Hc : ∃ c', step reconnect ev c = Some c' ∧ s' = (c', pending)).
    { destruct ev; try (destruct (reconnect_due reconnect c); [done|]);
        destruct (step reconnect _ c) as [c'|]; simpl in Hstep; simplify_eq;
        eauto. }
    destruct Hc as (c' & Hc & ->). simpl. split; [|done].
    by eapply step_lost.
  - destruct (reconnect_due reconnect c); [|done].
    pose proof (connect_unserved f reconnect transport c.2 (proj1 Hlost)) as Hk.
    destruct (connect reconnect transport c.2) as [|fut st k]; [done|].
    simplify_eq. simpl. split.
    + split; [by inversion Hk|]. simpl.
      split; [by intros ?%elem_of_nil|done].
    + apply Forall_app. split; [done|]. by constructor.
  - destruct (pending !! i) as [[|fut st0 k]|] eqn:Hi; try done.
    destruct (resolution fut (trace c.2)) as [r|]; [|done].
    simpl in Hstep. simplify_eq. simpl.
    assert (Hk : keeps (unserved f) (k r c.2)).
    { rewrite Forall_forall in Hpend.
      pose proof (Hpend _ (list_elem_of_lookup_2 _ _ _ Hi)) as Hki.
      inversion Hki as [|? ? ? _ Hnext]; simplify_eq.
      apply Hnext. apply Hlost. }
    split.
    + destruct Hlost as (_ & Hheld & Hfly). split; [|done].
      by apply keeps_state.
    + destruct (k r c.2) as [o st1|fut1 st1 k1].
      * by apply Forall_delete.
      * by apply Forall_insert.
Qed.

Lemma session_lost reconnect sevs s s' f :
  session reconnect sevs s = Some s' →
  lost f s.1 → Forall (keeps (unserved f)) s.2 →
  lost f s'.1.
Proof.
  revert s. induction sevs as [|sev sevs IH]; intros s Hs Hlost Hpend.
  - simpl in Hs. by simplify_eq.
  - simpl in Hs.
    destruct (session_step reconnect sev s) as [s1|] eqn:Hstep; [|done].
    simpl in Hs.
    destruct (session_step_lost _ _ _ _ f Hstep Hlost Hpend) as [Hl Hp].
    by eapply IH.
Qed.

(** X6. A command that a loop has taken from the queue and not answered
    stays unanswered. Once a future is unserved and the loop neither holds
    it nor has it in flight, as is the future of the command in flight when
    a loop ends, nothing resolves it any more: not the callers that queue
    commands, not the loop, not a reconnect, not the loop that the
    reconnect spawns, not [connect] when it is resumed. *)
Theorem lost_future_stays_lost reconnect sevs c s' f :
  session reconnect sevs (c, []) = Some s' → lost f c →
  lost f s'.1 ∧ resolution f (trace s'.1.2) = None.
Proof.
  intros Hs Hlost.
  assert (Hl : lost f s'.1).
  { eapply (session_lost reconnect sevs (c, [])); [done|done|constructor]. }
  split; [done|]. apply Hl.
Qed.


End Theory_client.

(** * The properties of the rest of the client at concrete inputs *)

Section Sessions_client.

Import RIO Scenario Discovery.

(** [process_response_raises] on a rejection. *)
Lemma process_response_raises_witness :
  _process_response (line "E" "Invalid argument") online
  = (Raise (CommandError "Invalid argument"), online)
  ∧ ((∃ rest, Py.strip (line "E" "Invalid argument") = String "E" rest
              ∧ CommandError "Invalid argument"
                = CommandError (Py.drop 2 (String "E" rest))
              ∧ online = online)
     ∨ (store_error (CommandError "Invalid argument")
        ∧ ∀ rest, Py.strip (line "E" "Invalid argument") ≠ String "E" rest)).
Proof.
  assert (Hp : _process_response (line "E" "Invalid argument") online
               = (Raise (CommandError "Invalid argument"), online))
    by (vm_compute; reflexivity).
  split; [exact Hp|].
  exact (process_response_raises _ _ _ _ Hp).
Defined.

(** [run_keeps_registries] on a loop without reconnect that a failed
    read ends with a command in flight. *)
Lemma run_keeps_registries_witness :
  ∃ c', run false (in_flight_events ++ [Net (RFail OSError)]) (AtWait None, online)
        = Some c'
        ∧ reconnect_due false c' = false
        ∧ registries_kept online c'.2.
Proof.
  assert (Hrun : ∃ c, run false (in_flight_events ++ [Net (RFail OSError)])
                        (AtWait None, online) = Some c
                      ∧ reconnect_due false c = false)
    by (eexists; split; vm_compute; reflexivity).
  destruct Hrun as (c' & Hrun & Hdue).
  exists c'. split; [exact Hrun|]. split; [exact Hdue|].
  exact (run_keeps_registries false _ (AtWait None, online) c' Hrun Hdue).
Defined.

(** [line_in_wait_resolves_nothing] on a success line that arrives when a
    command has just been taken from the queue. *)
Lemma line_in_wait_resolves_nothing_witness :
  ∃ st',
    step true (Net (RLine (line "S" (assign "C[1].Z[1]" "name" "Kitchen"))))
      (AtWait (Some ("GET C[1].Z[1].volume", 0%nat)), online)
    = Some (AtDrain 0%nat, st')
    ∧ resolved (trace st') = resolved (trace online)
    ∧ _cmd_queue st' = _cmd_queue online.
Proof.
  eexists. split; [vm_compute; reflexivity|].
  match goal with
  | |- resolved (trace ?s) = _ ∧ _ =>
      assert (Hstep :
        step true (Net (RLine (line "S" (assign "C[1].Z[1]" "name" "Kitchen"))))
          (AtWait (Some ("GET C[1].Z[1].volume", 0%nat)), online)
        = Some (AtDrain 0%nat, s)) by (vm_compute; reflexivity)
  end.
  destruct (line_in_wait_resolves_nothing _ _ _ _ _ _ Hstep) as (Hr & Hq & _).
  split; [exact Hr|exact Hq].
Defined.

(** [resolutions_follow_writes] on two commands served in turn. *)
Lemma resolutions_follow_writes_witness :
  trace online = [] ∧ _cmd_queue online = []
  ∧ ∃ status st,
      run true two_commands (AtWait None, online) = Some (status, st)
      ∧ writes (trace st) = resolved (trace st) ++ in_flight [] (trace st)
      ∧ NoDup (resolved (trace st)).
Proof.
  split; [reflexivity|]. split; [reflexivity|].
  assert (Hrun : ∃ c, run true two_commands (AtWait None, online) = Some c)
    by (eexists; vm_compute; reflexivity).
  destruct Hrun as [[status st] Hrun].
  exists status, st. split; [exact Hrun|].
  destruct (resolutions_follow_writes true two_commands online status st
              eq_refl eq_refl Hrun) as (Hw & Hnd & _).
  split; [exact Hw|exact Hnd].
Defined.


(** [store_calls_registered] on a third callback, added for zone 1. *)
Lemma store_calls_registered_witness :
  "C[1].Z[2]" ≠ "C[1].Z[1]"
  ∧ callbacks_of "C[1].Z[1]" (add_callback "C[1].Z[1]" 9%nat registered)
    = callbacks_of "C[1].Z[1]" registered ++ [9%nat]
  ∧ callbacks_of "C[1].Z[2]" (add_callback "C[1].Z[1]" 9%nat registered)
    = callbacks_of "C[1].Z[2]" registered.
Proof.
  assert (Hne : "C[1].Z[2]" ≠ "C[1].Z[1]") by discriminate.
  destruct (store_calls_registered "C[1].Z[1]" 9%nat "volume" "10" registered)
    as (Hown & Hother & _).
  split; [exact Hne|]. split; [exact Hown|exact (Hother _ Hne)].
Defined.

(** [remove_callback_after_last] on the only callback of a client. *)
Lemma remove_callback_after_last_witness :
  _callbacks init = []
  ∧ remove_callback 1%nat (add_callback "C[1].Z[1]" 1%nat init)
    = (Ret tt, with_callbacks [("C[1].Z[1]", [])] init)
  ∧ ("C[1].Z[1]", []) ∈ _callbacks (with_callbacks [("C[1].Z[1]", [])] init)
  ∧ ∃ st', remove_callback 1%nat (with_callbacks [("C[1].Z[1]", [])] init)
           = (Raise ValueError, st').
Proof.
  destruct remove_callback_after_last as [Hblock Hround].
  assert (Hin : ("C[1].Z[1]", []) ∈ _callbacks (with_callbacks [("C[1].Z[1]", [])] init))
    by (simpl; left).
  split; [reflexivity|]. split; [exact (Hround init "C[1].Z[1]" 1%nat eq_refl)|].
  split; [exact Hin|].
  exact (Hblock _ "C[1].Z[1]" 1%nat Hin).
Defined.

(** [connection_callback_registry] on a client with one connection
    callback. *)
Lemma connection_callback_registry_witness :
  (5%nat ∉ _connection_callbacks online)
  ∧ remove_connection_callback 5%nat online = (Raise ValueError, online)
  ∧ remove_connection_callback 5%nat (add_connection_callback 5%nat online)
    = (Ret tt, online)
  ∧ 3%nat ∈ _connection_callbacks online
  ∧ ∃ l1 l2, _connection_callbacks online = l1 ++ 3%nat :: l2
             ∧ remove_connection_callback 3%nat online
               = (Ret tt, with_connection_callbacks (l1 ++ l2) online).
Proof.
  assert (Hout : 5%nat ∉ _connection_callbacks online)
    by (simpl; intros [=]%list_elem_of_singleton).
  assert (Hin : 3%nat ∈ _connection_callbacks online) by (simpl; left).
  destruct (connection_callback_registry 5%nat online) as (Habsent & _ & _).
  destruct (connection_callback_registry 3%nat online) as (_ & Hpresent & _).
  destruct (Habsent Hout) as [Hraise Hround].
  destruct (Hpresent Hin) as (l1 & l2 & Hl & _ & Hrm).
  split; [exact Hout|]. split; [exact Hraise|]. split; [exact Hround|].
  split; [exact Hin|]. exists l1, l2. split; [exact Hl|exact Hrm].
Defined.

(** [get_variable_cache_first] on a cached and on an uncached variable of
    source 1. *)
Lemma get_variable_cache_first_witness :
  _retrieve_cached_variable "S[1]" "type" typed = Ret "Tuner"
  ∧ get_variable "S[1]" "type" typed = Finished (Ret (Some "Tuner")) typed
  ∧ _retrieve_cached_variable "S[1]" "name" typed = Raise UncachedVariableError
  ∧ ∃ st1, drive (get_variable "S[1]" "name" typed) [ROk (Some "FM")]
           = (Finished (Ret (Some "FM")) st1, [])
           ∧ _cmd_queue st1 = [("GET S[1].name", 0%nat)]
           ∧ _state st1 = _state typed.
Proof.
  assert (Hhit : _retrieve_cached_variable "S[1]" "type" typed = Ret "Tuner")
    by (vm_compute; reflexivity).
  assert (Hmiss : _retrieve_cached_variable "S[1]" "name" typed
                  = Raise UncachedVariableError) by (vm_compute; reflexivity).
  destruct (get_variable_cache_first "S[1]" "type" typed) as (Hcached & _ & _).
  destruct (get_variable_cache_first "S[1]" "name" typed) as (_ & Hasked & _).
  split; [exact Hhit|]. split; [exact (Hcached _ Hhit)|]. split; [exact Hmiss|].
  destruct (Hasked _ Hmiss (ROk (Some "FM"))) as (st1 & Hd & Hq & Hs & _).
  exists st1. split; [exact Hd|]. split; [exact Hq|exact Hs].
Defined.

(** [unwatch_watched] on the first of two watched zones. *)
Lemma unwatch_watched_witness :
  ODict.get "C[1].Z[1]" (_watched_devices watcher) = Some true
  ∧ ∃ w1 w2, _watched_devices watcher = w1 ++ ("C[1].Z[1]", true) :: w2
      ∧ ∃ st1, drive (unwatch "C[1].Z[1]" watcher) [ROk None]
               = (Finished (Ret None) st1, [])
               ∧ _watched_devices st1 = w1 ++ w2
               ∧ _cmd_queue st1 = [("WATCH C[1].Z[1] OFF", 0%nat)].
Proof.
  split; [reflexivity|].
  destruct (unwatch_watched "C[1].Z[1]" true watcher eq_refl)
    as (w1 & w2 & Hw & _ & Hun).
  exists w1, w2. split; [exact Hw|].
  destruct (Hun (ROk None)) as (st1 & Hd & Hw' & Hq).
  exists st1. split; [exact Hd|]. split; [exact Hw'|exact Hq].
Defined.

(** [watch_unwatch_round_trip] on zone 1 of a fresh client. *)
Lemma watch_unwatch_round_trip_witness :
  ODict.get "C[1].Z[1]" (_watched_devices init) = None
  ∧ ∃ st', drive (task_bind (watch "C[1].Z[1]" init) (fun _ => unwatch "C[1].Z[1]"))
                 [ROk None; ROk None]
           = (Finished (Ret None) st', [])
           ∧ _watched_devices st' = _watched_devices init
           ∧ put_commands (trace st')
             = ["WATCH C[1].Z[1] ON"; "WATCH C[1].Z[1] OFF"].
Proof.
  split; [reflexivity|].
  destruct (watch_unwatch_round_trip "C[1].Z[1]" init None (ROk None) eq_refl)
    as (st' & Hd & Hw & Hp & _).
  exists st'. split; [exact Hd|]. split; [exact Hw|exact Hp].
Defined.

(** [zone_getters] on zone 1 of a fresh client. *)
Lemma zone_getters_witness :
  _state init !! Zone_device_str zone1 = None
  ∧ Zone_volume zone1 init = Some "0" ∧ Zone_status zone1 init = Some "OFF"
  ∧ Py.lower "Volume" = "volume"
  ∧ Zone_volume zone1
      (_store_cached_variable (Zone_device_str zone1) "Volume" "10" init).2
    = Some "10".
Proof.
  assert (Hnone : _state init !! Zone_device_str zone1 = None)
    by (vm_compute; reflexivity).
  destruct (zone_getters zone1 init) as (Hdef & Hvol & _).
  destruct (Hdef Hnone) as (Hv & Hs & _).
  split; [exact Hnone|]. split; [exact Hv|]. split; [exact Hs|].
  split; [reflexivity|]. exact (Hvol "Volume" "10" eq_refl).
Defined.

(** [connect_failures] on a client that watches two zones, the device
    rejecting the second [WATCH] command. *)
Lemma connect_failures_witness :
  is_fw_version_higher (Some "1.05.00") MINIMUM_API_SUPPORT = Ret true
  ∧ (length [@None string] < length (_watched_devices watcher))%nat
  ∧ ∃ st', drive (connect true (Ret tt) watcher)
                 (ROk (Some "1.05.00") :: (ROk <$> [None]) ++ [RErr "busy"])
           = (Finished (Raise (CommandError "busy")) st', [])
           ∧ connected st' = connected watcher
           ∧ connection_calls (trace st') = connection_calls (trace watcher).
Proof.
  assert (Hok : is_fw_version_higher (Some "1.05.00") MINIMUM_API_SUPPORT
                = Ret true) by (vm_compute; reflexivity).
  assert (Hlen : (length [@None string] < length (_watched_devices watcher))%nat)
    by (simpl; lia).
  destruct (connect_failures true watcher) as (_ & _ & Hreplay).
  destruct (Hreplay (Some "1.05.00") [None] "busy" Hok Hlen)
    as (st' & Hd & Hc & _ & _ & Hcalls).
  split; [exact Hok|]. split; [exact Hlen|].
  exists st'. split; [exact Hd|]. split; [exact Hc|exact Hcalls].
Defined.

(** [connect_order] on a client that watches two zones. *)
Lemma connect_order_witness :
  is_fw_version_higher (Some "1.05.00") MINIMUM_API_SUPPORT = Ret true
  ∧ length [@None string; None] = length (_watched_devices watcher)
  ∧ ∃ st' es,
      drive (connect true (Ret tt) watcher)
            (ROk (Some "1.05.00") :: (ROk <$> [None; None]))
      = (Finished (Ret tt) st', [])
      ∧ trace st'
        = trace watcher ++ [EOpen; ESpawn true; EPut "VERSION" 0%nat]
          ++ es ++ [EConnection 4%nat true]
      ∧ put_commands es = ["WATCH C[1].Z[1] ON"; "WATCH C[1].Z[2] ON"]
      ∧ connected st' = true.
Proof.
  assert (Hok : is_fw_version_higher (Some "1.05.00") MINIMUM_API_SUPPORT
                = Ret true) by (vm_compute; reflexivity).
  destruct (connect_order true watcher (Some "1.05.00") [None; None] Hok eq_refl)
    as (st' & es & Hd & Htr & Hp & _ & Hc & _).
  split; [exact Hok|]. split; [reflexivity|].
  exists st', es. split; [exact Hd|]. split; [exact Htr|]. split; [exact Hp|exact Hc].
Defined.

(** [fetch_configuration_skips_rejections] on source 1, whose type is
    cached and whose channel the device rejects. *)
Lemma fetch_configuration_skips_rejections_witness :
  (length (asked (Source_device_str (mkSource 1)) SOURCE_PROPERTIES typed)
   ≤ length [RErr "no channel"])%nat
  ∧ ∃ st', drive (Source_fetch_configuration (mkSource 1) typed) [RErr "no channel"]
           = (Finished (Ret tt) st', [])
           ∧ _state st' = _state typed
           ∧ put_commands (trace st') = ["GET S[1].channel"].
Proof.
  assert (Hlen : (length (asked (Source_device_str (mkSource 1))
                            SOURCE_PROPERTIES typed)
                  ≤ length [RErr "no channel"])%nat)
    by (vm_compute; lia).
  destruct (fetch_configuration_skips_rejections (mkSource 1) zone1 typed)
    as (_ & _ & Hsrc & _).
  destruct (Hsrc [RErr "no channel"] Hlen) as (st' & Hd & Hs & Hp).
  split; [exact Hlen|].
  exists st'. split; [exact Hd|]. split; [exact Hs|exact Hp].
Defined.

(** [discovery_stops_at_rejection] on a fresh client whose device
    rejects the name of source 1. *)
Lemma discovery_stops_at_rejection_witness :
  1 < MAX_SOURCE
  ∧ cached (source_device_str 1) "name" init = false
  ∧ ∃ st', drive (init_sources init) [RErr "no source"]
           = (Finished (Ret tt) st', [])
           ∧ sources st' = ∅
           ∧ put_commands (trace st') = ["GET S[1].name"].
Proof.
  assert (Hmax : 1 < MAX_SOURCE) by reflexivity.
  assert (Hc : cached (source_device_str 1) "name" init = false)
    by (vm_compute; reflexivity).
  destruct (discovery_stops_at_rejection init "no source" []) as (Hfirst & _ & _).
  destruct (Hfirst Hmax Hc) as (st' & Hd & Hs & Hp).
  split; [exact Hmax|]. split; [exact Hc|].
  exists st'. split; [exact Hd|]. split; [exact Hs|exact Hp].
Defined.


(** [lost_future_stays_lost] on the command in flight when the connection
    is reset: the next loop serves the commands queued after it, the
    reconnect completes, and its future is still unresolved. *)
Lemma lost_future_stays_lost_witness :
  lost 0%nat reset_in_flight
  ∧ ∃ s', session true after_reset (reset_in_flight, []) = Some s'
          ∧ resolution 0%nat (trace s'.1.2) = None
          ∧ connected s'.1.2 = true.
Proof.
  assert (Hlost : lost 0%nat reset_in_flight).
  { split; [split; [|split]|split].
    - vm_compute. lia.
    - intros Hin. vm_compute in Hin. inversion Hin.
    - vm_compute. reflexivity.
    - intros Hin. vm_compute in Hin. inversion Hin.
    - vm_compute. discriminate. }
  assert (Hs : ∃ s, session true after_reset (reset_in_flight, []) = Some s
                    ∧ connected s.1.2 = true)
    by (eexists; split; vm_compute; reflexivity).
  destruct Hs as (s' & Hs & Hc).
  split; [exact Hlost|]. exists s'. split; [exact Hs|]. split; [|exact Hc].
  exact (proj2 (lost_future_stays_lost true after_reset reset_in_flight s' 0%nat
                  Hs Hlost)).
Defined.


(** [init_sources_collects] on a fresh client: the call is suspended on
    the name of source 1. *)
Lemma init_sources_collects_witness :
  1 < MAX_SOURCE
  ∧ cached (source_device_str 1) "name" init = false
  ∧ ∃ k, init_sources init
         = Awaiting 0%nat
             (cmd_put "GET S[1].name" (with_sources ∅ init)).2 k.
Proof.
  assert (Hmax : 1 < MAX_SOURCE) by reflexivity.
  assert (Hc : cached (source_device_str 1) "name" init = false)
    by (vm_compute; reflexivity).
  destruct (init_sources_collects init) as (_ & _ & Hwait).
  split; [exact Hmax|]. split; [exact Hc|]. exact (Hwait Hmax Hc).
Defined.



End Sessions_client.
